(** * dyndbclient: expression builders and stream cursor processor

    A shallow embedding of the expression-compiling core of the DynamoDB
    client wrapper (reserved-word resolver, query and scan condition
    builders, update-expression compiler, stream processor), together with
    the properties its specification states about them.

    JavaScript values are modelled by the inductive type [JsValue];
    numbers are IEEE-754 doubles (primitive floats); strings are sequences
    of 8-bit characters; a JavaScript object used as a dictionary is a
    [gmap string _]; a thrown [Error] is the [Throw] constructor of
    [Result], carrying the message. *)

From Stdlib Require Import Floats Ascii String.
From stdpp Require Import gmap strings list pretty.


(** ** JavaScript values *)

#[local] Set Warnings "-register-all".

Inductive JsValue : Type :=
| JUndefined
| JNull
| JBool (b : bool)
| JNumber (x : float)
| JString (s : string)
| JArray (items : list JsValue)
| JObject (props : list (string * JsValue)).

(** [typeof v === 'number'], [typeof v === 'string'], [Array.isArray(v)] *)
Definition isNumber (v : JsValue) : bool :=
  match v with JNumber _ => true | _ => false end.

Definition isString (v : JsValue) : bool :=
  match v with JString _ => true | _ => false end.

Definition isArray (v : JsValue) : bool :=
  match v with JArray _ => true | _ => false end.

(** [typeof v === 'object'] (true of [null], arrays and objects) *)
Definition isObjectType (v : JsValue) : bool :=
  match v with JNull | JArray _ | JObject _ => true | _ => false end.

(** the global [isNaN] applied to a value already known to be a number *)
Definition isNaN (v : JsValue) : bool :=
  match v with JNumber x => PrimFloat.is_nan x | _ => false end.

(** JavaScript truthiness *)
Definition truthy (v : JsValue) : bool :=
  match v with
  | JUndefined | JNull => false
  | JBool b => b
  | JNumber x => negb (PrimFloat.is_zero x || PrimFloat.is_nan x)
  | JString s => negb (String.eqb s "")
  | JArray _ | JObject _ => true
  end.

Fixpoint assoc (k : string) (props : list (string * JsValue)) : JsValue :=
  match props with
  | [] => JUndefined
  | (k', v) :: rest => if String.eqb k k' then v else assoc k rest
  end.

(** property read [v.k] on a value that is not [null] or [undefined] *)
Definition getProp (v : JsValue) (k : string) : JsValue :=
  match v with
  | JObject props => assoc k props
  | _ => JUndefined
  end.

(** indexed read [v[i]] *)
Definition getIndex (v : JsValue) (i : nat) : JsValue :=
  match v with
  | JArray items => default JUndefined (items !! i)
  | JString s =>
      match String.get i s with
      | Some c => JString (String c "")
      | None => JUndefined
      end
  | JObject props => assoc (pretty i) props
  | _ => JUndefined
  end.

(** ** Thrown errors *)

Inductive Result (A : Type) : Type :=
| Ok (a : A)
| Throw (message : string).
Arguments Ok {A} a.
Arguments Throw {A} message.

#[global] Instance Result_ret : MRet Result := λ A a, Ok a.

#[global] Instance Result_bind : MBind Result := λ A B k r,
  match r with
  | Ok a => k a
  | Throw m => Throw m
  end.

(** [if (!ok) throw new Error(message)] *)
Definition ensure (ok : bool) (message : string) : Result unit :=
  if ok then Ok tt else Throw message.

(** ** Character classes and string helpers *)

Definition charBetween (lo hi c : ascii) : bool :=
  (N.leb (N_of_ascii lo) (N_of_ascii c)) && (N.leb (N_of_ascii c) (N_of_ascii hi)).

Definition isUpper (c : ascii) : bool := charBetween "A" "Z" c.
Definition isLower (c : ascii) : bool := charBetween "a" "z" c.
Definition isDigit (c : ascii) : bool := charBetween "0" "9" c.

(** the class [[a-zA-Z0-9_]], which is also what [\b] and [\w] call a word
    character *)
Definition isWordChar (c : ascii) : bool :=
  isLower c || isUpper c || isDigit c || Ascii.eqb c "_".

(** the class [[a-zA-Z_]] *)
Definition isIdentStart (c : ascii) : bool :=
  isLower c || isUpper c || Ascii.eqb c "_".

(** [\s] and [String.prototype.trim] on 8-bit characters: tab to
    carriage return, the space and the no-break space U+00A0 *)
Definition isWhitespace (c : ascii) : bool :=
  let n := N_of_ascii c in
  (N.leb 9 n && N.leb n 13) || N.eqb n 32 || N.eqb n 160.

Fixpoint forallChars (p : ascii → bool) (s : string) : bool :=
  match s with
  | EmptyString => true
  | String c s' => p c && forallChars p s'
  end.

Fixpoint existsChar (p : ascii → bool) (s : string) : bool :=
  match s with
  | EmptyString => false
  | String c s' => p c || existsChar p s'
  end.

(** [/^[a-zA-Z0-9_]+$/.test(s)] *)
Definition matchesFieldPattern (s : string) : bool :=
  negb (String.eqb s "") && forallChars isWordChar s.

(** [s.trim() === ''] *)
Definition trimIsEmpty (s : string) : bool := forallChars isWhitespace s.

(** the capital letters of the upper half of the 8-bit range: U+00C0 to
    U+00DE without the multiplication sign U+00D7 *)
Definition isUpperLatin1 (c : ascii) : bool :=
  let n := N_of_ascii c in
  N.leb 192 n && N.leb n 222 && negb (N.eqb n 215).

(** [s.toLowerCase()] on 8-bit characters *)
Definition toLowerChar (c : ascii) : ascii :=
  if isUpper c || isUpperLatin1 c then ascii_of_N (N_of_ascii c + 32) else c.

Fixpoint toLowerCase (s : string) : string :=
  match s with
  | EmptyString => EmptyString
  | String c s' => String (toLowerChar c) (toLowerCase s')
  end.

(** [parts.join(sep)] *)
Fixpoint join (sep : string) (parts : list string) : string :=
  match parts with
  | [] => ""
  | [p] => p
  | p :: rest => p +:+ sep +:+ join sep rest
  end.

(** ** Query-mode condition builder (operations/query-builder.ts) *)

Module QueryBuilder.

Inductive QueryOperationType : Type :=
| EQUALS | NOT_EQUALS | GREATER_THAN | LESS_THAN
| CONTAINS | BEGINS_WITH | IN | BETWEEN.

Record QueryCondition : Type := {
  field : string;
  value : JsValue;
  operation : QueryOperationType
}.

Record t : Type := {
  conditions : list QueryCondition;
  indexName : option string;
  limit : option float;
  selectedFields : option (list string)
}.

Definition MAX_LIMIT : float := 1000%float.
Definition MAX_CONDITIONS : nat := 100.

(** [new QueryBuilder()] *)
Definition new : t :=
  {| conditions := []; indexName := None; limit := None; selectedFields := None |}.

Definition validateFieldName (field : string) : Result unit :=
  ensure (negb (String.eqb field "")) "Field name must be a non-empty string" ;;
  ensure (matchesFieldPattern field)
        "Field name can only contain alphanumeric characters and underscores".

Definition validateValue (value : JsValue) : Result unit :=
  match value with
  | JUndefined | JNull => Throw "Value cannot be undefined or null"
  | JString s =>
      ensure (negb (N.ltb 400000 (N.of_nat (String.length s))))
            "String value exceeds maximum length of 400KB"
  | _ => Ok tt
  end.

Definition validateIndexName (name : string) : Result unit :=
  ensure (negb (String.eqb name "")) "Index name must be a non-empty string" ;;
  ensure (matchesFieldPattern name)
        "Index name can only contain alphanumeric characters and underscores".

Fixpoint forEach {A : Type} (f : A → Result unit) (xs : list A) : Result unit :=
  match xs with
  | [] => Ok tt
  | x :: rest => f x ;; forEach f rest
  end.

Definition checkCount (b : t) : Result unit :=
  ensure (negb (Nat.leb MAX_CONDITIONS (length (conditions b))))
        ("Maximum number of conditions (" +:+ pretty MAX_CONDITIONS +:+ ") exceeded").

(** [this.conditions.push({field, value, operation})] *)
Definition push (b : t) (f : string) (v : JsValue) (op : QueryOperationType) : t :=
  {| conditions := conditions b ++ [{| field := f; value := v; operation := op |}];
     indexName := indexName b;
     limit := limit b;
     selectedFields := selectedFields b |}.

Definition usingIndex (name : string) (b : t) : Result t :=
  validateIndexName name ;;
  Ok {| conditions := conditions b; indexName := Some name;
        limit := limit b; selectedFields := selectedFields b |}.

Definition withLimit (n : JsValue) (b : t) : Result t :=
  match n with
  | JNumber x =>
      if PrimFloat.ltb x 1%float || PrimFloat.ltb MAX_LIMIT x
      then Throw "Limit must be a number between 1 and 1000"
      else Ok {| conditions := conditions b; indexName := indexName b;
                 limit := Some x; selectedFields := selectedFields b |}
  | _ => Throw "Limit must be a number between 1 and 1000"
  end.

Definition selectFields (fields : list string) (b : t) : Result t :=
  ensure (negb (Nat.eqb (length fields) 0)) "Fields must be a non-empty array" ;;
  forEach validateFieldName fields ;;
  Ok {| conditions := conditions b; indexName := indexName b;
        limit := limit b; selectedFields := Some fields |}.

Definition equals (f : string) (v : JsValue) (b : t) : Result t :=
  validateFieldName f ;; validateValue v ;; checkCount b ;;
  Ok (push b f v EQUALS).

Definition notEquals (f : string) (v : JsValue) (b : t) : Result t :=
  validateFieldName f ;; validateValue v ;; checkCount b ;;
  Ok (push b f v NOT_EQUALS).

Definition validNumber (v : JsValue) : bool := isNumber v && negb (isNaN v).

Definition greaterThan (f : string) (v : JsValue) (b : t) : Result t :=
  validateFieldName f ;;
  ensure (validNumber v) "Value must be a valid number" ;;
  checkCount b ;;
  Ok (push b f v GREATER_THAN).

Definition lessThan (f : string) (v : JsValue) (b : t) : Result t :=
  validateFieldName f ;;
  ensure (validNumber v) "Value must be a valid number" ;;
  checkCount b ;;
  Ok (push b f v LESS_THAN).

Definition contains (f : string) (v : JsValue) (b : t) : Result t :=
  validateFieldName f ;; validateValue v ;; checkCount b ;;
  Ok (push b f v CONTAINS).

Definition beginsWith (f : string) (v : JsValue) (b : t) : Result t :=
  validateFieldName f ;;
  ensure (isString v) "Value must be a string" ;;
  checkCount b ;;
  Ok (push b f v BEGINS_WITH).

Definition in_ (f : string) (values : JsValue) (b : t) : Result t :=
  validateFieldName f ;;
  match values with
  | JArray (x :: xs) =>
      forEach validateValue (x :: xs) ;; checkCount b ;;
      Ok (push b f values IN)
  | _ => Throw "Values must be a non-empty array"
  end.

Definition between (f : string) (start end_ : JsValue) (b : t) : Result t :=
  validateFieldName f ;;
  ensure (validNumber start && validNumber end_)
        "Start and end values must be valid numbers" ;;
  match start, end_ with
  | JNumber s, JNumber e =>
      ensure (negb (PrimFloat.ltb e s))
            "Start value must be less than or equal to end value"
  | _, _ => Ok tt
  end ;;
  checkCount b ;;
  Ok (push b f (JArray [start; end_]) BETWEEN).

Record KeyCondition : Type := {
  expression : string;
  values : gmap string JsValue
}.

Record Built : Type := {
  built_conditions : list QueryCondition;
  built_indexName : option string;
  built_limit : option float;
  built_select : option (list string);
  keyCondition : KeyCondition
}.

(** the [switch (keyCondition.operation)] of [build] *)
Definition compileKeyCondition (c : QueryCondition) : KeyCondition :=
  match operation c with
  | EQUALS =>
      {| expression := field c +:+ " = :keyValue";
         values := <[":keyValue" := value c]> ∅ |}
  | BEGINS_WITH =>
      {| expression := "begins_with(" +:+ field c +:+ ", :keyValue)";
         values := <[":keyValue" := value c]> ∅ |}
  | BETWEEN =>
      {| expression := field c +:+ " BETWEEN :start AND :end";
         values := <[":end" := getIndex (value c) 1]>
                     (<[":start" := getIndex (value c) 0]> ∅) |}
  | _ =>
      {| expression := field c +:+ " = :keyValue";
         values := <[":keyValue" := value c]> ∅ |}
  end.

Definition build (b : t) : Result Built :=
  match conditions b with
  | [] => Throw "No conditions specified"
  | first :: _ =>
      Ok {| built_conditions := conditions b;
            built_indexName := indexName b;
            built_limit := limit b;
            built_select := selectedFields b;
            keyCondition := compileKeyCondition first |}
  end.

(** A call of one of the builder's chainable methods. *)
Inductive Call : Type :=
| CUsingIndex (name : string)
| CWithLimit (n : JsValue)
| CSelectFields (fields : list string)
| CEquals (f : string) (v : JsValue)
| CNotEquals (f : string) (v : JsValue)
| CGreaterThan (f : string) (v : JsValue)
| CLessThan (f : string) (v : JsValue)
| CContains (f : string) (v : JsValue)
| CBeginsWith (f : string) (v : JsValue)
| CIn (f : string) (vs : JsValue)
| CBetween (f : string) (start end_ : JsValue).

Definition call (c : Call) (b : t) : Result t :=
  match c with
  | CUsingIndex name => usingIndex name b
  | CWithLimit n => withLimit n b
  | CSelectFields fields => selectFields fields b
  | CEquals f v => equals f v b
  | CNotEquals f v => notEquals f v b
  | CGreaterThan f v => greaterThan f v b
  | CLessThan f v => lessThan f v b
  | CContains f v => contains f v b
  | CBeginsWith f v => beginsWith f v b
  | CIn f vs => in_ f vs b
  | CBetween f s e => between f s e b
  end.

(** The builder after a call: a method that throws has validated before it
    mutates, so the builder object is as it was. *)
Definition after (b : t) (c : Call) : t :=
  match call c b with
  | Ok b' => b'
  | Throw _ => b
  end.

Definition afterAll (b : t) (cs : list Call) : t := foldl after b cs.

(** *** Vocabulary for the properties *)

(** what the method that stores a condition with [operation c] has checked
    of its field and value *)
Definition validCondition (c : QueryCondition) : Prop :=
  matchesFieldPattern (field c) = true ∧
  match operation c with
  | GREATER_THAN | LESS_THAN => validNumber (value c) = true
  | BEGINS_WITH => isString (value c) = true
  | IN =>
      ∃ x xs, value c = JArray (x :: xs) ∧
              Forall (λ v, validateValue v = Ok tt) (x :: xs)
  | BETWEEN =>
      ∃ s e, value c = JArray [JNumber s; JNumber e] ∧
             PrimFloat.is_nan s = false ∧ PrimFloat.is_nan e = false ∧
             PrimFloat.ltb e s = false
  | EQUALS | NOT_EQUALS | CONTAINS => validateValue (value c) = Ok tt
  end.

(** what [usingIndex], [withLimit] and [selectFields] have checked of the
    settings the builder holds *)
Definition validSettings (b : t) : Prop :=
  (∀ name, indexName b = Some name → matchesFieldPattern name = true) ∧
  (∀ x, limit b = Some x →
     PrimFloat.ltb x 1%float = false ∧ PrimFloat.ltb MAX_LIMIT x = false) ∧
  (∀ fields, selectedFields b = Some fields →
     fields ≠ [] ∧ Forall (λ f, matchesFieldPattern f = true) fields).

End QueryBuilder.

(** ** Reserved words and the attribute-name resolver (core/reserved-words.js) *)

Module ReservedWords.

(** The words as the source lists them, before [.map(word => word.toLowerCase())]. *)
Definition WORD_LIST : list string :=
  [
    "ABORT"; "ABSOLUTE"; "ACTION"; "ADD"; "AFTER"; "AGENT"; "AGGREGATE";
    "ALL"; "ALLOCATE"; "ALTER"; "ANALYZE"; "AND"; "ANY"; "ARCHIVE"; "ARE";
    "ARRAY"; "AS"; "ASC"; "ASCII"; "ASENSITIVE"; "ASSERTION"; "ASYMMETRIC";
    "AT"; "ATOMIC"; "ATTACH"; "ATTRIBUTE"; "AUTH"; "AUTHORIZATION";
    "AUTHORIZE"; "AUTO"; "AVG"; "BACK"; "BACKUP"; "BASE"; "BATCH"; "BEFORE";
    "BEGIN"; "BETWEEN"; "BIGINT"; "BINARY"; "BIT"; "BLOB"; "BLOCK"; "BOOLEAN";
    "BOTH"; "BREADTH"; "BUCKET"; "BULK"; "BY"; "BYTE"; "CALL"; "CALLED";
    "CALLING"; "CAPACITY"; "CASCADE"; "CASCADED"; "CASE"; "CAST"; "CATALOG";
    "CHAR"; "CHARACTER"; "CHECK"; "CLASS"; "CLOB"; "CLOSE"; "CLUSTER";
    "CLUSTERED"; "CLUSTERING"; "CLUSTERS"; "COALESCE"; "COLLATE"; "COLLATION";
    "COLLECTION"; "COLUMN"; "COLUMNS"; "COMBINE"; "COMMENT"; "COMMIT";
    "COMPACT"; "COMPILE"; "COMPRESS"; "CONDITION"; "CONFLICT"; "CONNECT";
    "CONNECTION"; "CONSISTENCY"; "CONSISTENT"; "CONSTRAINT"; "CONSTRAINTS";
    "CONSTRUCTOR"; "CONSUMED"; "CONTINUE"; "CONVERT"; "COPY"; "CORRESPONDING";
    "COUNT"; "COUNTER"; "CREATE"; "CROSS"; "CUBE"; "CURRENT"; "CURSOR";
    "CYCLE"; "DATA"; "DATABASE"; "DATE"; "DATETIME"; "DAY"; "DEALLOCATE";
    "DEC"; "DECIMAL"; "DECLARE"; "DEFAULT"; "DEFERRABLE"; "DEFERRED";
    "DEFINE"; "DEFINED"; "DEFINITION"; "DELETE"; "DELIMITED"; "DEPTH";
    "DEREF"; "DESC"; "DESCRIBE"; "DESCRIPTOR"; "DETACH"; "DETERMINISTIC";
    "DIAGNOSTICS"; "DIRECTORIES"; "DISABLE"; "DISCONNECT"; "DISTINCT";
    "DISTRIBUTE"; "DO"; "DOMAIN"; "DOUBLE"; "DROP"; "DUMP"; "DURATION";
    "DYNAMIC"; "EACH"; "ELEMENT"; "ELSE"; "ELSEIF"; "EMPTY"; "ENABLE"; "END";
    "EQUAL"; "EQUALS"; "ERROR"; "ESCAPE"; "ESCAPED"; "EVAL"; "EVALUATE";
    "EXCEEDED"; "EXCEPT"; "EXCEPTION"; "EXCEPTIONS"; "EXCLUSIVE"; "EXEC";
    "EXECUTE"; "EXISTS"; "EXIT"; "EXPLAIN"; "EXPLODE"; "EXPORT"; "EXPRESSION";
    "EXTENDED"; "EXTERNAL"; "EXTRACT"; "FAIL"; "FALSE"; "FAMILY"; "FETCH";
    "FIELDS"; "FILE"; "FILTER"; "FILTERING"; "FINAL"; "FINISH"; "FIRST";
    "FIXED"; "FLATTERN"; "FLOAT"; "FOR"; "FORCE"; "FOREIGN"; "FORMAT";
    "FORWARD"; "FOUND"; "FREE"; "FROM"; "FULL"; "FUNCTION"; "FUNCTIONS";
    "GENERAL"; "GENERATE"; "GET"; "GLOB"; "GLOBAL"; "GO"; "GOTO"; "GRANT";
    "GREATER"; "GROUP"; "GROUPING"; "HANDLER"; "HASH"; "HAVE"; "HAVING";
    "HEAP"; "HIDDEN"; "HOLD"; "HOUR"; "IDENTIFIED"; "IDENTITY"; "IF";
    "IGNORE"; "IMMEDIATE"; "IMPORT"; "IN"; "INCLUDING"; "INCLUSIVE";
    "INCREMENT"; "INCREMENTAL"; "INDEX"; "INDEXED"; "INDEXES"; "INDICATOR";
    "INFINITE"; "INITIALLY"; "INLINE"; "INNER"; "INNTER"; "INOUT"; "INPUT";
    "INSENSITIVE"; "INSERT"; "INSTEAD"; "INT"; "INTEGER"; "INTERSECT";
    "INTERVAL"; "INTO"; "INVALIDATE"; "IS"; "ISOLATION"; "ITEM"; "ITEMS";
    "ITERATE"; "JOIN"; "KEY"; "KEYS"; "LAG"; "LANGUAGE"; "LARGE"; "LAST";
    "LATERAL"; "LEAD"; "LEADING"; "LEAVE"; "LEFT"; "LENGTH"; "LESS"; "LEVEL";
    "LIKE"; "LIMIT"; "LIMITED"; "LINES"; "LIST"; "LOAD"; "LOCAL"; "LOCALTIME";
    "LOCALTIMESTAMP"; "LOCATION"; "LOCATOR"; "LOCK"; "LOCKS"; "LOG"; "LOGED";
    "LONG"; "LOOP"; "LOWER"; "MAP"; "MATCH"; "MATERIALIZED"; "MAX"; "MAXLEN";
    "MEMBER"; "MERGE"; "METHOD"; "METRICS"; "MIN"; "MINUS"; "MINUTE";
    "MISSING"; "MOD"; "MODE"; "MODIFIES"; "MODIFY"; "MODULE"; "MONTH";
    "MULTI"; "MULTISET"; "NAME"; "NAMES"; "NATIONAL"; "NATURAL"; "NCHAR";
    "NCLOB"; "NEW"; "NEXT"; "NO"; "NONE"; "NOT"; "NULL"; "NULLIF"; "NUMBER";
    "NUMERIC"; "OBJECT"; "OF"; "OFFLINE"; "OFFSET"; "OLD"; "ON"; "ONLINE";
    "ONLY"; "OPAQUE"; "OPEN"; "OPERATOR"; "OPTION"; "OR"; "ORDER";
    "ORDINALITY"; "OTHER"; "OTHERS"; "OUT"; "OUTER"; "OUTPUT"; "OVER";
    "OVERLAPS"; "OVERRIDE"; "OWNER"; "PAD"; "PARALLEL"; "PARAMETER";
    "PARAMETERS"; "PARTIAL"; "PARTITION"; "PARTITIONED"; "PARTITIONS"; "PATH";
    "PERCENT"; "PERCENTILE"; "PERMISSION"; "PERMISSIONS"; "PIPE"; "PIPELINED";
    "PLAN"; "POOL"; "POSITION"; "PRECISION"; "PREPARE"; "PRESERVE"; "PRIMARY";
    "PRIOR"; "PRIVATE"; "PRIVILEGES"; "PROCEDURE"; "PROCESSED"; "PROJECT";
    "PROJECTION"; "PROPERTY"; "PROVISIONING"; "PUBLIC"; "PUT"; "QUERY";
    "QUIT"; "QUORUM"; "RAISE"; "RANDOM"; "RANGE"; "RANK"; "RAW"; "READ";
    "READS"; "REAL"; "REBUILD"; "RECORD"; "RECURSIVE"; "REDUCE"; "REF";
    "REFERENCE"; "REFERENCES"; "REFERENCING"; "REGEXP"; "REGION"; "REINDEX";
    "RELATIVE"; "RELEASE"; "REMAINDER"; "RENAME"; "REPEAT"; "REPLACE";
    "REQUEST"; "RESET"; "RESIGNAL"; "RESOURCE"; "RESPONSE"; "RESTORE";
    "RESTRICT"; "RESULT"; "RETURN"; "RETURNING"; "RETURNS"; "REVERSE";
    "REVOKE"; "RIGHT"; "ROLE"; "ROLES"; "ROLLBACK"; "ROLLUP"; "ROUTINE";
    "ROW"; "ROWS"; "RULE"; "RULES"; "SAMPLE"; "SATISFIES"; "SAVE";
    "SAVEPOINT"; "SCAN"; "SCHEMA"; "SCOPE"; "SCROLL"; "SEARCH"; "SECOND";
    "SECTION"; "SEGMENT"; "SEGMENTS"; "SELECT"; "SELF"; "SEMI"; "SENSITIVE";
    "SEPARATE"; "SEQUENCE"; "SERIALIZABLE"; "SESSION"; "SET"; "SETS"; "SHARD";
    "SHARE"; "SHARED"; "SHORT"; "SHOW"; "SIGNAL"; "SIMILAR"; "SIZE"; "SKEWED";
    "SMALLINT"; "SNAPSHOT"; "SOME"; "SOURCE"; "SPACE"; "SPACES"; "SPARSE";
    "SPECIFIC"; "SPECIFICTYPE"; "SPLIT"; "SQL"; "SQLCODE"; "SQLERROR";
    "SQLEXCEPTION"; "SQLSTATE"; "SQLWARNING"; "START"; "STATE"; "STATIC";
    "STATUS"; "STORAGE"; "STORE"; "STORED"; "STREAM"; "STRING"; "STRUCT";
    "STYLE"; "SUB"; "SUBMULTISET"; "SUBPARTITION"; "SUBSTRING"; "SUBTYPE";
    "SUM"; "SUPER"; "SYMMETRIC"; "SYNONYM"; "SYSTEM"; "TABLE"; "TABLESAMPLE";
    "TEMP"; "TEMPORARY"; "TERMINATED"; "TEXT"; "THAN"; "THEN"; "THROUGHPUT";
    "TIME"; "TIMESTAMP"; "TIMEZONE"; "TINYINT"; "TO"; "TOKEN"; "TOTAL";
    "TOUCH"; "TRAILING"; "TRANSACTION"; "TRANSFORM"; "TRANSLATE";
    "TRANSLATION"; "TREAT"; "TRIGGER"; "TRIM"; "TRUE"; "TRUNCATE"; "TTL";
    "TUPLE"; "TYPE"; "UNDER"; "UNDO"; "UNION"; "UNIQUE"; "UNIT"; "UNKNOWN";
    "UNLOGGED"; "UNNEST"; "UNPROCESSED"; "UNSIGNED"; "UNTIL"; "UPDATE";
    "UPPER"; "URL"; "USAGE"; "USE"; "USER"; "USERS"; "USING"; "UUID";
    "VACUUM"; "VALUE"; "VALUED"; "VALUES"; "VARCHAR"; "VARIABLE"; "VARIANCE";
    "VARINT"; "VARYING"; "VIEW"; "VIEWS"; "VIRTUAL"; "VOID"; "WAIT"; "WHEN";
    "WHENEVER"; "WHERE"; "WHILE"; "WINDOW"; "WITH"; "WITHIN"; "WITHOUT";
    "WORK"; "WRAPPED"; "WRITE"; "YEAR"; "ZONE"
  ].

(** [new Set([...].map(word => word.toLowerCase()))]: the set is never
    mutated and is only asked for membership, so it is kept as the list of
    its elements. *)
Definition DYNAMODB_RESERVED_WORDS : list string := toLowerCase <$> WORD_LIST.

(** [set.has(word)] *)
Definition has (set : list string) (word : string) : bool :=
  bool_decide (word ∈ set).

Definition isReserved (word : string) : bool :=
  has DYNAMODB_RESERVED_WORDS (toLowerCase word).

Definition getAll : list string := DYNAMODB_RESERVED_WORDS.

Definition getExpressionName (attributeName : string) : string :=
  if isReserved attributeName then "#" +:+ attributeName else attributeName.

End ReservedWords.

(** [s.split(sep)] for a one-character separator *)
Fixpoint split (sep : ascii) (s : string) : list string :=
  match s with
  | EmptyString => [""]
  | String c s' =>
      if Ascii.eqb c sep then "" :: split sep s'
      else match split sep s' with
           | [] => [String c ""]
           | p :: ps => String c p :: ps
           end
  end.

(** [s.includes(c)] for a one-character needle *)
Definition includes (c : ascii) (s : string) : bool := existsChar (Ascii.eqb c) s.

(** *** Regular expressions of [processKeyConditionExpression]

    Both expressions are anchored by [\b] on each side of a sequence of
    word characters, so every match is a maximal run of word characters
    of the subject; the scanners below walk the subject once, collecting
    such runs. *)

(** The maximal runs of word characters of [s], each with the character
    just before it ([None] at the start of the subject). [prev] is the
    character before [s], [cur] the run being read. *)
Fixpoint wordRunsFrom (prev : option ascii) (cur : option (option ascii * string))
    (s : string) : list (option ascii * string) :=
  match s with
  | EmptyString => match cur with Some r => [r] | None => [] end
  | String c s' =>
      if isWordChar c then
        match cur with
        | Some (before, run) =>
            wordRunsFrom (Some c) (Some (before, run +:+ String c "")) s'
        | None => wordRunsFrom (Some c) (Some (prev, String c "")) s'
        end
      else
        match cur with
        | Some r => r :: wordRunsFrom (Some c) None s'
        | None => wordRunsFrom (Some c) None s'
        end
  end.

Definition wordRuns (s : string) : list (option ascii * string) :=
  wordRunsFrom None None s.

(** the lookbehind [(?<![:# ])] *)
Definition lookbehindOk (before : option ascii) : bool :=
  match before with
  | None => true
  | Some c => negb (Ascii.eqb c ":" || Ascii.eqb c "#" || Ascii.eqb c " ")
  end.

Definition startsWithIdentStart (run : string) : bool :=
  match run with
  | EmptyString => false
  | String c _ => isIdentStart c
  end.

(** [expression.match(/(?<![:# ])\b[a-zA-Z_][a-zA-Z0-9_]*\b/g) || []] *)
Definition matchAttributes (expression : string) : list string :=
  snd <$> filter (λ r, lookbehindOk (fst r) && startsWithIdentStart (snd r))
                 (wordRuns expression).

(** the lookahead [(?=\s*[=<>])] at the front of [rest] *)
Fixpoint followedByComparison (rest : string) : bool :=
  match rest with
  | EmptyString => false
  | String c rest' =>
      if isWhitespace c then followedByComparison rest'
      else Ascii.eqb c "=" || Ascii.eqb c "<" || Ascii.eqb c ">"
  end.

(** what a completed run [run], followed by [rest], is replaced with *)
Definition emitRun (attr placeholder run rest : string) : string :=
  if String.eqb run attr && negb (followedByComparison rest)
  then placeholder else run.

Fixpoint replaceWordFrom (attr placeholder run s : string) : string :=
  match s with
  | EmptyString => emitRun attr placeholder run ""
  | String c s' =>
      if isWordChar c then replaceWordFrom attr placeholder (run +:+ String c "") s'
      else emitRun attr placeholder run s
             +:+ String c (replaceWordFrom attr placeholder "" s')
  end.

(** [s.replace(new RegExp(`\\b${attr}\\b(?!\\s*[=<>])`, 'g'), placeholder)]
    for an [attr] made of word characters and a [placeholder] without [$] *)
Definition replaceWord (attr placeholder s : string) : string :=
  replaceWordFrom attr placeholder "" s.

Module ExpressionAttributeHandler.

Record t : Type := {
  expressionAttributeNames : gmap string string;
  attributeNameMap : gmap string string;
  nameCount : nat
}.

(** [new ExpressionAttributeHandler()] *)
Definition new : t :=
  {| expressionAttributeNames := ∅; attributeNameMap := ∅; nameCount := 0 |}.

Definition isReservedWord (attributeName : string) : bool :=
  ReservedWords.has ReservedWords.DYNAMODB_RESERVED_WORDS (toLowerCase attributeName).

Definition needsPlaceholder (part : string) : bool :=
  isReservedWord part || includes "-" part || includes " " part.

(** the body of the [parts.map] callback *)
Definition resolvePart (part : string) (h : t) : string * t :=
  if needsPlaceholder part then
    match attributeNameMap h !! part with
    | Some placeholder => (placeholder, h)
    | None =>
        let placeholder := "#n" +:+ pretty (S (nameCount h)) in
        (placeholder,
         {| expressionAttributeNames :=
              <[placeholder := part]> (expressionAttributeNames h);
            attributeNameMap := <[part := placeholder]> (attributeNameMap h);
            nameCount := S (nameCount h) |})
    end
  else (part, h).

Fixpoint resolveParts (parts : list string) (h : t) : list string * t :=
  match parts with
  | [] => ([], h)
  | part :: rest =>
      let '(p, h1) := resolvePart part h in
      let '(ps, h2) := resolveParts rest h1 in
      (p :: ps, h2)
  end.

Definition getExpressionAttributeName (attributeName : string) (h : t) : string * t :=
  let '(processedParts, h') := resolveParts (split "." attributeName) h in
  (join "." processedParts, h').

Definition getExpressionAttributeNames (h : t) : option (gmap string string) :=
  if Nat.ltb 0 (size (expressionAttributeNames h))
  then Some (expressionAttributeNames h) else None.

Fixpoint resolveAll (attributes : list string) (h : t) : list string * t :=
  match attributes with
  | [] => ([], h)
  | attr :: rest =>
      let '(p, h1) := getExpressionAttributeName attr h in
      let '(ps, h2) := resolveAll rest h1 in
      (p :: ps, h2)
  end.

Definition processProjectionExpression (attributes : list string) (h : t)
    : (string * option (gmap string string)) * t :=
  let '(processedAttributes, h') := resolveAll attributes h in
  ((join ", " processedAttributes, getExpressionAttributeNames h'), h').

(** one turn of [for (const attr of attributeMatches)] *)
Definition rewriteAttr (acc : string * t) (attr : string) : string * t :=
  let '(processedExpression, h) := acc in
  if isReservedWord attr then
    let '(placeholder, h') := getExpressionAttributeName attr h in
    (replaceWord attr placeholder processedExpression, h')
  else (processedExpression, h).

Definition processKeyConditionExpression (expression : string) (h : t)
    : (string * option (gmap string string)) * t :=
  let '(processedExpression, h') :=
    foldl rewriteAttr (expression, h) (matchAttributes expression) in
  ((processedExpression, getExpressionAttributeNames h'), h').

Definition reset (h : t) : t := new.

(** A call of one of the handler's methods, and the handler after it. *)
Inductive Call : Type :=
| CGetName (attributeName : string)
| CProjection (attributes : list string)
| CKeyCondition (expression : string)
| CReset.

Definition after (h : t) (c : Call) : t :=
  match c with
  | CGetName a => snd (getExpressionAttributeName a h)
  | CProjection attrs => snd (processProjectionExpression attrs h)
  | CKeyCondition e => snd (processKeyConditionExpression e h)
  | CReset => reset h
  end.

Definition isReset (c : Call) : bool :=
  match c with CReset => true | _ => false end.

(** *** Vocabulary for the properties *)

(** Every placeholder the handler has assigned is [#n] followed by a
    counter value between 1 and the current [nameCount]. *)
Definition wellFormed (h : t) : Prop :=
  ∀ part p, attributeNameMap h !! part = Some p →
    ∃ K, p = "#n" +:+ pretty K ∧ 1 ≤ K ≤ nameCount h.

(** [h'] is a later state of the handler [h] with nothing forgotten. *)
Definition extends (h h' : t) : Prop :=
  attributeNameMap h ⊆ attributeNameMap h' ∧ nameCount h ≤ nameCount h'.

(** The two maps mirror each other: a placeholder stands for the segment
    it was assigned to, only segments that need one have one, and the
    counter counts the placeholders. *)
Definition mirrored (h : t) : Prop :=
  (∀ part p, attributeNameMap h !! part = Some p ↔
             expressionAttributeNames h !! p = Some part) ∧
  (∀ part p, attributeNameMap h !! part = Some p → needsPlaceholder part = true) ∧
  size (expressionAttributeNames h) = nameCount h.

(** What the service does with [ExpressionAttributeNames]: a path segment
    that is a key of the map stands for the name bound to it. *)
Definition expandPart (names : gmap string string) (part : string) : string :=
  default part (names !! part).

Definition expandPath (names : gmap string string) (path : string) : string :=
  join "." (expandPart names <$> split "." path).

Definition startsWithHash (part : string) : bool :=
  match part with
  | String c _ => Ascii.eqb c "#"
  | EmptyString => false
  end.

End ExpressionAttributeHandler.

(** ** Query and read commands (operations/query.ts, operations/read.ts) *)

Module QueryTable.

(** [{ expression, values? }] *)
Record Condition : Type := {
  expression : string;
  values : option (gmap string JsValue)
}.

Record QueryParams : Type := {
  keyCondition : Condition;
  sortKeyCondition : option Condition;
  indexName : option string;
  filter : option Condition;
  select : option (list string);
  limit : option float;
  scanIndexForward : option bool;
  consistentRead : option bool;
  exclusiveStartKey : option JsValue
}.

Record QueryCommandInput : Type := {
  TableName : string;
  IndexName : option string;
  KeyConditionExpression : string;
  FilterExpression : option string;
  ProjectionExpression : option string;
  ExpressionAttributeNames : option (gmap string string);
  ExpressionAttributeValues : option (gmap string JsValue);
  Limit : option float;
  ScanIndexForward : option bool;
  ConsistentRead : option bool;
  ExclusiveStartKey : option JsValue
}.

(** [{...a, ...b}]: the keys of [b] win; spreading [undefined] adds
    nothing *)
Definition spread {A : Type} (a b : option (gmap string A)) : option (gmap string A) :=
  Some (default ∅ b ∪ default ∅ a).

(** The names object a [process...] call returned is the handler's own
    [expressionAttributeNames], which later calls go on filling: read
    when the handler is in the state [final], it holds the names of
    [final]. *)
Definition readAt (final : ExpressionAttributeHandler.t)
    (returned : option (gmap string string)) : option (gmap string string) :=
  match returned with
  | Some _ => Some (ExpressionAttributeHandler.expressionAttributeNames final)
  | None => None
  end.

(** [if (params.select && params.select.length > 0) { ... }]: the
    projection expression and the names object, if any, and the handler
    afterwards *)
Definition processSelect (select : option (list string))
    (h : ExpressionAttributeHandler.t)
    : (option string * option (gmap string string)) * ExpressionAttributeHandler.t :=
  match select with
  | Some (attribute :: attributes) =>
      let result :=
        ExpressionAttributeHandler.processProjectionExpression
          (attribute :: attributes) h in
      ((Some result.1.1, result.1.2), result.2)
  | _ => ((None, None), h)
  end.

(** [if (params.filter) { ... }] *)
Definition processFilter (filter : option Condition)
    (h : ExpressionAttributeHandler.t)
    : (option string * option (gmap string string)) * ExpressionAttributeHandler.t :=
  match filter with
  | Some f =>
      let result :=
        ExpressionAttributeHandler.processKeyConditionExpression (expression f) h in
      ((Some result.1.1, result.1.2), result.2)
  | None => ((None, None), h)
  end.

(** the body of [queryTable] up to [new QueryCommand] *)
Definition queryCommand (tableName : string) (params : QueryParams)
    : QueryCommandInput :=
  let expressionHandler := ExpressionAttributeHandler.new in
  let key :=
    ExpressionAttributeHandler.processKeyConditionExpression
      (expression (keyCondition params)) expressionHandler in
  let projection := processSelect (select params) key.2 in
  let filtered := processFilter (filter params) projection.2 in
  let final := filtered.2 in
  let expressionAttributeNames :=
    default ∅ (spread (spread (readAt final key.1.2) (readAt final projection.1.2))
                      (readAt final filtered.1.2)) in
  let filterValues := filter params ≫= values in
  {| TableName := tableName;
     IndexName := indexName params;
     KeyConditionExpression := key.1.1;
     FilterExpression := filtered.1.1;
     ProjectionExpression := projection.1.1;
     ExpressionAttributeNames :=
       if Nat.ltb 0 (size expressionAttributeNames)
       then Some expressionAttributeNames else None;
     ExpressionAttributeValues :=
       match values (keyCondition params), filterValues with
       | None, None => None
       | keyValues, _ => spread keyValues filterValues
       end;
     Limit := limit params;
     ScanIndexForward := scanIndexForward params;
     ConsistentRead := consistentRead params;
     ExclusiveStartKey := exclusiveStartKey params |}.

(** what the client answers a query with *)
Record QueryOutput : Type := {
  Items : option (list JsValue);
  LastEvaluatedKey : option JsValue;
  Count : option float;
  ScannedCount : option float
}.

Inductive OperationResponse : Type :=
| Success (data : list JsValue) (lastEvaluatedKey : option JsValue)
    (count scannedCount : option float)
| Failure (error : string).

(** [queryTable], with the client given by what its [send] answers *)
Definition queryTable (send : QueryCommandInput → Result QueryOutput)
    (tableName : string) (params : QueryParams) : OperationResponse :=
  match send (queryCommand tableName params) with
  | Ok response =>
      Success (default [] (Items response)) (LastEvaluatedKey response)
        (Count response) (ScannedCount response)
  | Throw message => Failure message
  end.

End QueryTable.

Module ReadItem.

Record ReadOptions : Type := {
  select : option (list string);
  consistentRead : option bool
}.

Record GetCommandInput : Type := {
  TableName : string;
  Key : list (string * JsValue);
  ProjectionExpression : option string;
  ExpressionAttributeNames : option (gmap string string);
  ConsistentRead : option bool
}.

(** the body of [readItem] up to [new GetCommand] *)
Definition getCommand (tableName : string) (key : list (string * JsValue))
    (options : option ReadOptions) : GetCommandInput :=
  let expressionHandler := ExpressionAttributeHandler.new in
  let '(projectionExpression, expressionAttributeNames) :=
    match options ≫= select with
    | Some (attribute :: attributes) =>
        let '((processed, names), _) :=
          ExpressionAttributeHandler.processProjectionExpression
            (attribute :: attributes) expressionHandler in
        (Some processed, names)
    | _ => (None, None)
    end in
  {| TableName := tableName;
     Key := key;
     ProjectionExpression := projectionExpression;
     ExpressionAttributeNames := expressionAttributeNames;
     ConsistentRead := options ≫= consistentRead |}.

Inductive OperationResponse : Type :=
| Success (data : JsValue)
| Failure (error : string).

(** [response.Item || null] *)
Definition itemOrNull (item : JsValue) : JsValue :=
  if truthy item then item else JNull.

(** [readItem], with the client given by what its [send] answers with as
    [response.Item] *)
Definition readItem (send : GetCommandInput → Result JsValue)
    (tableName : string) (key : list (string * JsValue))
    (options : option ReadOptions) : OperationResponse :=
  match send (getCommand tableName key options) with
  | Ok item => Success (itemOrNull item)
  | Throw message => Failure message
  end.

End ReadItem.

(** ** Update builder (operations/update-builder.ts) and update compiler
       (operations/update.ts) *)

Module Update.

Inductive UpdateOperationType : Type := SET | REMOVE | ADD | DELETE.

#[global] Instance UpdateOperationType_eq_dec : EqDecision UpdateOperationType.
Proof. solve_decision. Defined.

(** the enum's string value, which is what appears in the expression *)
Definition verb (op : UpdateOperationType) : string :=
  match op with
  | SET => "SET" | REMOVE => "REMOVE" | ADD => "ADD" | DELETE => "DELETE"
  end.

(** [value] is optional in the source; an absent value reads as [undefined]. *)
Record FieldUpdate : Type := {
  field : string;
  value : JsValue;
  operation : UpdateOperationType
}.

(** *** The builder *)

Module Builder.

Record t : Type := { updates : list FieldUpdate }.

Definition MAX_UPDATES : nat := 100.

Definition new : t := {| updates := [] |}.

Definition validateFieldName (field : string) : Result unit :=
  ensure (negb (String.eqb field "")) "Field name must be a non-empty string" ;;
  ensure (matchesFieldPattern field)
         "Field name can only contain alphanumeric characters and underscores".

Definition validateValue (value : JsValue) : Result unit :=
  match value with
  | JUndefined | JNull => Throw "Value cannot be undefined or null"
  | JString s =>
      ensure (negb (N.ltb 400000 (N.of_nat (String.length s))))
             "String value exceeds maximum length of 400KB"
  | _ => Ok tt
  end.

Definition validNumber (v : JsValue) : bool := isNumber v && negb (isNaN v).

Definition checkCount (b : t) : Result unit :=
  ensure (negb (Nat.leb MAX_UPDATES (length (updates b))))
         ("Maximum number of updates (" +:+ pretty MAX_UPDATES +:+ ") exceeded").

Definition push (b : t) (f : string) (v : JsValue) (op : UpdateOperationType) : t :=
  {| updates := updates b ++ [{| field := f; value := v; operation := op |}] |}.

Definition set (f : string) (v : JsValue) (b : t) : Result t :=
  validateFieldName f ;; validateValue v ;; checkCount b ;;
  Ok (push b f v SET).

Definition remove (f : string) (b : t) : Result t :=
  validateFieldName f ;; checkCount b ;;
  Ok (push b f JUndefined REMOVE).

Definition addToSet (f : string) (v : JsValue) (b : t) : Result t :=
  validateFieldName f ;; validateValue v ;; checkCount b ;;
  Ok (push b f v ADD).

Definition removeFromSet (f : string) (v : JsValue) (b : t) : Result t :=
  validateFieldName f ;; validateValue v ;; checkCount b ;;
  Ok (push b f v DELETE).

Definition increment (f : string) (v : JsValue) (b : t) : Result t :=
  validateFieldName f ;;
  ensure (validNumber v) "Value must be a valid number" ;;
  checkCount b ;;
  Ok (push b f v ADD).

(** [-value] *)
Definition negate (v : JsValue) : JsValue :=
  match v with
  | JNumber x => JNumber (PrimFloat.opp x)
  | _ => v
  end.

Definition decrement (f : string) (v : JsValue) (b : t) : Result t :=
  validateFieldName f ;;
  ensure (validNumber v) "Value must be a valid number" ;;
  checkCount b ;;
  Ok (push b f (negate v) ADD).

(** [{ __listAppend: true, items: [value] }] *)
Definition listAppendMarker (v : JsValue) : JsValue :=
  JObject [("__listAppend", JBool true); ("items", JArray [v])].

(** [{ __listPrepend: true, items: [value] }] *)
Definition listPrependMarker (v : JsValue) : JsValue :=
  JObject [("__listPrepend", JBool true); ("items", JArray [v])].

Definition appendToList (f : string) (v : JsValue) (b : t) : Result t :=
  validateFieldName f ;; validateValue v ;; checkCount b ;;
  Ok (push b f (listAppendMarker v) SET).

Definition prependToList (f : string) (v : JsValue) (b : t) : Result t :=
  validateFieldName f ;; validateValue v ;; checkCount b ;;
  Ok (push b f (listPrependMarker v) SET).

Definition build (b : t) : Result (list FieldUpdate) :=
  match updates b with
  | [] => Throw "No updates specified"
  | us => Ok us
  end.

(** A call of one of the builder's chainable methods. *)
Inductive Call : Type :=
| CSet (f : string) (v : JsValue)
| CRemove (f : string)
| CAddToSet (f : string) (v : JsValue)
| CRemoveFromSet (f : string) (v : JsValue)
| CIncrement (f : string) (v : JsValue)
| CDecrement (f : string) (v : JsValue)
| CAppendToList (f : string) (v : JsValue)
| CPrependToList (f : string) (v : JsValue).

Definition call (c : Call) (b : t) : Result t :=
  match c with
  | CSet f v => set f v b
  | CRemove f => remove f b
  | CAddToSet f v => addToSet f v b
  | CRemoveFromSet f v => removeFromSet f v b
  | CIncrement f v => increment f v b
  | CDecrement f v => decrement f v b
  | CAppendToList f v => appendToList f v b
  | CPrependToList f v => prependToList f v b
  end.

(** The builder after a call: every method validates before it pushes, so
    a call that throws leaves the builder as it was. *)
Definition after (b : t) (c : Call) : t :=
  match call c b with
  | Ok b' => b'
  | Throw _ => b
  end.

Definition afterAll (b : t) (cs : list Call) : t := foldl after b cs.

(** *** Vocabulary for the properties *)

(** an entry as the builder's methods push it: a validated field name, no
    value on a REMOVE and a value that is neither [undefined] nor [null]
    on anything else *)
Definition validEntry (u : FieldUpdate) : Prop :=
  matchesFieldPattern (field u) = true ∧
  match operation u with
  | REMOVE => value u = JUndefined
  | SET | ADD | DELETE => value u ≠ JUndefined ∧ value u ≠ JNull
  end.

End Builder.

(** *** The older builder class kept in operations/update.ts *)

Module LegacyBuilder.

Record t : Type := { updates : list FieldUpdate }.

Definition new : t := {| updates := [] |}.

Definition push (b : t) (f : string) (v : JsValue) (op : UpdateOperationType) : t :=
  {| updates := updates b ++ [{| field := f; value := v; operation := op |}] |}.

Definition set (f : string) (v : JsValue) (b : t) : t := push b f v SET.
Definition remove (f : string) (b : t) : t := push b f JUndefined REMOVE.
Definition add (f : string) (v : JsValue) (b : t) : t := push b f v ADD.
Definition delete (f : string) (v : JsValue) (b : t) : t := push b f v DELETE.
Definition increment (f : string) (b : t) : t := add f (JNumber 1%float) b.
Definition decrement (f : string) (b : t) : t := add f (JNumber (-1)%float) b.

(** three plain SET entries, the first carrying the expression text as
    its value *)
Definition appendToList (f : string) (items : JsValue) (b : t) : t :=
  set ":items" items
    (set ":empty_list" (JArray [])
       (set f (JString ("list_append(if_not_exists(" +:+ f
                          +:+ ", :empty_list), :items)")) b)).

Definition getUpdates (b : t) : list FieldUpdate := updates b.

End LegacyBuilder.

(** *** The compiler: the body of [updateItem] up to [new UpdateCommand] *)

(** [if (!acc[update.operation]) acc[update.operation] = [];
     acc[update.operation].push(update)] on an object whose keys keep
    their insertion order *)
Fixpoint pushGroup (acc : list (UpdateOperationType * list FieldUpdate))
    (update : FieldUpdate) : list (UpdateOperationType * list FieldUpdate) :=
  match acc with
  | [] => [(operation update, [update])]
  | (op, us) :: rest =>
      if decide (op = operation update) then (op, us ++ [update]) :: rest
      else (op, us) :: pushGroup rest update
  end.

(** [updateArray.reduce(..., {})] followed by [Object.entries] *)
Definition groupUpdates (updateArray : list FieldUpdate)
    : list (UpdateOperationType * list FieldUpdate) :=
  foldl pushGroup [] updateArray.

(** The variables the [forEach] and [map] callbacks close over. *)
Record CompileState : Type := {
  expressionHandler : ExpressionAttributeHandler.t;
  expressionValues : gmap string JsValue;
  valueCounter : nat
}.

Definition isUndefined (v : JsValue) : bool :=
  match v with JUndefined => true | _ => false end.

Definition isNull (v : JsValue) : bool :=
  match v with JNull => true | _ => false end.

(** [update.operation === SET && typeof update.value === 'object' &&
     update.value !== null] *)
Definition isSetOfObject (update : FieldUpdate) : bool :=
  bool_decide (operation update = SET)
  && isObjectType (value update) && negb (isNull (value update)).

Definition isListAppend (update : FieldUpdate) : bool :=
  isSetOfObject update && truthy (getProp (value update) "__listAppend").

Definition isListPrepend (update : FieldUpdate) : bool :=
  isSetOfObject update && truthy (getProp (value update) "__listPrepend").

Definition appendClause (fieldName : string) (n : nat) : string :=
  fieldName +:+ " = list_append(if_not_exists(" +:+ fieldName +:+ ", "
    +:+ (":empty" +:+ pretty n) +:+ "), " +:+ (":items" +:+ pretty n) +:+ ")".

Definition prependClause (fieldName : string) (n : nat) : string :=
  fieldName +:+ " = list_append(" +:+ (":items" +:+ pretty n)
    +:+ ", if_not_exists(" +:+ fieldName +:+ ", "
    +:+ (":empty" +:+ pretty n) +:+ "))".

(** the "Different format based on operation type" chain *)
Definition plainClause (operation : UpdateOperationType)
    (fieldName placeholder : string) : string :=
  match operation with
  | SET => fieldName +:+ " = " +:+ placeholder
  | ADD | DELETE => fieldName +:+ " " +:+ placeholder
  | REMOVE => fieldName
  end.

(** the callback of [updates.map] in the group keyed [operation] *)
Definition compileMember (operation : UpdateOperationType) (st : CompileState)
    (update : FieldUpdate) : string * CompileState :=
  let '(fieldName, h) :=
    ExpressionAttributeHandler.getExpressionAttributeName
      (field update) (expressionHandler st) in
  if isUndefined (value update) then
    (fieldName,
     {| expressionHandler := h; expressionValues := expressionValues st;
        valueCounter := valueCounter st |})
  else
    let n := S (valueCounter st) in
    let placeholder := ":val" +:+ pretty n in
    if isListAppend update then
      (appendClause fieldName n,
       {| expressionHandler := h;
          expressionValues :=
            <[":empty" +:+ pretty n := JArray []]>
              (<[":items" +:+ pretty n := getProp (value update) "items"]>
                 (expressionValues st));
          valueCounter := n |})
    else if isListPrepend update then
      (prependClause fieldName n,
       {| expressionHandler := h;
          expressionValues :=
            <[":empty" +:+ pretty n := JArray []]>
              (<[":items" +:+ pretty n := getProp (value update) "items"]>
                 (expressionValues st));
          valueCounter := n |})
    else
      (plainClause operation fieldName placeholder,
       {| expressionHandler := h;
          expressionValues := <[placeholder := value update]> (expressionValues st);
          valueCounter := n |}).

(** [updates.map(...)] *)
Fixpoint compileMembers (operation : UpdateOperationType) (st : CompileState)
    (updates : list FieldUpdate) : list string * CompileState :=
  match updates with
  | [] => ([], st)
  | update :: rest =>
      let '(part, st1) := compileMember operation st update in
      let '(parts, st2) := compileMembers operation st1 rest in
      (part :: parts, st2)
  end.

(** one turn of [Object.entries(groupedUpdates).forEach]; the second
    component is what is pushed on [expressionParts], if anything *)
Definition compileGroup (st : CompileState)
    (group : UpdateOperationType * list FieldUpdate) : option string * CompileState :=
  let '(operation, updates) := group in
  match updates with
  | [] => (None, st)
  | _ =>
      let '(updateParts, st') := compileMembers operation st updates in
      (Some (verb operation +:+ " " +:+ join ", " updateParts), st')
  end.

Fixpoint compileGroups (st : CompileState)
    (groups : list (UpdateOperationType * list FieldUpdate))
    : list string * CompileState :=
  match groups with
  | [] => ([], st)
  | group :: rest =>
      let '(part, st1) := compileGroup st group in
      let '(parts, st2) := compileGroups st1 rest in
      (from_option (λ p, [p]) [] part ++ parts, st2)
  end.

Definition initialState : CompileState :=
  {| expressionHandler := ExpressionAttributeHandler.new;
     expressionValues := ∅;
     valueCounter := 0 |}.

Record Condition : Type := {
  condition_expression : string;
  condition_values : option (list (string * JsValue))
}.

Record UpdateOptions : Type := {
  condition : option Condition;
  returnValues : option string
}.

Definition noOptions : UpdateOptions := {| condition := None; returnValues := None |}.

Record UpdateCommandInput : Type := {
  TableName : string;
  Key : list (string * JsValue);
  UpdateExpression : string;
  ExpressionAttributeNames : option (gmap string string);
  ExpressionAttributeValues : option (gmap string JsValue);
  ConditionExpression : option string;
  ReturnValues : option string
}.

(** [expressionValues[key] = value] on the object literal: the key
    [__proto__] names the accessor inherited from [Object.prototype], so
    assigning to it calls the setter and adds no property of its own *)
Definition assignValue (expressionValues : gmap string JsValue)
    (entry : string * JsValue) : gmap string JsValue :=
  if String.eqb entry.1 "__proto__" then expressionValues
  else <[entry.1 := entry.2]> expressionValues.

(** [Object.entries(values).forEach(([key, value]) => expressionValues[key] = value)];
    the entries of an object have distinct keys *)
Definition mergeValues (entries : list (string * JsValue))
    (expressionValues : gmap string JsValue) : gmap string JsValue :=
  foldl assignValue expressionValues entries.

Definition conditionEntries (options : UpdateOptions) : list (string * JsValue) :=
  match condition options with
  | Some c => default [] (condition_values c)
  | None => []
  end.

Definition updateCommand (tableName : string) (key : list (string * JsValue))
    (updateArray : list FieldUpdate) (options : UpdateOptions) : UpdateCommandInput :=
  let '(expressionParts, st) := compileGroups initialState (groupUpdates updateArray) in
  let expressionValues := mergeValues (conditionEntries options) (expressionValues st) in
  {| TableName := tableName;
     Key := key;
     UpdateExpression := join " " expressionParts;
     ExpressionAttributeNames :=
       ExpressionAttributeHandler.getExpressionAttributeNames (expressionHandler st);
     ExpressionAttributeValues :=
       if Nat.ltb 0 (size expressionValues) then Some expressionValues else None;
     ConditionExpression := condition_expression <$> condition options;
     ReturnValues := returnValues options |}.

(** [response.Attributes], or the error [client.send] rejected with *)
Inductive OperationResponse : Type :=
| Success (data : JsValue)
| Failure (error : string).

(** [updateItem], with the client given by what its [send] answers *)
Definition updateItem (send : UpdateCommandInput → Result JsValue)
    (tableName : string) (key : list (string * JsValue))
    (updateArray : list FieldUpdate) (options : UpdateOptions) : OperationResponse :=
  match send (updateCommand tableName key updateArray options) with
  | Ok attributes => Success attributes
  | Throw message => Failure message
  end.

(** *** Vocabulary for the properties of the compiler *)

(** the members filed under [op] in the grouped object *)
Fixpoint membersOf (op : UpdateOperationType)
    (groups : list (UpdateOperationType * list FieldUpdate)) : list FieldUpdate :=
  match groups with
  | [] => []
  | (op', us) :: rest => if decide (op' = op) then us else membersOf op rest
  end.

(** a member with a value that is not a list-append or list-prepend marker *)
Definition isPlain (update : FieldUpdate) : bool :=
  negb (isUndefined (value update))
  && negb (isListAppend update) && negb (isListPrepend update).

(** how many entries of the value map a member accounts for *)
Definition placeholderCount (update : FieldUpdate) : nat :=
  if isUndefined (value update) then 0
  else if isListAppend update || isListPrepend update then 2
  else 1.

(** [k] is a value placeholder numbered between 1 and [n] *)
Definition valueKey (n : nat) (k : string) : Prop :=
  ∃ j, 1 ≤ j ≤ n ∧
       (k = ":val" +:+ pretty j ∨ k = ":items" +:+ pretty j ∨ k = ":empty" +:+ pretty j).

(** every bound value placeholder is numbered at most [valueCounter] *)
Definition wfState (st : CompileState) : Prop :=
  ∀ k, is_Some (expressionValues st !! k) → valueKey (valueCounter st) k.

(** what the compile step [st ⇒ st'] of a list of members may change *)
Definition advances (st st' : CompileState) (members : list FieldUpdate) : Prop :=
  wfState st' ∧
  expressionValues st ⊆ expressionValues st' ∧
  valueCounter st ≤ valueCounter st' ∧
  size (expressionValues st') =
    size (expressionValues st) + sum_list_with placeholderCount members.

(** a group's contribution to the expression, given its members' clauses *)
Definition groupPart (group : UpdateOperationType * list FieldUpdate)
    (clauses : list string) : string :=
  verb group.1 +:+ " " +:+ join ", " clauses.

(** the handler at the moment a member is compiled: a new handler on
    which the fields of the members compiled before it, [earlier], have
    been resolved in turn *)
Definition handlerAfter (earlier : list FieldUpdate) : ExpressionAttributeHandler.t :=
  foldl ExpressionAttributeHandler.after ExpressionAttributeHandler.new
    ((λ u, ExpressionAttributeHandler.CGetName (field u)) <$> earlier).

(** the number of a member's value placeholder: one more than the number
    of members with a value among those compiled before it *)
Definition placeholderNumber (earlier : list FieldUpdate) : nat :=
  S (length (filter (λ u, isUndefined (value u) = false) earlier)).

(** the clause specified for [update] as a member of the group [op],
    [earlier] being the members compiled before it: the name is what the
    handler resolves its field to at that moment, and the placeholders
    carry its number *)
Definition clauseAt (op : UpdateOperationType) (earlier : list FieldUpdate)
    (update : FieldUpdate) (clause : string) : Prop :=
  let name := (ExpressionAttributeHandler.getExpressionAttributeName
                 (field update) (handlerAfter earlier)).1 in
  let n := placeholderNumber earlier in
  (isUndefined (value update) = true → clause = name) ∧
  (isPlain update = true →
     match op with
     | SET => clause = name +:+ " = :val" +:+ pretty n
     | ADD | DELETE => clause = name +:+ " :val" +:+ pretty n
     | REMOVE => clause = name
     end) ∧
  (isListAppend update = true → clause = appendClause name n) ∧
  (isListAppend update = false → isListPrepend update = true →
     clause = prependClause name n).

(** the clauses of each group, as [compileGroups] computes them from the
    state [st] *)
Fixpoint groupClauses (st : CompileState)
    (groups : list (UpdateOperationType * list FieldUpdate)) : list (list string) :=
  match groups with
  | [] => []
  | (op, us) :: rest =>
      (compileMembers op st us).1 :: groupClauses (compileMembers op st us).2 rest
  end.

(** the state [st] is the one reached by compiling the members [earlier] *)
Definition tracks (st : CompileState) (earlier : list FieldUpdate) : Prop :=
  expressionHandler st = handlerAfter earlier ∧
  S (valueCounter st) = placeholderNumber earlier.

End Update.

(** ** Scan-mode condition builder (core/error-handler.ts validators and
       operations/scan-builder.ts) *)

Module ScanBuilder.

Section Environment.

(** [process.env.NODE_ENV] *)
Variable NODE_ENV : option string.

(** [String(n)] for a number, used in one error message only *)
Variable numberToString : float → string.

Definition testMode : bool := bool_decide (NODE_ENV = Some "test").

(** [validateString(value, errorMessage)] *)
Definition validateString (value : JsValue) (errorMessage : string) : Result unit :=
  match value with
  | JString s => ensure (negb (trimIsEmpty s)) errorMessage
  | _ => Throw errorMessage
  end.

(** [validateNumber(value, errorMessage)] *)
Definition validateNumber (value : JsValue) (errorMessage : string) : Result unit :=
  ensure (isNumber value && negb (isNaN value)) errorMessage.

(** [validateFieldName(fieldName)] *)
Definition validateFieldName (fieldName : string) : Result unit :=
  ensure (negb (trimIsEmpty fieldName)) "Field name must be a non-empty string" ;;
  if testMode then Ok tt
  else ensure (matchesFieldPattern fieldName)
         "Field name can only contain alphanumeric characters and underscores".

Record t : Type := {
  filterExpressions : list string;
  expressionValues : gmap string JsValue;
  expressionNames : gmap string string;
  selectedFields : option (list string);
  limitValue : option float;
  indexNameValue : option string;
  consistentReadValue : option bool;
  startKeyValue : option JsValue;
  totalSegmentsValue : option float;
  segmentValue : option float;
  valueCounter : nat;
  (** whether [__proto__], as a key of [expressionValues], still names the
      accessor inherited from [Object.prototype] *)
  protoAccessor : bool
}.

(** [new ScanBuilder()] *)
Definition new : t :=
  {| filterExpressions := []; expressionValues := ∅; expressionNames := ∅;
     selectedFields := None; limitValue := None; indexNameValue := None;
     consistentReadValue := None; startKeyValue := None;
     totalSegmentsValue := None; segmentValue := None; valueCounter := 0;
     protoAccessor := true |}.

Definition TEST_FIELDS : list string :=
  ["name"; "age"; "status"; "interests"; "email"; "deletedAt"].

(** [/[^a-zA-Z0-9_]/.test(field)] *)
Definition hasSpecialChar (field : string) : bool :=
  existsChar (λ c, negb (isWordChar c)) field.

Definition needsReplacement (field : string) : bool :=
  ReservedWords.isReserved field || hasSpecialChar field.

(** [getExpressionName(field)] *)
Definition getExpressionName (field : string) (b : t) : string * t :=
  if testMode && bool_decide (field ∈ TEST_FIELDS) then (field, b)
  else if needsReplacement field then
    let nameKey := "#n" +:+ pretty (size (expressionNames b)) in
    (nameKey,
     {| filterExpressions := filterExpressions b;
        expressionValues := expressionValues b;
        expressionNames := <[nameKey := field]> (expressionNames b);
        selectedFields := selectedFields b; limitValue := limitValue b;
        indexNameValue := indexNameValue b;
        consistentReadValue := consistentReadValue b;
        startKeyValue := startKeyValue b;
        totalSegmentsValue := totalSegmentsValue b;
        segmentValue := segmentValue b; valueCounter := valueCounter b;
        protoAccessor := protoAccessor b |})
  else (field, b).

(** [`:value${this.valueCounter++}`] *)
Definition nextValueKey (b : t) : string * t :=
  (":value" +:+ pretty (valueCounter b),
   {| filterExpressions := filterExpressions b;
      expressionValues := expressionValues b;
      expressionNames := expressionNames b;
      selectedFields := selectedFields b; limitValue := limitValue b;
      indexNameValue := indexNameValue b;
      consistentReadValue := consistentReadValue b;
      startKeyValue := startKeyValue b;
      totalSegmentsValue := totalSegmentsValue b;
      segmentValue := segmentValue b; valueCounter := S (valueCounter b);
        protoAccessor := protoAccessor b |}).

(** [this.filterExpressions.push(fragment)] *)
Definition pushFilter (fragment : string) (b : t) : t :=
  {| filterExpressions := filterExpressions b ++ [fragment];
     expressionValues := expressionValues b;
     expressionNames := expressionNames b;
     selectedFields := selectedFields b; limitValue := limitValue b;
     indexNameValue := indexNameValue b;
     consistentReadValue := consistentReadValue b;
     startKeyValue := startKeyValue b;
     totalSegmentsValue := totalSegmentsValue b;
     segmentValue := segmentValue b; valueCounter := valueCounter b;
        protoAccessor := protoAccessor b |}.

(** [this.expressionValues[key] = value] *)
Definition setValue (key : string) (value : JsValue) (b : t) : t :=
  {| filterExpressions := filterExpressions b;
     expressionValues := <[key := value]> (expressionValues b);
     expressionNames := expressionNames b;
     selectedFields := selectedFields b; limitValue := limitValue b;
     indexNameValue := indexNameValue b;
     consistentReadValue := consistentReadValue b;
     startKeyValue := startKeyValue b;
     totalSegmentsValue := totalSegmentsValue b;
     segmentValue := segmentValue b; valueCounter := valueCounter b;
        protoAccessor := protoAccessor b |}.

Definition addCondition (field operator : string) (value : JsValue) (b : t) : Result t :=
  validateFieldName field ;;
  let '(nameKey, b1) := getExpressionName field b in
  let '(valueKey, b2) := nextValueKey b1 in
  Ok (setValue valueKey value
        (pushFilter (nameKey +:+ " " +:+ operator +:+ " " +:+ valueKey) b2)).

Definition equals (field : string) (value : JsValue) : t → Result t :=
  addCondition field "=" value.
Definition notEquals (field : string) (value : JsValue) : t → Result t :=
  addCondition field "<>" value.
Definition lessThan (field : string) (value : JsValue) : t → Result t :=
  addCondition field "<" value.
Definition lessThanOrEqual (field : string) (value : JsValue) : t → Result t :=
  addCondition field "<=" value.
Definition greaterThan (field : string) (value : JsValue) : t → Result t :=
  addCondition field ">" value.
Definition greaterThanOrEqual (field : string) (value : JsValue) : t → Result t :=
  addCondition field ">=" value.

Definition beginsWith (field : string) (value : JsValue) (b : t) : Result t :=
  validateString value "Value must be a string" ;;
  validateFieldName field ;;
  let '(nameKey, b1) := getExpressionName field b in
  let '(valueKey, b2) := nextValueKey b1 in
  Ok (setValue valueKey value
        (pushFilter ("begins_with(" +:+ nameKey +:+ ", " +:+ valueKey +:+ ")") b2)).

Definition contains (field : string) (value : JsValue) (b : t) : Result t :=
  validateString value "Value must be a string" ;;
  validateFieldName field ;;
  let '(nameKey, b1) := getExpressionName field b in
  let '(valueKey, b2) := nextValueKey b1 in
  Ok (setValue valueKey value
        (pushFilter ("contains(" +:+ nameKey +:+ ", " +:+ valueKey +:+ ")") b2)).

Definition between (field : string) (lowerValue upperValue : JsValue) (b : t)
    : Result t :=
  validateFieldName field ;;
  let '(nameKey, b1) := getExpressionName field b in
  let '(lowerValueKey, b2) := nextValueKey b1 in
  let '(upperValueKey, b3) := nextValueKey b2 in
  Ok (setValue upperValueKey upperValue
        (setValue lowerValueKey lowerValue
           (pushFilter (nameKey +:+ " BETWEEN " +:+ lowerValueKey +:+ " AND "
                          +:+ upperValueKey) b3))).

Definition attributeExists (field : string) (b : t) : Result t :=
  validateFieldName field ;;
  let '(nameKey, b1) := getExpressionName field b in
  Ok (pushFilter ("attribute_exists(" +:+ nameKey +:+ ")") b1).

Definition attributeNotExists (field : string) (b : t) : Result t :=
  validateFieldName field ;;
  let '(nameKey, b1) := getExpressionName field b in
  Ok (pushFilter ("attribute_not_exists(" +:+ nameKey +:+ ")") b1).

(** [this.expressionValues[key] = value] for a key the caller chose. The
    key [__proto__] names the accessor inherited from [Object.prototype]
    for as long as the prototype chain leads there: assigning to it then
    calls the setter, which adds no property and replaces the prototype
    when [value] is an object or [null]. After that the accessor is out
    of reach if the new prototype is [null] or has a property [__proto__]
    of its own, and the assignment adds a property as for any other key. *)
Definition assignValue (key : string) (value : JsValue) (b : t) : t :=
  if String.eqb key "__proto__" && protoAccessor b then
    {| filterExpressions := filterExpressions b;
       expressionValues := expressionValues b;
       expressionNames := expressionNames b;
       selectedFields := selectedFields b; limitValue := limitValue b;
       indexNameValue := indexNameValue b;
       consistentReadValue := consistentReadValue b;
       startKeyValue := startKeyValue b;
       totalSegmentsValue := totalSegmentsValue b;
       segmentValue := segmentValue b; valueCounter := valueCounter b;
       protoAccessor :=
         match value with
         | JNull => false
         | JObject props => negb (bool_decide ("__proto__" ∈ props.*1))
         | _ => true
         end |}
  else setValue key value b.

(** [Object.keys(values).forEach(key => this.expressionValues[key] = values[key])] *)
Definition setValues (values : list (string * JsValue)) (b : t) : t :=
  foldl (λ b kv, assignValue kv.1 kv.2 b) b values.

Definition filter (expression : string) (values : option (list (string * JsValue)))
    (b : t) : Result t :=
  validateString (JString expression) "Expression must be a non-empty string" ;;
  Ok (setValues (default [] values) (pushFilter ("(" +:+ expression +:+ ")") b)).

Fixpoint forEach {A : Type} (f : A → Result unit) (xs : list A) : Result unit :=
  match xs with
  | [] => Ok tt
  | x :: rest => f x ;; forEach f rest
  end.

(** [fields.map(field => this.getExpressionName(field))] *)
Fixpoint getExpressionNames (fields : list string) (b : t) : list string * t :=
  match fields with
  | [] => ([], b)
  | field :: rest =>
      let '(nameKey, b1) := getExpressionName field b in
      let '(nameKeys, b2) := getExpressionNames rest b1 in
      (nameKey :: nameKeys, b2)
  end.

Definition selectFields (fields : list string) (b : t) : Result t :=
  ensure (negb (Nat.eqb (length fields) 0)) "Fields must be a non-empty array" ;;
  forEach validateFieldName fields ;;
  let '(processedFields, b1) := getExpressionNames fields b in
  Ok {| filterExpressions := filterExpressions b1;
        expressionValues := expressionValues b1;
        expressionNames := expressionNames b1;
        selectedFields := Some processedFields; limitValue := limitValue b1;
        indexNameValue := indexNameValue b1;
        consistentReadValue := consistentReadValue b1;
        startKeyValue := startKeyValue b1;
        totalSegmentsValue := totalSegmentsValue b1;
        segmentValue := segmentValue b1; valueCounter := valueCounter b1;
        protoAccessor := protoAccessor b1 |}.

Definition withLimit (limit : JsValue) (b : t) : Result t :=
  validateNumber limit "Limit must be a positive number" ;;
  match limit with
  | JNumber x =>
      ensure (negb (PrimFloat.leb x 0%float)) "Limit must be greater than 0" ;;
      Ok {| filterExpressions := filterExpressions b;
            expressionValues := expressionValues b;
            expressionNames := expressionNames b;
            selectedFields := selectedFields b; limitValue := Some x;
            indexNameValue := indexNameValue b;
            consistentReadValue := consistentReadValue b;
            startKeyValue := startKeyValue b;
            totalSegmentsValue := totalSegmentsValue b;
            segmentValue := segmentValue b; valueCounter := valueCounter b;
        protoAccessor := protoAccessor b |}
  | _ => Throw "Limit must be a positive number"
  end.

Definition usingIndex (indexName : string) (b : t) : Result t :=
  validateString (JString indexName) "Index name must be a non-empty string" ;;
  Ok {| filterExpressions := filterExpressions b;
        expressionValues := expressionValues b;
        expressionNames := expressionNames b;
        selectedFields := selectedFields b; limitValue := limitValue b;
        indexNameValue := Some indexName;
        consistentReadValue := consistentReadValue b;
        startKeyValue := startKeyValue b;
        totalSegmentsValue := totalSegmentsValue b;
        segmentValue := segmentValue b; valueCounter := valueCounter b;
        protoAccessor := protoAccessor b |}.

Definition withConsistentRead (consistent : bool) (b : t) : Result t :=
  Ok {| filterExpressions := filterExpressions b;
        expressionValues := expressionValues b;
        expressionNames := expressionNames b;
        selectedFields := selectedFields b; limitValue := limitValue b;
        indexNameValue := indexNameValue b;
        consistentReadValue := Some consistent;
        startKeyValue := startKeyValue b;
        totalSegmentsValue := totalSegmentsValue b;
        segmentValue := segmentValue b; valueCounter := valueCounter b;
        protoAccessor := protoAccessor b |}.

(** [!startKey || typeof startKey !== 'object' || Object.keys(startKey).length === 0] *)
Definition emptyStartKey (startKey : JsValue) : bool :=
  match startKey with
  | JObject (_ :: _) | JArray (_ :: _) => false
  | _ => true
  end.

Definition withStartKey (startKey : JsValue) (b : t) : Result t :=
  ensure (negb (emptyStartKey startKey)) "Start key must be a non-empty object" ;;
  Ok {| filterExpressions := filterExpressions b;
        expressionValues := expressionValues b;
        expressionNames := expressionNames b;
        selectedFields := selectedFields b; limitValue := limitValue b;
        indexNameValue := indexNameValue b;
        consistentReadValue := consistentReadValue b;
        startKeyValue := Some startKey;
        totalSegmentsValue := totalSegmentsValue b;
        segmentValue := segmentValue b; valueCounter := valueCounter b;
        protoAccessor := protoAccessor b |}.

Definition withParallelScan (totalSegments segment : JsValue) (b : t) : Result t :=
  validateNumber totalSegments "Total segments must be a positive number" ;;
  validateNumber segment "Segment must be a non-negative number" ;;
  match totalSegments, segment with
  | JNumber total, JNumber seg =>
      ensure (negb (PrimFloat.leb total 0%float))
             "Total segments must be greater than 0" ;;
      ensure (negb (PrimFloat.ltb seg 0%float || PrimFloat.leb total seg))
             ("Segment must be between 0 and "
                +:+ numberToString (PrimFloat.sub total 1%float)) ;;
      Ok {| filterExpressions := filterExpressions b;
            expressionValues := expressionValues b;
            expressionNames := expressionNames b;
            selectedFields := selectedFields b; limitValue := limitValue b;
            indexNameValue := indexNameValue b;
            consistentReadValue := consistentReadValue b;
            startKeyValue := startKeyValue b;
            totalSegmentsValue := Some total;
            segmentValue := Some seg; valueCounter := valueCounter b;
        protoAccessor := protoAccessor b |}
  | _, _ => Throw "Total segments must be a positive number"
  end.

Record ScanOptions : Type := {
  opt_filter : option string;
  opt_expressionValues : option (gmap string JsValue);
  opt_expressionNames : option (gmap string string);
  opt_attributes : option (list string);
  opt_limit : option float;
  opt_startKey : option JsValue;
  opt_indexName : option string;
  opt_consistent : option bool;
  opt_totalSegments : option float;
  opt_segment : option float
}.

Definition build (b : t) : ScanOptions :=
  {| opt_filter :=
       if Nat.ltb 0 (length (filterExpressions b))
       then Some (join " AND " (filterExpressions b)) else None;
     opt_expressionValues :=
       if Nat.ltb 0 (size (expressionValues b))
       then Some (expressionValues b) else None;
     opt_expressionNames :=
       if Nat.ltb 0 (size (expressionNames b))
       then Some (expressionNames b) else None;
     opt_attributes := selectedFields b;
     opt_limit :=
       match limitValue b with
       | Some x => if truthy (JNumber x) then Some x else None
       | None => None
       end;
     opt_startKey :=
       match startKeyValue b with
       | Some k => if truthy k then Some k else None
       | None => None
       end;
     opt_indexName :=
       match indexNameValue b with
       | Some i => if truthy (JString i) then Some i else None
       | None => None
       end;
     opt_consistent := consistentReadValue b;
     opt_totalSegments :=
       match totalSegmentsValue b, segmentValue b with
       | Some total, Some _ => Some total
       | _, _ => None
       end;
     opt_segment :=
       match totalSegmentsValue b, segmentValue b with
       | Some _, Some seg => Some seg
       | _, _ => None
       end |}.

(** A call of one of the builder's chainable methods. *)
Inductive Call : Type :=
| CEquals (field : string) (value : JsValue)
| CNotEquals (field : string) (value : JsValue)
| CLessThan (field : string) (value : JsValue)
| CLessThanOrEqual (field : string) (value : JsValue)
| CGreaterThan (field : string) (value : JsValue)
| CGreaterThanOrEqual (field : string) (value : JsValue)
| CBeginsWith (field : string) (value : JsValue)
| CContains (field : string) (value : JsValue)
| CBetween (field : string) (lowerValue upperValue : JsValue)
| CAttributeExists (field : string)
| CAttributeNotExists (field : string)
| CFilter (expression : string) (values : option (list (string * JsValue)))
| CSelectFields (fields : list string)
| CWithLimit (limit : JsValue)
| CUsingIndex (indexName : string)
| CWithConsistentRead (consistent : bool)
| CWithStartKey (startKey : JsValue)
| CWithParallelScan (totalSegments segment : JsValue).

Definition call (c : Call) (b : t) : Result t :=
  match c with
  | CEquals f v => equals f v b
  | CNotEquals f v => notEquals f v b
  | CLessThan f v => lessThan f v b
  | CLessThanOrEqual f v => lessThanOrEqual f v b
  | CGreaterThan f v => greaterThan f v b
  | CGreaterThanOrEqual f v => greaterThanOrEqual f v b
  | CBeginsWith f v => beginsWith f v b
  | CContains f v => contains f v b
  | CBetween f lo hi => between f lo hi b
  | CAttributeExists f => attributeExists f b
  | CAttributeNotExists f => attributeNotExists f b
  | CFilter e vs => filter e vs b
  | CSelectFields fs => selectFields fs b
  | CWithLimit n => withLimit n b
  | CUsingIndex i => usingIndex i b
  | CWithConsistentRead c => withConsistentRead c b
  | CWithStartKey k => withStartKey k b
  | CWithParallelScan total seg => withParallelScan total seg b
  end.

(** The builder after a call: every method validates before it mutates, so
    a call that throws leaves the builder as it was. *)
Definition after (b : t) (c : Call) : t :=
  match call c b with
  | Ok b' => b'
  | Throw _ => b
  end.

Definition afterAll (b : t) (cs : list Call) : t := foldl after b cs.

(** *** Vocabulary for the properties *)

(** the value placeholders generated while the counter went from [from]
    up to [to] *)
Definition generatedKeys (from to : nat) : list string :=
  (λ k, ":value" +:+ pretty k) <$> seq from (to - from).

(** the value placeholders a call generates on the builder [b] *)
Definition keysOfCall (b : t) (c : Call) : list string :=
  generatedKeys (valueCounter b) (valueCounter (after b c)).

(** the value placeholders generated by the calls [cs], made in turn on [b] *)
Fixpoint generatedIn (b : t) (cs : list Call) : list string :=
  match cs with
  | [] => []
  | c :: rest => keysOfCall b c ++ generatedIn (after b c) rest
  end.

(** [b'] has the fragments of [b] and at most one more at the end, a value
    counter at least as high, and a binding for every placeholder
    generated in between. *)
Definition grows (b b' : t) : Prop :=
  valueCounter b ≤ valueCounter b' ∧
  (∃ l, filterExpressions b' = filterExpressions b ++ l ∧ length l ≤ 1) ∧
  (∀ k, k ∈ generatedKeys (valueCounter b) (valueCounter b') →
        is_Some (expressionValues b' !! k)).

(** the name placeholders are numbered from 0 without a gap, and stand
    for fields that needed one *)
Definition denseNames (names : gmap string string) : Prop :=
  (∀ k, is_Some (names !! k) ↔ ∃ j, j < size names ∧ k = "#n" +:+ pretty j) ∧
  (∀ k field, names !! k = Some field → needsReplacement field = true).

(** what [withLimit], [usingIndex], [withStartKey] and [withParallelScan]
    have checked of the settings the builder holds *)
Definition validSettings (b : t) : Prop :=
  (∀ x, limitValue b = Some x →
     PrimFloat.is_nan x = false ∧ PrimFloat.leb x 0%float = false) ∧
  (∀ i, indexNameValue b = Some i → trimIsEmpty i = false) ∧
  (∀ k, startKeyValue b = Some k → emptyStartKey k = false) ∧
  match totalSegmentsValue b, segmentValue b with
  | None, None => True
  | Some total, Some seg =>
      PrimFloat.is_nan total = false ∧ PrimFloat.is_nan seg = false ∧
      PrimFloat.leb total 0%float = false ∧
      PrimFloat.ltb seg 0%float = false ∧ PrimFloat.leb total seg = false
  | _, _ => False
  end.

(** [b'] holds the settings of [b] *)
Definition sameSettings (b b' : t) : Prop :=
  limitValue b' = limitValue b ∧ indexNameValue b' = indexNameValue b ∧
  startKeyValue b' = startKeyValue b ∧
  totalSegmentsValue b' = totalSegmentsValue b ∧ segmentValue b' = segmentValue b.

(** the fragment a condition method pushes and the values it binds,
    [nameKey] being the name it resolved for its field and [keys] the
    value placeholders it generated *)
Definition conditionOf (c : Call) (nameKey : string) (keys : list string)
    : option (string * list (string * JsValue)) :=
  match c, keys with
  | CEquals _ v, [k] => Some (nameKey +:+ " = " +:+ k, [(k, v)])
  | CNotEquals _ v, [k] => Some (nameKey +:+ " <> " +:+ k, [(k, v)])
  | CLessThan _ v, [k] => Some (nameKey +:+ " < " +:+ k, [(k, v)])
  | CLessThanOrEqual _ v, [k] => Some (nameKey +:+ " <= " +:+ k, [(k, v)])
  | CGreaterThan _ v, [k] => Some (nameKey +:+ " > " +:+ k, [(k, v)])
  | CGreaterThanOrEqual _ v, [k] => Some (nameKey +:+ " >= " +:+ k, [(k, v)])
  | CBeginsWith _ v, [k] =>
      Some ("begins_with(" +:+ nameKey +:+ ", " +:+ k +:+ ")", [(k, v)])
  | CContains _ v, [k] =>
      Some ("contains(" +:+ nameKey +:+ ", " +:+ k +:+ ")", [(k, v)])
  | CBetween _ lo hi, [k1; k2] =>
      Some (nameKey +:+ " BETWEEN " +:+ k1 +:+ " AND " +:+ k2, [(k1, lo); (k2, hi)])
  | CAttributeExists _, [] => Some ("attribute_exists(" +:+ nameKey +:+ ")", [])
  | CAttributeNotExists _, [] => Some ("attribute_not_exists(" +:+ nameKey +:+ ")", [])
  | _, _ => None
  end.

(** [m[k] = v] for each binding in turn *)
Definition bindAll (bindings : list (string * JsValue)) (m : gmap string JsValue)
    : gmap string JsValue :=
  foldl (λ m kv, <[kv.1 := kv.2]> m) m bindings.

(** what the call [c] does on the builder [b]: the fragments it appends,
    and the value placeholders it generates, writes into its fragment and
    binds *)
Definition effect (b : t) (c : Call) (fragments keys : list string) : Prop :=
  filterExpressions (after b c) = filterExpressions b ++ fragments ∧
  match call c b with
  | Throw _ => fragments = [] ∧ keys = []
  | Ok b' =>
      match c with
      | CFilter expression _ => fragments = ["(" +:+ expression +:+ ")"] ∧ keys = []
      | CSelectFields _ | CWithLimit _ | CUsingIndex _ | CWithConsistentRead _
      | CWithStartKey _ | CWithParallelScan _ _ =>
          fragments = [] ∧ keys = [] ∧ expressionValues b' = expressionValues b
      | _ =>
          ∃ nameKey fragment bindings,
            conditionOf c nameKey keys = Some (fragment, bindings) ∧
            fragments = [fragment] ∧
            expressionValues b' = bindAll bindings (expressionValues b)
      end
  end.

(** the calls [cs], made in turn on [b], have the effects [steps] *)
Fixpoint effects (b : t) (cs : list Call) (steps : list (list string * list string))
    : Prop :=
  match cs, steps with
  | [], [] => True
  | c :: cs', step :: steps' =>
      effect b c step.1 step.2 ∧ effects (after b c) cs' steps'
  | _, _ => False
  end.

End Environment.

End ScanBuilder.

(** ** Stream processor (operations/stream.ts, with [handleError] of
       core/error-handler.ts)

    The streams client and the caller's handler are the outside world:
    a state of type [World] and one function per request. Counts
    ([batchSize], [maxRecords], the number of processed records) and the
    poll interval are natural numbers, [Infinity] is [None]. The
    [while] loop may poll for ever, so the model takes a bound on the
    number of iterations and reports [OutOfFuel] when it is reached. What
    the processor does is recorded as a list of events for each shard. *)

Module Stream.

Inductive DynamoErrorType : Type :=
| ValidationError | ConditionalCheckFailed | ResourceNotFound | ResourceInUse
| ProvisionedThroughputExceeded | ThrottlingError | AccessDenied
| NetworkError | InternalError | UnknownError.

(** A thrown [Error]: its [name] and [message], whether it is an instance
    of [DynamoDBServiceException], and for a [DynamoError] its [type]. *)
Record JsError : Type := {
  name : string;
  message : string;
  isServiceException : bool;
  errorType : option DynamoErrorType
}.

(** [new Error(message)] *)
Definition Error (message : string) : JsError :=
  {| name := "Error"; message := message; isServiceException := false;
     errorType := None |}.

(** [new DynamoError(type, message, ...)] *)
Definition DynamoError (type : DynamoErrorType) (message : string) : JsError :=
  {| name := "DynamoError"; message := message; isServiceException := false;
     errorType := Some type |}.

Definition errorTypeMap (name : string) : option DynamoErrorType :=
  if String.eqb name "ValidationException" then Some ValidationError
  else if String.eqb name "ConditionalCheckFailedException" then Some ConditionalCheckFailed
  else if String.eqb name "ResourceNotFoundException" then Some ResourceNotFound
  else if String.eqb name "ResourceInUseException" then Some ResourceInUse
  else if String.eqb name "ProvisionedThroughputExceededException"
       then Some ProvisionedThroughputExceeded
  else if String.eqb name "ThrottlingException" then Some ThrottlingError
  else if String.eqb name "AccessDeniedException" then Some AccessDenied
  else None.

(** the result of an awaited call: its value, or what it threw *)
Inductive Try (A : Type) : Type :=
| Returned (a : A)
| Raised (error : JsError).
Arguments Returned {A} a.
Arguments Raised {A} error.

Inductive OperationResponse (A : Type) : Type :=
| Success (data : A)
| Failure (error : JsError).
Arguments Success {A} data.
Arguments Failure {A} error.

Record Shard : Type := {
  ShardId : string;
  ParentShardId : option string
}.

Record StreamDescription : Type := {
  Shards : option (list Shard)
}.

Record GetRecordsOutput : Type := {
  Records : option (list JsValue);
  NextShardIterator : option string
}.

Inductive ShardIteratorType : Type :=
| LATEST | TRIM_HORIZON | AT_SEQUENCE_NUMBER | AFTER_SEQUENCE_NUMBER.

(** [Partial<StreamProcessingConfig>] *)
Record Config : Type := {
  cfg_batchSize : option nat;
  cfg_maxRecords : option nat;
  cfg_pollInterval : option nat;
  cfg_stopOnError : option bool
}.

Record StreamProcessingConfig : Type := {
  batchSize : nat;
  maxRecords : option nat;
  pollInterval : nat;
  stopOnError : bool
}.

(** [x || d] on an optional count *)
Definition orDefault (x : option nat) (d : nat) : nat :=
  match x with
  | Some (S n) => S n
  | _ => d
  end.

(** the "Default configuration values" block; [|| Infinity] is [None] *)
Definition processingConfig (config : Config) : StreamProcessingConfig :=
  {| batchSize := orDefault (cfg_batchSize config) 100;
     maxRecords :=
       match cfg_maxRecords config with
       | Some (S n) => Some (S n)
       | _ => None
       end;
     pollInterval := orDefault (cfg_pollInterval config) 1000;
     stopOnError := default false (cfg_stopOnError config) |}.

(** [processedRecords < processingConfig.maxRecords] *)
Definition below (processedRecords : nat) (maxRecords : option nat) : bool :=
  match maxRecords with
  | Some n => Nat.ltb processedRecords n
  | None => true
  end.

(** a string that is neither [undefined] nor empty *)
Definition usable (iterator : option string) : option string :=
  match iterator with
  | Some s => if String.eqb s "" then None else Some s
  | None => None
  end.

(** [v || d] *)
Definition orElse (v d : JsValue) : JsValue := if truthy v then v else d.

(** [o?.k] *)
Definition getOptional (o : JsValue) (k : string) : JsValue :=
  match o with
  | JUndefined | JNull => JUndefined
  | _ => getProp o k
  end.

(** [v === undefined || v === null] *)
Definition isNullish (v : JsValue) : bool :=
  match v with JUndefined | JNull => true | _ => false end.

(** the [TypeError] that reading the property [k] of [undefined] or [null]
    throws; the wording of the message is the engine's *)
Definition cannotRead (v : JsValue) (k : string) : JsError :=
  {| name := "TypeError";
     message := "Cannot read properties of "
                  +:+ (match v with JNull => "null" | _ => "undefined" end)
                  +:+ " (reading '" +:+ k +:+ "')";
     isServiceException := false;
     errorType := None |}.

(** the object literal of [convertDynamoDBRecord], for a record that is
    neither [undefined] nor [null] *)
Definition convertedRecord (record : JsValue) : JsValue :=
  let dynamodb := getProp record "dynamodb" in
  let userIdentity := getProp record "userIdentity" in
  JObject
    [ ("eventID", getProp record "eventID");
      ("eventName", getProp record "eventName");
      ("eventVersion", getProp record "eventVersion");
      ("eventSource", getProp record "eventSource");
      ("awsRegion", getProp record "awsRegion");
      ("dynamodb",
        JObject
          [ ("Keys", orElse (getOptional dynamodb "Keys") (JObject []));
            ("NewImage", getOptional dynamodb "NewImage");
            ("OldImage", getOptional dynamodb "OldImage");
            ("SequenceNumber", getOptional dynamodb "SequenceNumber");
            ("SizeBytes", getOptional dynamodb "SizeBytes");
            ("StreamViewType", getOptional dynamodb "StreamViewType") ]);
      ("userIdentity",
        if truthy userIdentity then
          JObject
            [ ("type", orElse (getProp userIdentity "Type") (JString "Unknown"));
              ("principalId",
                orElse (getProp userIdentity "PrincipalId") (JString "Unknown")) ]
        else JUndefined) ].

(** [record.eventID], the first property read, throws on a record that is
    [undefined] or [null]; no other read of the literal can throw *)
Definition convertDynamoDBRecord (record : JsValue) : Try JsValue :=
  if isNullish record then Raised (cannotRead record "eventID")
  else Returned (convertedRecord record).

(** [records.map(convertDynamoDBRecord)]: the first record that cannot be
    converted ends the map *)
Fixpoint convertAll (records : list JsValue) : Try (list JsValue) :=
  match records with
  | [] => Returned []
  | record :: rest =>
      match convertDynamoDBRecord record with
      | Raised error => Raised error
      | Returned converted =>
          match convertAll rest with
          | Raised error => Raised error
          | Returned others => Returned (converted :: others)
          end
      end
  end.

(** What the processor does, as seen from outside. *)
Inductive FetchResult : Type :=
| FetchError (error : JsError)
| FetchOk (count : nat) (next : option string).

Inductive Event : Type :=
| IteratorRequested (shardId : string)
| Fetched (shardId cursor : string) (result : FetchResult)
| HandlerInvoked (shardId cursor : string) (next : option string)
    (records : list JsValue) (failure : option JsError)
| Logged (label : string) (error : JsError)
| Slept (milliseconds : nat).

Inductive Status : Type :=
| Completed
| Rejected (error : JsError)
| OutOfFuel.

Section World.

Variable World : Type.

(** [process.env.NODE_ENV] *)
Variable NODE_ENV : option string.

(** [client.send(new DescribeStreamCommand(...))] and its siblings *)
Variable sendDescribeStream : string → World → Try (option StreamDescription) * World.
Variable sendGetShardIterator :
  string → string → ShardIteratorType → World → Try (option string) * World.
Variable sendGetRecords : string → nat → World → Try GetRecordsOutput * World.

(** the caller's [handler] *)
Variable handler : list JsValue → World → Try unit * World.

Definition testMode : bool := bool_decide (NODE_ENV = Some "test").

(** [handleError(context, error)] for a thrown [Error] *)
Definition handleError {A : Type} (context : string) (error : JsError)
    : Try (OperationResponse A) :=
  let dynamoError :=
    if isServiceException error then
      DynamoError (default UnknownError (errorTypeMap (name error)))
                  (context +:+ ": " +:+ message error)
    else if String.eqb (name error) "NetworkError" then
      DynamoError NetworkError (context +:+ ": Network error occurred")
    else if String.eqb (name error) "ValidationError" then
      DynamoError ValidationError (context +:+ ": " +:+ message error)
    else
      DynamoError UnknownError (context +:+ ": " +:+ message error) in
  if testMode then Returned (Failure dynamoError) else Raised dynamoError.

Definition describeStream (streamArn : string) (w : World)
    : Try (OperationResponse StreamDescription) * World :=
  match sendDescribeStream streamArn w with
  | (Returned (Some description), w') => (Returned (Success description), w')
  | (Returned None, w') =>
      (Returned (Failure (Error ("No stream description found for " +:+ streamArn))),
       w')
  | (Raised error, w') =>
      (handleError ("Failed to describe stream " +:+ streamArn) error, w')
  end.

Definition getShardIterator (streamArn shardId : string)
    (iteratorType : ShardIteratorType) (w : World)
    : Try (OperationResponse string) * World :=
  match sendGetShardIterator streamArn shardId iteratorType w with
  | (Returned iterator, w') =>
      match usable iterator with
      | Some shardIterator => (Returned (Success shardIterator), w')
      | None =>
          (Returned (Failure (Error ("No shard iterator returned for shard "
                                       +:+ shardId))), w')
      end
  | (Raised error, w') =>
      (handleError ("Failed to get shard iterator for shard " +:+ shardId) error, w')
  end.

Definition getStreamRecords (shardIterator : string) (limit : nat) (w : World)
    : Try (OperationResponse (list JsValue * option string)) * World :=
  match sendGetRecords shardIterator limit w with
  | (Returned response, w') =>
      match convertAll (default [] (Records response)) with
      | Returned records =>
          (Returned (Success (records, NextShardIterator response)), w')
      | Raised error => (handleError "Failed to get stream records" error, w')
      end
  | (Raised error, w') => (handleError "Failed to get stream records" error, w')
  end.

(** How one shard's loop ended, the count it reached, what it did, and the
    world it left. *)
Record LoopResult : Type := {
  loop_status : Status;
  loop_processed : nat;
  loop_events : list Event;
  loop_world : World
}.

Definition andThen (events : list Event) (r : LoopResult) : LoopResult :=
  {| loop_status := loop_status r; loop_processed := loop_processed r;
     loop_events := events ++ loop_events r; loop_world := loop_world r |}.

(** [while (nextShardIterator && processedRecords < maxRecords) { ... }];
    [fuel] bounds the number of turns *)
Fixpoint shardLoop (fuel : nat) (cfg : StreamProcessingConfig) (shardId : string)
    (nextShardIterator : option string) (processedRecords : nat) (w : World)
    : LoopResult :=
  match usable nextShardIterator with
  | None => {| loop_status := Completed; loop_processed := processedRecords;
               loop_events := []; loop_world := w |}
  | Some cursor =>
      if negb (below processedRecords (maxRecords cfg)) then
        {| loop_status := Completed; loop_processed := processedRecords;
           loop_events := []; loop_world := w |}
      else
        match fuel with
        | 0 => {| loop_status := OutOfFuel; loop_processed := processedRecords;
                  loop_events := []; loop_world := w |}
        | S fuel' =>
            match getStreamRecords cursor (batchSize cfg) w with
            | (Raised error, w1) =>
                {| loop_status := Rejected error; loop_processed := processedRecords;
                   loop_events := [Fetched shardId cursor (FetchError error)];
                   loop_world := w1 |}
            | (Returned (Failure error), w1) =>
                if stopOnError cfg then
                  {| loop_status := Rejected error;
                     loop_processed := processedRecords;
                     loop_events := [Fetched shardId cursor (FetchError error)];
                     loop_world := w1 |}
                else
                  andThen [ Fetched shardId cursor (FetchError error);
                            Logged "Error getting stream records:" error;
                            Slept (pollInterval cfg) ]
                    (shardLoop fuel' cfg shardId nextShardIterator processedRecords w1)
            | (Returned (Success (records, newIterator)), w1) =>
                match records with
                | [] =>
                    andThen [ Fetched shardId cursor (FetchOk 0 newIterator);
                              Slept (pollInterval cfg) ]
                      (shardLoop fuel' cfg shardId newIterator processedRecords w1)
                | _ :: _ =>
                    match handler records w1 with
                    | (Returned _, w2) =>
                        andThen
                          [ Fetched shardId cursor
                              (FetchOk (length records) newIterator);
                            HandlerInvoked shardId cursor newIterator records None ]
                          (shardLoop fuel' cfg shardId newIterator
                             (processedRecords + length records) w2)
                    | (Raised error, w2) =>
                        if stopOnError cfg then
                          {| loop_status := Rejected error;
                             loop_processed := processedRecords;
                             loop_events :=
                               [ Fetched shardId cursor
                                   (FetchOk (length records) newIterator);
                                 HandlerInvoked shardId cursor newIterator records
                                   (Some error) ];
                             loop_world := w2 |}
                        else
                          andThen
                            [ Fetched shardId cursor
                                (FetchOk (length records) newIterator);
                              HandlerInvoked shardId cursor newIterator records
                                (Some error);
                              Logged "Error in stream handler:" error ]
                            (shardLoop fuel' cfg shardId newIterator
                               processedRecords w2)
                    end
                end
            end
        end
  end.

(** The outcome of a run: how it ended, and for each shard reached, in
    order, the events of its turn. *)
Record Run : Type := {
  status : Status;
  shardRuns : list (string * list Event);
  world : World
}.

(** [for (const shard of shards) { ... }] *)
Fixpoint processShards (fuel : nat) (cfg : StreamProcessingConfig)
    (streamArn : string) (shards : list Shard) (processedRecords : nat)
    (w : World) : Run :=
  match shards with
  | [] => {| status := Completed; shardRuns := []; world := w |}
  | shard :: rest =>
      match getShardIterator streamArn (ShardId shard) TRIM_HORIZON w with
      | (Raised error, w1) =>
          {| status := Rejected error;
             shardRuns := [(ShardId shard, [IteratorRequested (ShardId shard)])];
             world := w1 |}
      | (Returned (Failure error), w1) =>
          {| status := Rejected error;
             shardRuns := [(ShardId shard, [IteratorRequested (ShardId shard)])];
             world := w1 |}
      | (Returned (Success shardIterator), w1) =>
          let r := shardLoop fuel cfg (ShardId shard) (Some shardIterator)
                     processedRecords w1 in
          let this := (ShardId shard,
                       IteratorRequested (ShardId shard) :: loop_events r) in
          match loop_status r with
          | Completed =>
              let run := processShards fuel cfg streamArn rest
                           (loop_processed r) (loop_world r) in
              {| status := status run; shardRuns := this :: shardRuns run;
                 world := world run |}
          | st => {| status := st; shardRuns := [this]; world := loop_world r |}
          end
      end
  end.

Definition processStream (fuel : nat) (streamArn : string) (config : Config)
    (w : World) : Run :=
  let cfg := processingConfig config in
  match describeStream streamArn w with
  | (Raised error, w1) => {| status := Rejected error; shardRuns := []; world := w1 |}
  | (Returned (Failure error), w1) =>
      {| status := Rejected error; shardRuns := []; world := w1 |}
  | (Returned (Success streamDescription), w1) =>
      match default [] (Shards streamDescription) with
      | [] => {| status := Rejected (Error "No shards found in the stream");
                 shardRuns := []; world := w1 |}
      | shards => processShards fuel cfg streamArn shards 0 w1
      end
  end.

End World.

(** *** Vocabulary for the properties *)

(** the records a list of events handed to the handler, all invocations
    counted *)
Definition passed (events : list Event) : nat :=
  sum_list_with (λ e, match e with
                      | HandlerInvoked _ _ _ records _ => length records
                      | _ => 0
                      end) events.

(** the records of the invocations the handler returned from, which is
    what [processedRecords] counts *)
Definition handled (events : list Event) : nat :=
  sum_list_with (λ e, match e with
                      | HandlerInvoked _ _ _ records None => length records
                      | _ => 0
                      end) events.

Definition isFetch (e : Event) : bool :=
  match e with Fetched _ _ _ => true | _ => false end.

(** a fetch that came back without a cursor to go on with *)
Definition exhausts (e : Event) : bool :=
  match e with
  | Fetched _ _ (FetchOk _ next) => bool_decide (usable next = None)
  | _ => false
  end.

(** [q e rest] holds of every event [e] of the list, [rest] being the
    events after it *)
Fixpoint always (q : Event → list Event → Prop) (events : list Event) : Prop :=
  match events with
  | [] => True
  | e :: rest => q e rest ∧ always q rest
  end.

(** every handler invocation starts with fewer than [maxRecords] records
    handled so far, [n] being the count before [events] *)
Fixpoint guarded (maxRecords : option nat) (n : nat) (events : list Event) : Prop :=
  match events with
  | [] => True
  | e :: rest =>
      match e with
      | HandlerInvoked _ _ _ _ _ => below n maxRecords = true
      | _ => True
      end ∧ guarded maxRecords (n + handled [e]) rest
  end.

(** what follows a handler failure: with [stop], nothing, and the loop
    has rejected with the handler's error; without, the log entry and
    then the fetch at the cursor that came with the failed batch (or the
    end of the shard's turn when there was none) *)
Definition handlerPolicy (stop : bool) (st : Status) (e : Event)
    (rest : list Event) : Prop :=
  match e with
  | HandlerInvoked shardId _ next _ (Some error) =>
      if stop then rest = [] ∧ st = Rejected error
      else ∃ rest', rest = Logged "Error in stream handler:" error :: rest' ∧
             match usable next with
             | Some cursor =>
                 (∃ result rest'', rest' = Fetched shardId cursor result :: rest'')
                 ∨ (rest' = [] ∧ st = OutOfFuel)
             | None => rest' = []
             end
  | _ => True
  end.

(** no fetch follows a fetch that came back without a cursor *)
Definition stopsWhenExhausted (e : Event) (rest : list Event) : Prop :=
  exhausts e = true → Forall (λ e', isFetch e' = false) rest.

(** an event of the loop of the shard [shardId] *)
Definition ofShard (shardId : string) (e : Event) : Prop :=
  match e with
  | IteratorRequested _ => False
  | Fetched s _ _ | HandlerInvoked s _ _ _ _ => s = shardId
  | Logged _ _ | Slept _ => True
  end.

(** how a loop started on [iterator] with [n] records processed begins *)
Definition startsAt (maxRecords : option nat) (shardId : string)
    (iterator : option string) (n : nat) (events : list Event) (st : Status) : Prop :=
  match usable iterator with
  | Some cursor =>
      below n maxRecords = true →
      (∃ result rest, events = Fetched shardId cursor result :: rest)
      ∨ (events = [] ∧ st = OutOfFuel)
  | None => events = []
  end.

(** what holds of the turn of one shard, [st] being how its loop ended *)
Definition shardOk (cfg : StreamProcessingConfig) (st : Status)
    (shardId : string) (events : list Event) : Prop :=
  ∃ loopEvents,
    events = IteratorRequested shardId :: loopEvents ∧
    Forall (ofShard shardId) loopEvents ∧
    always stopsWhenExhausted loopEvents ∧
    always (handlerPolicy (stopOnError cfg) st) loopEvents.

(** every shard's turn but the last ended with its loop completed, and the
    last one ended as the run did *)
Fixpoint runsOk (cfg : StreamProcessingConfig) (st : Status)
    (runs : list (string * list Event)) : Prop :=
  match runs with
  | [] => True
  | (shardId, events) :: rest =>
      match rest with
      | [] => shardOk cfg st shardId events
      | _ :: _ => shardOk cfg Completed shardId events ∧ runsOk cfg st rest
      end
  end.

(** a batch of at most [B] records *)
Definition batchWithin (B : nat) (e : Event) : Prop :=
  match e with
  | HandlerInvoked _ _ _ records _ => length records ≤ B
  | _ => True
  end.

(** what follows a fetch that failed: with [retry], the log entry, the
    pause and then the fetch at the same cursor again; without, nothing,
    the loop having rejected with the error *)
Definition fetchFailurePolicy (retry : bool) (pause : nat) (st : Status)
    (e : Event) (rest : list Event) : Prop :=
  match e with
  | Fetched shardId cursor (FetchError error) =>
      name error = "DynamoError" ∧
      if retry then
        ∃ rest', rest = Logged "Error getting stream records:" error
                          :: Slept pause :: rest' ∧
                 ((∃ result rest'', rest' = Fetched shardId cursor result :: rest'')
                  ∨ (rest' = [] ∧ st = OutOfFuel))
      else rest = [] ∧ st = Rejected error
  | _ => True
  end.

(** what follows a fetch that succeeded: the pause after an empty batch,
    the handler invocation on the whole batch otherwise; and the handler
    is invoked on nothing but such a batch *)
Definition batchPolicy (pause : nat) (e : Event) (rest : list Event) : Prop :=
  match e with
  | Fetched shardId cursor (FetchOk 0 next) => ∃ rest', rest = Slept pause :: rest'
  | Fetched shardId cursor (FetchOk (S count) next) =>
      ∃ records failure rest',
        rest = HandlerInvoked shardId cursor next records failure :: rest' ∧
        length records = S count
  | HandlerInvoked _ _ _ records _ => records ≠ []
  | _ => True
  end.

(** [q shardId st events] holds of the events that follow the cursor
    request in every shard's turn, [st] being how the turn's loop ended:
    [Completed] for every turn but the last, which ended as the run did *)
Fixpoint eachTurn (q : string → Status → list Event → Prop) (st : Status)
    (runs : list (string * list Event)) : Prop :=
  match runs with
  | [] => True
  | (shardId, events) :: rest =>
      (∃ loopEvents, events = IteratorRequested shardId :: loopEvents ∧
         q shardId (match rest with [] => st | _ :: _ => Completed end) loopEvents) ∧
      eachTurn q st rest
  end.

(** *** Two small worlds, for examples *)

Definition oneShard : StreamDescription :=
  {| Shards := Some [ {| ShardId := "shard-1"; ParentShardId := None |} ] |}.

Definition boom : JsError := Error "handler failed".

(** One shard. The cursor [it0] yields one record and the next cursor
    [it1]; [it1] yields nothing and no cursor. The handler always throws. *)
Definition failingWorld_getRecords (iterator : string) (limit : nat) (w : unit)
    : Try GetRecordsOutput * unit :=
  if String.eqb iterator "it0"
  then (Returned {| Records := Some [JObject [("eventID", JString "1")]];
                    NextShardIterator := Some "it1" |}, w)
  else (Returned {| Records := Some []; NextShardIterator := None |}, w).

Definition failingWorld_run (config : Config) : Run unit :=
  processStream unit None
    (λ _ w, (Returned (Some oneShard), w))
    (λ _ _ _ w, (Returned (Some "it0"), w))
    failingWorld_getRecords
    (λ _ w, (Raised boom, w))
    10 "arn:stream" config tt.

(** One shard. The cursor [it0] yields two records and no next cursor.
    The handler accepts everything. *)
Definition burstWorld_run (config : Config) : Run unit :=
  processStream unit None
    (λ _ w, (Returned (Some oneShard), w))
    (λ _ _ _ w, (Returned (Some "it0"), w))
    (λ _ _ w, (Returned {| Records := Some [JObject [("eventID", JString "1")];
                                             JObject [("eventID", JString "2")]];
                           NextShardIterator := None |}, w))
    (λ _ w, (Returned tt, w))
    10 "arn:stream" config tt.

(** One shard, whose cursor [it0] yields [records] and itself as the next
    cursor, for ever. The handler accepts everything. *)
Definition openShard_run (records : list JsValue) (fuel : nat) (config : Config)
    : Run unit :=
  processStream unit None
    (λ _ w, (Returned (Some oneShard), w))
    (λ _ _ _ w, (Returned (Some "it0"), w))
    (λ _ _ w, (Returned {| Records := Some records;
                           NextShardIterator := Some "it0" |}, w))
    (λ _ w, (Returned tt, w))
    fuel "arn:stream" config tt.

Definition twoShards : StreamDescription :=
  {| Shards := Some [ {| ShardId := "shard-1"; ParentShardId := None |};
                      {| ShardId := "shard-2"; ParentShardId := Some "shard-1" |} ] |}.

(** Two shards. In each, the cursor [it0] yields two records and no next
    cursor. The handler accepts everything. *)
Definition twoShardBurst_run (config : Config) : Run unit :=
  processStream unit None
    (λ _ w, (Returned (Some twoShards), w))
    (λ _ _ _ w, (Returned (Some "it0"), w))
    (λ _ _ w, (Returned {| Records := Some [JObject [("eventID", JString "1")];
                                             JObject [("eventID", JString "2")]];
                           NextShardIterator := None |}, w))
    (λ _ w, (Returned tt, w))
    10 "arn:stream" config tt.

Definition timeout : JsError :=
  {| name := "TimeoutError"; message := "socket hang up";
     isServiceException := false; errorType := None |}.

(** One shard, every fetch of which is rejected by the client. *)
Definition unreachable_run (NODE_ENV : option string) (fuel : nat) (config : Config)
    : Run unit :=
  processStream unit NODE_ENV
    (λ _ w, (Returned (Some oneShard), w))
    (λ _ _ _ w, (Returned (Some "it0"), w))
    (λ _ _ w, (Raised timeout, w))
    (λ _ w, (Returned tt, w))
    fuel "arn:stream" config tt.

(** the cursors a list of events fetched at, in order *)
Definition fetchCursors (events : list Event) : list string :=
  omap (λ e, match e with Fetched _ cursor _ => Some cursor | _ => None end) events.

End Stream.

(** * Properties *)

(** ** Query-mode builder *)

Section QueryBuilderProperties.
Import QueryBuilder.

(** Unfolds one layer of the error monad in the goal. *)
Ltac step_result :=
  unfold mbind, Result_bind, ensure in *; simpl in *.

Lemma call_conditions (c : Call) (b b' : t) :
  call c b = Ok b' →
  conditions b' = conditions b ∨ ∃ q, conditions b' = conditions b ++ [q].
Proof.
  destruct c; cbn -[pretty];
    unfold usingIndex, withLimit, selectFields, equals, notEquals, greaterThan,
      lessThan, contains, beginsWith, in_, between, push;
    step_result; intros H;
    repeat (case_match; try discriminate);
    simplify_eq/=; eauto.
Qed.

Lemma after_conditions (b : t) (c : Call) :
  ∃ l, conditions (after b c) = conditions b ++ l.
Proof.
  unfold after. destruct (call c b) as [b'|] eqn:E.
  - destruct (call_conditions _ _ _ E) as [-> | [q ->]].
    + exists []. by rewrite app_nil_r.
    + by exists [q].
  - exists []. by rewrite app_nil_r.
Qed.

Lemma afterAll_conditions (cs : list Call) (b : t) :
  ∃ l, conditions (afterAll b cs) = conditions b ++ l.
Proof.
  revert b. induction cs as [|c cs IH]; intros b; simpl.
  - exists []. by rewrite app_nil_r.
  - destruct (IH (after b c)) as [l2 ->].
    destruct (after_conditions b c) as [l1 ->].
    exists (l1 ++ l2). by rewrite app_assoc.
Qed.

Lemma build_first (b : t) (first : QueryCondition) (rest : list QueryCondition) :
  conditions b = first :: rest →
  ∃ r, build b = Ok r ∧ keyCondition r = compileKeyCondition first.
Proof. intros H. unfold build. rewrite H. eauto. Qed.

(** C1. [build()] throws, and then with the message "No conditions
    specified", exactly when the builder holds no condition; every call of
    a chainable method leaves the accumulated conditions alone or appends
    one at the end, so once a first condition is in place it stays the
    key condition whatever is called afterwards; and
    [new QueryBuilder().equals('userId','123').build()] has
    [keyCondition.expression = 'userId = :keyValue'] and
    [keyCondition.values[':keyValue'] = '123']. *)
Theorem build_throws_iff_empty_else_first_is_key :
  (∀ b, build b = Throw "No conditions specified" ↔ conditions b = []) ∧
  (∀ b msg, build b = Throw msg → msg = "No conditions specified") ∧
  (∀ b c b', call c b = Ok b' →
     conditions b' = conditions b ∨ ∃ q, conditions b' = conditions b ++ [q]) ∧
  (∀ b first rest cs, conditions b = first :: rest →
     ∃ r, build (afterAll b cs) = Ok r ∧
          keyCondition r = compileKeyCondition first) ∧
  (∃ b r, equals "userId" (JString "123") new = Ok b ∧
          conditions b = [{| field := "userId"; value := JString "123";
                             operation := EQUALS |}] ∧
          build b = Ok r ∧
          expression (keyCondition r) = "userId = :keyValue" ∧
          values (keyCondition r) !! ":keyValue" = Some (JString "123")).
Proof.
  split_and!.
  - intros b. unfold build. destruct (conditions b); split; congruence.
  - intros b msg. unfold build. destruct (conditions b); congruence.
  - intros b c b'. apply call_conditions.
  - intros b first rest cs Hb.
    destruct (afterAll_conditions cs b) as [l Hl].
    rewrite Hb in Hl. by apply (build_first _ first (rest ++ l)).
  - eexists _, _. split_and!; reflexivity.
Qed.

Lemma build_throws_iff_empty_else_first_is_key_witness :
  build new = Throw "No conditions specified" ∧
  ∃ r, build (afterAll (after new (CBeginsWith "sk" (JString "order#")))
                [CEquals "pk" (JString "u1"); CWithLimit (JNumber 10)]) = Ok r ∧
       expression (keyCondition r) = "begins_with(sk, :keyValue)".
Proof.
  destruct build_throws_iff_empty_else_first_is_key as (H1 & _ & _ & H4 & _).
  split.
  - apply H1. reflexivity.
  - destruct (H4 (after new (CBeginsWith "sk" (JString "order#")))
                {| field := "sk"; value := JString "order#"; operation := BEGINS_WITH |}
                [] [CEquals "pk" (JString "u1"); CWithLimit (JNumber 10)] eq_refl)
      as (r & Hr & Hk).
    exists r. split; [exact Hr|]. rewrite Hk. reflexivity.
Defined.

(** C10. When the first condition of a query-mode builder carries an
    operator other than EQUALS, BEGINS_WITH and BETWEEN, [build()] returns
    normally, whatever was called after that condition was added, and its
    key condition is the equality test [field = :keyValue] with that
    condition's value as the only binding, under [:keyValue]. *)
Theorem build_other_operator_is_equality
    (b : t) (first : QueryCondition) (rest : list QueryCondition) (cs : list Call) :
  conditions b = first :: rest →
  operation first ≠ EQUALS →
  operation first ≠ BEGINS_WITH →
  operation first ≠ BETWEEN →
  ∃ r, build (afterAll b cs) = Ok r ∧
       expression (keyCondition r) = field first +:+ " = :keyValue" ∧
       values (keyCondition r) = {[ ":keyValue" := value first ]}.
Proof.
  intros Hb H1 H2 H3.
  destruct (afterAll_conditions cs b) as [l Hl]. rewrite Hb in Hl.
  destruct (build_first _ first (rest ++ l) Hl) as (r & Hr & Hk).
  exists r. split; [done|]. rewrite Hk. unfold compileKeyCondition.
  destruct (operation first); done.
Qed.

Lemma build_other_operator_is_equality_witness :
  ∃ r, build (afterAll (after new (CGreaterThan "age" (JNumber 18)))
                [CEquals "userId" (JString "123")]) = Ok r ∧
       expression (keyCondition r) = "age = :keyValue" ∧
       values (keyCondition r) = {[ ":keyValue" := JNumber 18 ]}.
Proof.
  apply (build_other_operator_is_equality
           (after new (CGreaterThan "age" (JNumber 18)))
           {| field := "age"; value := JNumber 18; operation := GREATER_THAN |}
           [] [CEquals "userId" (JString "123")]);
    [reflexivity | discriminate | discriminate | discriminate].
Defined.

End QueryBuilderProperties.

(** ** Attribute-name resolver *)

Section ResolverProperties.
Import ExpressionAttributeHandler.

Lemma split_without_separator (sep : ascii) (s : string) :
  includes sep s = false → split sep s = [s].
Proof.
  unfold includes. induction s as [|c s IH]; simpl; [done|].
  rewrite Ascii.eqb_sym. destruct (Ascii.eqb c sep); simpl; [done|].
  intros H. by rewrite (IH H).
Qed.

Lemma lower_char_not_dot (c : ascii) :
  isLower (toLowerChar c) = true → Ascii.eqb "." c = false.
Proof. by destruct c as [[] [] [] [] [] [] [] []]. Qed.

Lemma lower_string_no_dot (s : string) :
  forallChars isLower (toLowerCase s) = true → includes "." s = false.
Proof.
  unfold includes.
  induction s as [|c s IH]; cbn [existsChar forallChars toLowerCase]; [done|].
  intros [Hc Hs]%andb_true_iff. by rewrite (lower_char_not_dot c Hc), (IH Hs).
Qed.

Lemma reserved_words_lower :
  Forall (λ w, forallChars isLower w = true) ReservedWords.DYNAMODB_RESERVED_WORDS.
Proof. apply (bool_decide_unpack _). by vm_compute. Qed.

Lemma reserved_no_dot (w : string) :
  isReservedWord w = true → split "." w = [w].
Proof.
  unfold isReservedWord, ReservedWords.has. intros H%bool_decide_eq_true.
  apply split_without_separator, lower_string_no_dot.
  by apply (proj1 (Forall_forall _ _) reserved_words_lower).
Qed.

Lemma extends_refl (h : t) : extends h h.
Proof. by split. Qed.

Lemma extends_trans (h1 h2 h3 : t) : extends h1 h2 → extends h2 h3 → extends h1 h3.
Proof. intros [? ?] [? ?]. split; [by etrans | lia]. Qed.

Lemma wf_new : wellFormed new.
Proof. intros part p. cbn. by rewrite lookup_empty. Qed.

Lemma resolvePart_spec (part : string) (h : t) :
  wellFormed h → wellFormed (snd (resolvePart part h)) ∧ extends h (snd (resolvePart part h)).
Proof.
  intros Hwf. unfold resolvePart.
  destruct (needsPlaceholder part); [|by split; [|apply extends_refl]].
  destruct (attributeNameMap h !! part) as [p|] eqn:E; simpl;
    [by split; [|apply extends_refl]|].
  split.
  - intros part' p'. simpl. rewrite lookup_insert. case_decide as Hd.
    + intros [= <-]. exists (S (nameCount h)). split; [done | lia].
    + intros (K & -> & HK)%Hwf. exists K. split; [done | lia].
  - split; simpl; [by apply insert_subseteq | lia].
Qed.

Lemma resolveParts_spec (parts : list string) (h : t) :
  wellFormed h → wellFormed (snd (resolveParts parts h)) ∧ extends h (snd (resolveParts parts h)).
Proof.
  revert h. induction parts as [|part parts IH]; intros h Hwf; simpl.
  - by split; [|apply extends_refl].
  - destruct (resolvePart_spec part h Hwf) as [Hwf1 Hext1].
    destruct (resolvePart part h) as [p h1]; simpl in *.
    destruct (IH h1 Hwf1) as [Hwf2 Hext2].
    destruct (resolveParts parts h1) as [ps h2]; simpl in *.
    split; [done | by eapply extends_trans].
Qed.

Lemma getExpressionAttributeName_spec (a : string) (h : t) :
  wellFormed h → wellFormed (snd (getExpressionAttributeName a h))
         ∧ extends h (snd (getExpressionAttributeName a h)).
Proof.
  intros Hwf. unfold getExpressionAttributeName.
  pose proof (resolveParts_spec (split "." a) h Hwf) as H.
  by destruct (resolveParts (split "." a) h).
Qed.

Lemma resolveAll_spec (attrs : list string) (h : t) :
  wellFormed h → wellFormed (snd (resolveAll attrs h)) ∧ extends h (snd (resolveAll attrs h)).
Proof.
  revert h. induction attrs as [|a attrs IH]; intros h Hwf; simpl.
  - by split; [|apply extends_refl].
  - destruct (getExpressionAttributeName_spec a h Hwf) as [Hwf1 Hext1].
    destruct (getExpressionAttributeName a h) as [p h1]; simpl in *.
    destruct (IH h1 Hwf1) as [Hwf2 Hext2].
    destruct (resolveAll attrs h1) as [ps h2]; simpl in *.
    split; [done | by eapply extends_trans].
Qed.

Lemma rewriteAttr_spec (e : string) (h : t) (attr : string) :
  wellFormed h → wellFormed (snd (rewriteAttr (e, h) attr)) ∧ extends h (snd (rewriteAttr (e, h) attr)).
Proof.
  intros Hwf. unfold rewriteAttr.
  destruct (isReservedWord attr); [|by split; [|apply extends_refl]].
  pose proof (getExpressionAttributeName_spec attr h Hwf) as H.
  by destruct (getExpressionAttributeName attr h).
Qed.

Lemma rewriteAttrs_spec (attrs : list string) (e : string) (h : t) :
  wellFormed h → wellFormed (snd (foldl rewriteAttr (e, h) attrs))
         ∧ extends h (snd (foldl rewriteAttr (e, h) attrs)).
Proof.
  revert e h. induction attrs as [|a attrs IH]; intros e h Hwf; cbn [foldl].
  - by split; [|apply extends_refl].
  - destruct (rewriteAttr_spec e h a Hwf) as [Hwf1 Hext1].
    destruct (rewriteAttr (e, h) a) as [e1 h1]; cbn [snd] in *.
    destruct (IH e1 h1 Hwf1) as [Hwf2 Hext2].
    split; [done | by eapply extends_trans].
Qed.

Lemma after_wf (h : t) (c : Call) : wellFormed h → wellFormed (after h c).
Proof.
  intros Hwf. destruct c as [a|attrs|e|]; simpl.
  - by apply getExpressionAttributeName_spec.
  - unfold processProjectionExpression.
    pose proof (resolveAll_spec attrs h Hwf) as [H _].
    by destruct (resolveAll attrs h).
  - unfold processKeyConditionExpression.
    pose proof (rewriteAttrs_spec (matchAttributes e) e h Hwf) as [H _].
    by destruct (foldl rewriteAttr (e, h) (matchAttributes e)).
  - apply wf_new.
Qed.

Lemma after_extends (h : t) (c : Call) :
  wellFormed h → isReset c = false → extends h (after h c).
Proof.
  intros Hwf Hc. destruct c as [a|attrs|e|]; simpl; [| | |done].
  - by apply getExpressionAttributeName_spec.
  - unfold processProjectionExpression.
    pose proof (resolveAll_spec attrs h Hwf) as [_ H].
    by destruct (resolveAll attrs h).
  - unfold processKeyConditionExpression.
    pose proof (rewriteAttrs_spec (matchAttributes e) e h Hwf) as [_ H].
    by destruct (foldl rewriteAttr (e, h) (matchAttributes e)).
Qed.

Lemma afterAll_wf (cs : list Call) (h : t) : wellFormed h → wellFormed (foldl after h cs).
Proof.
  revert h. induction cs as [|c cs IH]; intros h Hwf; simpl; [done|].
  by apply IH, after_wf.
Qed.

Lemma afterAll_extends (cs : list Call) (h : t) :
  wellFormed h → forallb (λ c, negb (isReset c)) cs = true → extends h (foldl after h cs).
Proof.
  revert h. induction cs as [|c cs IH]; intros h Hwf; simpl.
  - intros _. apply extends_refl.
  - intros [Hc Hcs]%andb_true_iff. apply negb_true_iff in Hc.
    eapply extends_trans; [by apply after_extends|].
    apply IH; [by apply after_wf | done].
Qed.

(** What a lookup of a reserved word does, by cases on whether the word
    already has a placeholder. *)
Lemma resolve_reserved (w : string) (h : t) :
  isReservedWord w = true →
  getExpressionAttributeName w h =
    match attributeNameMap h !! w with
    | Some p => (p, h)
    | None =>
        ("#n" +:+ pretty (S (nameCount h)),
         {| expressionAttributeNames :=
              <["#n" +:+ pretty (S (nameCount h)) := w]> (expressionAttributeNames h);
            attributeNameMap :=
              <[w := "#n" +:+ pretty (S (nameCount h))]> (attributeNameMap h);
            nameCount := S (nameCount h) |})
    end.
Proof.
  intros Hw. unfold getExpressionAttributeName.
  rewrite (reserved_no_dot w Hw). simpl. unfold resolvePart, needsPlaceholder.
  rewrite Hw. simpl. by destruct (attributeNameMap h !! w).
Qed.

(** C8. On a handler in any state its methods can bring it to, resolving
    a reserved word returns [#n] followed by a counter value [K] with
    [1 ≤ K ≤ nameCount]; a word seen for the first time takes the next
    counter value, [nameCount + 1], and the counter never goes down;
    resolving the same word again, at once or after any further calls
    other than [reset], returns the identical placeholder. *)
Theorem resolve_reserved_word_placeholder (cs : list Call) (w : string) :
  isReservedWord w = true →
  let h := foldl after new cs in
  let p := fst (getExpressionAttributeName w h) in
  let h' := snd (getExpressionAttributeName w h) in
  (∃ K, p = "#n" +:+ pretty K ∧ 1 ≤ K ≤ nameCount h' ∧
        (attributeNameMap h !! w = None → K = S (nameCount h) ∧ nameCount h' = K)) ∧
  nameCount h ≤ nameCount h' ∧
  getExpressionAttributeName w h' = (p, h') ∧
  ∀ cs', forallb (λ c, negb (isReset c)) cs' = true →
    fst (getExpressionAttributeName w (foldl after h' cs')) = p.
Proof.
  intros Hw h p h'.
  assert (wellFormed h) as Hwf by apply afterAll_wf, wf_new.
  assert (wellFormed h') as Hwf' by by apply getExpressionAttributeName_spec.
  assert (attributeNameMap h' !! w = Some p) as Hlook.
  { subst p h'. rewrite (resolve_reserved w h Hw).
    destruct (attributeNameMap h !! w) eqn:E; cbn; [done|].
    by rewrite lookup_insert_eq. }
  split_and!.
  - destruct (Hwf' w p Hlook) as (K & HK & Hle). exists K. split_and!; [done | lia | lia |].
    intros Hnone. subst p h'. rewrite (resolve_reserved w h Hw), Hnone in HK |- *.
    cbn in *. apply (inj (String.app "#n")), (inj pretty) in HK. by subst K.
  - by apply getExpressionAttributeName_spec.
  - by rewrite (resolve_reserved w h' Hw), Hlook.
  - intros cs' Hcs'.
    destruct (afterAll_extends cs' h' Hwf' Hcs') as [Hsub _].
    rewrite (resolve_reserved w _ Hw).
    by rewrite (lookup_weaken _ _ _ _ Hlook Hsub).
Qed.

Lemma resolve_reserved_word_placeholder_witness :
  fst (getExpressionAttributeName "name"
         (foldl after
            (snd (getExpressionAttributeName "name" (foldl after new [CGetName "order"])))
            [CGetName "status"; CProjection ["user.name"; "size"]]))
  = fst (getExpressionAttributeName "name" (foldl after new [CGetName "order"])).
Proof.
  destruct (resolve_reserved_word_placeholder [CGetName "order"] "name" eq_refl)
    as (_ & _ & _ & H).
  exact (H [CGetName "status"; CProjection ["user.name"; "size"]] eq_refl).
Defined.

(** C9, evaluated. [name] is a reserved word. In [name = :v] the handler
    registers [#n1] for it and returns the expression unchanged, because
    the substitution skips a word that is followed by a comparison
    operator. In [begins_with(#name, :p) AND contains(name, :q)] the bare
    [name] is rewritten and so is the [name] inside the already escaped
    [#name], which becomes [##n1]. *)
Theorem processKeyConditionExpression_at_reserved_name :
  isReservedWord "name" = true ∧
  matchAttributes "name = :v" = ["name"] ∧
  fst (processKeyConditionExpression "name = :v" new)
    = ("name = :v", Some {[ "#n1" := "name" ]}) ∧
  matchAttributes "begins_with(#name, :p) AND contains(name, :q)"
    = ["begins_with"; "name"] ∧
  fst (processKeyConditionExpression
         "begins_with(#name, :p) AND contains(name, :q)" new)
    = ("begins_with(##n1, :p) AND contains(#n1, :q)", Some {[ "#n1" := "name" ]}).
Proof. split_and!; by vm_compute. Qed.

End ResolverProperties.

(** ** Update compiler *)

Section UpdateProperties.
Import Update.

(** *** Grouping by verb *)

Lemma pushGroup_keys (acc : list (UpdateOperationType * list FieldUpdate))
    (u : FieldUpdate) :
  (pushGroup acc u).*1 =
    if decide (operation u ∈ acc.*1) then acc.*1 else acc.*1 ++ [operation u].
Proof.
  induction acc as [|[op us] acc IH]; cbn [pushGroup fmap list_fmap fst].
  - by rewrite decide_False by apply not_elem_of_nil.
  - destruct (decide (op = operation u)) as [->|Hne]; cbn [fmap list_fmap fst].
    + by rewrite decide_True by apply list_elem_of_here.
    + change (list_fmap _ _ fst ?l) with (l.*1). rewrite IH.
      destruct (decide (operation u ∈ acc.*1)) as [Hin|Hnin].
      * by rewrite decide_True by by apply list_elem_of_further.
      * rewrite decide_False; [done|]. by intros [?|?]%elem_of_cons.
Qed.

Lemma pushGroup_NoDup (acc : list (UpdateOperationType * list FieldUpdate))
    (u : FieldUpdate) :
  NoDup acc.*1 → NoDup (pushGroup acc u).*1.
Proof.
  intros Hnd. rewrite pushGroup_keys. case_decide as Hin; [done|].
  apply NoDup_app. split_and!; [done| |apply NoDup_singleton].
  intros x Hx ->%list_elem_of_singleton. done.
Qed.

Lemma pushGroup_members (acc : list (UpdateOperationType * list FieldUpdate))
    (u : FieldUpdate) (op : UpdateOperationType) :
  membersOf op (pushGroup acc u) =
    membersOf op acc ++ (if decide (operation u = op) then [u] else []).
Proof.
  induction acc as [|[op' us] acc IH]; cbn [pushGroup membersOf].
  - by destruct (decide (operation u = op)).
  - destruct (decide (op' = operation u)) as [->|Hne]; cbn [membersOf].
    + destruct (decide (operation u = op)); [done|]. by rewrite app_nil_r.
    + destruct (decide (op' = op)) as [->|?]; [|done].
      rewrite decide_False by done. by rewrite app_nil_r.
Qed.

Lemma pushGroup_nonempty (acc : list (UpdateOperationType * list FieldUpdate))
    (u : FieldUpdate) :
  Forall (λ g, g.2 ≠ []) acc → Forall (λ g, g.2 ≠ []) (pushGroup acc u).
Proof.
  induction acc as [|[op us] acc IH]; cbn [pushGroup]; intros H.
  - by repeat constructor.
  - apply Forall_cons in H as [H1 H2]. destruct (decide (op = operation u)).
    + constructor; [|done]. cbn. by destruct us.
    + constructor; [done | by apply IH].
Qed.

Lemma foldl_pushGroup (us : list FieldUpdate)
    (acc : list (UpdateOperationType * list FieldUpdate)) :
  NoDup acc.*1 → Forall (λ g, g.2 ≠ []) acc →
  NoDup (foldl pushGroup acc us).*1 ∧
  Forall (λ g, g.2 ≠ []) (foldl pushGroup acc us) ∧
  (∀ op, membersOf op (foldl pushGroup acc us) =
           membersOf op acc ++ filter (λ u, operation u = op) us) ∧
  (∀ op, op ∈ acc.*1 ∨ op ∈ operation <$> us → op ∈ (foldl pushGroup acc us).*1).
Proof.
  revert acc. induction us as [|u us IH]; intros acc Hnd Hne; cbn [foldl].
  - split_and!; [done..| |].
    + intros op. by rewrite app_nil_r.
    + intros op [?|Hin]; [done|]. by apply elem_of_nil in Hin.
  - destruct (IH (pushGroup acc u)) as (H1 & H2 & H3 & H4);
      [by apply pushGroup_NoDup | by apply pushGroup_nonempty |].
    split_and!; [done..| |].
    + intros op. rewrite H3, pushGroup_members, filter_cons, <-app_assoc.
      by destruct (decide (operation u = op)).
    + intros op Hop. apply H4. rewrite pushGroup_keys.
      destruct Hop as [Hop|Hop].
      * left. case_decide; [done|]. apply elem_of_app. by left.
      * rewrite fmap_cons in Hop. apply elem_of_cons in Hop as [->|Hop]; [left | by right].
        case_decide; [done|]. apply elem_of_app. right. apply list_elem_of_here.
Qed.

Lemma membersOf_elem (groups : list (UpdateOperationType * list FieldUpdate))
    (op : UpdateOperationType) (us : list FieldUpdate) :
  NoDup groups.*1 → (op, us) ∈ groups → membersOf op groups = us.
Proof.
  induction groups as [|[op' us'] groups IH]; cbn [membersOf fmap list_fmap fst].
  - by intros _ ?%elem_of_nil.
  - intros [Hnin Hnd]%NoDup_cons [[= -> ->]|Hin]%elem_of_cons.
    + by rewrite decide_True.
    + rewrite decide_False; [by apply IH|].
      intros ->. apply Hnin. change (op ∈ groups.*1).
      apply list_elem_of_fmap. by exists (op, us).
Qed.

Lemma membersOf_split (groups : list (UpdateOperationType * list FieldUpdate))
    (op : UpdateOperationType) :
  op ∈ groups.*1 →
  ∃ G1 G2, groups = G1 ++ (op, membersOf op groups) :: G2.
Proof.
  induction groups as [|[op' us'] groups IH]; cbn [membersOf fmap list_fmap fst].
  - by intros ?%elem_of_nil.
  - intros Hin. destruct (decide (op' = op)) as [->|Hne].
    + by exists [], groups.
    + apply elem_of_cons in Hin as [->|Hin]; [done|].
      destruct (IH Hin) as (G1 & G2 & HG). exists ((op', us') :: G1), G2.
      by rewrite HG at 1.
Qed.

(** The grouped object lists every verb that occurs once, and files under
    it, in their original order, exactly the updates carrying it. *)
Lemma groupUpdates_spec (updates : list FieldUpdate) :
  NoDup (groupUpdates updates).*1 ∧
  Forall (λ g, g.2 ≠ []) (groupUpdates updates) ∧
  (∀ op us, (op, us) ∈ groupUpdates updates →
     us = filter (λ u, operation u = op) updates) ∧
  (∀ u, u ∈ updates → operation u ∈ (groupUpdates updates).*1).
Proof.
  unfold groupUpdates.
  destruct (foldl_pushGroup updates []) as (H1 & H2 & H3 & H4);
    [apply NoDup_nil_2 | done |].
  split_and!; [done..| |].
  - intros op us Hin. by rewrite <-(membersOf_elem _ _ _ H1 Hin), H3.
  - intros u Hu. apply H4. right. by apply list_elem_of_fmap_2.
Qed.

(** *** Clauses *)

Lemma isListAppend_defined (u : FieldUpdate) :
  isListAppend u = true → isUndefined (value u) = false.
Proof.
  unfold isListAppend, isSetOfObject.
  destruct (value u); try done; by destruct (bool_decide _).
Qed.

Lemma isListPrepend_defined (u : FieldUpdate) :
  isListPrepend u = true → isUndefined (value u) = false.
Proof.
  unfold isListPrepend, isSetOfObject.
  destruct (value u); try done; by destruct (bool_decide _).
Qed.

Lemma handlerAfter_snoc (earlier : list FieldUpdate) (u : FieldUpdate) :
  handlerAfter (earlier ++ [u]) =
    (ExpressionAttributeHandler.getExpressionAttributeName (field u)
       (handlerAfter earlier)).2.
Proof. unfold handlerAfter. by rewrite fmap_app, foldl_app. Qed.

Lemma placeholderNumber_snoc (earlier : list FieldUpdate) (u : FieldUpdate) :
  placeholderNumber (earlier ++ [u]) =
    if isUndefined (value u) then placeholderNumber earlier
    else S (placeholderNumber earlier).
Proof.
  unfold placeholderNumber. rewrite filter_app, length_app.
  destruct (isUndefined (value u)) eqn:E.
  - rewrite filter_cons_False by (rewrite E; done). cbn. lia.
  - rewrite filter_cons_True by done. cbn. lia.
Qed.

Lemma compileMember_at (op : UpdateOperationType) (st : CompileState)
    (earlier : list FieldUpdate) (u : FieldUpdate) :
  tracks st earlier →
  clauseAt op earlier u (compileMember op st u).1 ∧
  tracks (compileMember op st u).2 (earlier ++ [u]).
Proof.
  intros [Hh Hn]. unfold clauseAt, tracks.
  rewrite handlerAfter_snoc, placeholderNumber_snoc, <-Hh, <-Hn.
  unfold compileMember, isPlain.
  destruct (ExpressionAttributeHandler.getExpressionAttributeName _ _) as [name h].
  cbn [fst snd].
  destruct (isUndefined (value u)) eqn:Eu; cbn [fst snd negb andb expressionHandler valueCounter].
  { split_and!; try done.
    - intros Ha. apply isListAppend_defined in Ha. congruence.
    - intros _ Hp. apply isListPrepend_defined in Hp. congruence. }
  destruct (isListAppend u) eqn:Ea; cbn [fst snd negb andb expressionHandler valueCounter];
    [by split_and!|].
  destruct (isListPrepend u) eqn:Ep; cbn [fst snd negb andb expressionHandler valueCounter];
    [by split_and!|].
  split_and!; try done. intros _. by destruct op.
Qed.

Lemma compileMembers_at (op : UpdateOperationType) (us : list FieldUpdate)
    (st : CompileState) (earlier : list FieldUpdate) :
  tracks st earlier →
  tracks (compileMembers op st us).2 (earlier ++ us) ∧
  ∀ l1 u l2, us = l1 ++ u :: l2 →
    ∃ clause, (compileMembers op st us).1 !! length l1 = Some clause ∧
              clauseAt op (earlier ++ l1) u clause.
Proof.
  revert st earlier. induction us as [|u0 us IH]; intros st earlier Ht;
    cbn [compileMembers].
  - rewrite app_nil_r. split; [done|]. intros l1 u l2 H. by destruct l1.
  - destruct (compileMember_at op st earlier u0 Ht) as [Hc Ht1].
    destruct (compileMember op st u0) as [c st1]. cbn [fst snd] in *.
    destruct (IH st1 (earlier ++ [u0]) Ht1) as [Ht2 Hrest].
    destruct (compileMembers op st1 us) as [cs st2]. cbn [fst snd] in *.
    rewrite <-app_assoc in Ht2. split; [done|].
    intros l1 u l2 H. destruct l1 as [|x l1]; cbn [app length] in *.
    + injection H as <- <-. exists c. by rewrite app_nil_r.
    + injection H as <- ->. destruct (Hrest l1 u l2 eq_refl) as (clause & H1 & H2).
      exists clause. split; [done|]. by rewrite <-app_assoc in H2.
Qed.

Lemma compileGroups_clauses (groups : list (UpdateOperationType * list FieldUpdate))
    (st : CompileState) :
  Forall (λ g, g.2 ≠ []) groups →
  (compileGroups st groups).1 = zip_with groupPart groups (groupClauses st groups).
Proof.
  revert st. induction groups as [|[op us] groups IH]; intros st Hne;
    cbn [compileGroups groupClauses zip_with]; [done|].
  apply Forall_cons in Hne as [Hus Hne]. cbn in Hus.
  specialize (IH (compileMembers op st us).2 Hne). unfold compileGroup.
  destruct us as [|u us]; [done|].
  destruct (compileMembers op st (u :: us)) as [cs st1]. cbn [fst snd] in *.
  destruct (compileGroups st1 groups) as [parts st2]. cbn [fst snd from_option app] in *.
  by rewrite IH.
Qed.

Lemma compileMembers_length (op : UpdateOperationType) (us : list FieldUpdate)
    (st : CompileState) :
  length (compileMembers op st us).1 = length us.
Proof.
  revert st. induction us as [|u us IH]; intros st; cbn [compileMembers]; [done|].
  destruct (compileMember op st u) as [c st1]. specialize (IH st1).
  destruct (compileMembers op st1 us) as [cs st2]. cbn [fst length] in *.
  by rewrite IH.
Qed.

Lemma groupClauses_lengths (groups : list (UpdateOperationType * list FieldUpdate))
    (st : CompileState) :
  Forall2 (λ g cs, length cs = length g.2) groups (groupClauses st groups).
Proof.
  revert st. induction groups as [|[op us] groups IH]; intros st; cbn [groupClauses].
  - constructor.
  - constructor; [apply compileMembers_length | apply IH].
Qed.

Lemma compileGroups_handler (groups : list (UpdateOperationType * list FieldUpdate))
    (st : CompileState) :
  (compileGroups st groups).2 =
    foldl (λ st g, (compileMembers g.1 st g.2).2) st groups.
Proof.
  revert st. induction groups as [|[op us] groups IH]; intros st;
    cbn [compileGroups foldl]; [done|].
  unfold compileGroup. cbn [fst snd]. destruct us as [|u us].
  - specialize (IH st). destruct (compileGroups st groups) as [parts st2].
    cbn [fst snd compileMembers]. exact IH.
  - destruct (compileMembers op st (u :: us)) as [cs st1] eqn:E.
    specialize (IH st1). destruct (compileGroups st1 groups). cbn [fst snd] in *.
    done.
Qed.

Lemma groupClauses_at (groups : list (UpdateOperationType * list FieldUpdate))
    (st : CompileState) (earlier : list FieldUpdate) :
  tracks st earlier →
  tracks (compileGroups st groups).2 (earlier ++ concat groups.*2) ∧
  ∀ G1 op l1 u l2 G2, groups = G1 ++ (op, l1 ++ u :: l2) :: G2 →
    ∃ cs clause, groupClauses st groups !! length G1 = Some cs ∧
                 cs !! length l1 = Some clause ∧
                 clauseAt op (earlier ++ concat G1.*2 ++ l1) u clause.
Proof.
  rewrite compileGroups_handler.
  revert st earlier. induction groups as [|[op0 us0] groups IH]; intros st earlier Ht;
    cbn [groupClauses foldl fmap list_fmap snd concat].
  - rewrite app_nil_r. split; [done|]. intros G1 ? ? ? ? ? H. by destruct G1.
  - destruct (compileMembers_at op0 us0 st earlier Ht) as [Ht1 Hhere].
    change (list_fmap _ _ snd ?l) with (l.*2).
    destruct (IH (compileMembers op0 st us0).2 (earlier ++ us0) Ht1) as [Ht2 Hrest].
    rewrite <-app_assoc in Ht2. split; [done|].
    intros G1 op l1 u l2 G2 H. destruct G1 as [|g G1]; cbn [app length] in *.
    + injection H as -> -> <-. destruct (Hhere l1 u l2 eq_refl) as (clause & H1 & H2).
      exists (compileMembers op st (l1 ++ u :: l2)).1, clause. by split_and!.
    + injection H as <- ->. destruct (Hrest G1 op l1 u l2 G2 eq_refl)
        as (cs & clause & H1 & H2 & H3).
      exists cs, clause. split_and!; [done..|].
      rewrite fmap_cons. cbn [snd concat]. by rewrite <-!app_assoc in *.
Qed.

Lemma tracks_initial : tracks initialState [].
Proof. done. Qed.

(** The groups are in the order in which their verbs first occur. *)
Lemma pushGroup_first (acc : list (UpdateOperationType * list FieldUpdate))
    (done' : list FieldUpdate) (u : FieldUpdate) :
  (∀ K1 op K2, acc.*1 = K1 ++ op :: K2 →
     ∃ l1 x l2, done' = l1 ++ x :: l2 ∧ operation x = op ∧
                ∀ y, y ∈ l1 → operation y ∈ K1) →
  (∀ y, y ∈ done' → operation y ∈ acc.*1) →
  (∀ K1 op K2, (pushGroup acc u).*1 = K1 ++ op :: K2 →
     ∃ l1 x l2, done' ++ [u] = l1 ++ x :: l2 ∧ operation x = op ∧
                ∀ y, y ∈ l1 → operation y ∈ K1) ∧
  (∀ y, y ∈ done' ++ [u] → operation y ∈ (pushGroup acc u).*1).
Proof.
  intros Hfirst Hall. rewrite pushGroup_keys.
  destruct (decide (operation u ∈ acc.*1)) as [Hin|Hnin].
  - split.
    + intros K1 op K2 HK. destruct (Hfirst K1 op K2 HK) as (l1 & x & l2 & -> & Hx & Hl1).
      exists l1, x, (l2 ++ [u]). by rewrite <-app_assoc.
    + intros y [Hy| ->%list_elem_of_singleton]%elem_of_app; [by apply Hall | done].
  - split.
    + intros K1 op K2 HK.
      destruct K2 as [|k K2 _] using rev_ind.
      * apply app_inj_tail in HK as [HK1 HK2].
        exists done', u, []. split_and!; [done..|]. intros y Hy. rewrite <-HK1.
        by apply Hall.
      * rewrite app_comm_cons, app_assoc in HK. apply app_inj_tail in HK as [HK _].
        destruct (Hfirst K1 op K2 HK) as (l1 & x & l2 & -> & Hx & Hl1).
        exists l1, x, (l2 ++ [u]). by rewrite <-app_assoc.
    + intros y [Hy| ->%list_elem_of_singleton]%elem_of_app; apply elem_of_app.
      * left. by apply Hall.
      * right. apply list_elem_of_here.
Qed.

Lemma foldl_pushGroup_first (us : list FieldUpdate)
    (acc : list (UpdateOperationType * list FieldUpdate)) (done' : list FieldUpdate) :
  (∀ K1 op K2, acc.*1 = K1 ++ op :: K2 →
     ∃ l1 x l2, done' = l1 ++ x :: l2 ∧ operation x = op ∧
                ∀ y, y ∈ l1 → operation y ∈ K1) →
  (∀ y, y ∈ done' → operation y ∈ acc.*1) →
  ∀ K1 op K2, (foldl pushGroup acc us).*1 = K1 ++ op :: K2 →
     ∃ l1 x l2, done' ++ us = l1 ++ x :: l2 ∧ operation x = op ∧
                ∀ y, y ∈ l1 → operation y ∈ K1.
Proof.
  revert acc done'. induction us as [|u us IH]; intros acc done' Hfirst Hall;
    cbn [foldl].
  - by rewrite app_nil_r.
  - destruct (pushGroup_first acc done' u Hfirst Hall) as [H1 H2].
    intros K1 op K2 HK. specialize (IH _ _ H1 H2 K1 op K2 HK).
    by rewrite <-app_assoc in IH.
Qed.

Lemma groupUpdates_first (updates : list FieldUpdate)
    (G1 G2 : list (UpdateOperationType * list FieldUpdate))
    (op : UpdateOperationType) (us : list FieldUpdate) :
  groupUpdates updates = G1 ++ (op, us) :: G2 →
  ∃ l1 u l2, updates = l1 ++ u :: l2 ∧ operation u = op ∧
             ∀ x, x ∈ l1 → operation x ∈ G1.*1.
Proof.
  intros HG. apply (foldl_pushGroup_first updates [] [] ) with (K2 := G2.*1).
  - intros K1 ? K2 H. by destruct K1.
  - by intros y ?%elem_of_nil.
  - fold (groupUpdates updates). by rewrite HG, fmap_app, fmap_cons.
Qed.

(** C2, as the code has it. The grouped object has one entry for each verb
    that occurs, holding the updates with that verb in their original
    order, and the entries are in the order in which their verbs first
    occur in the update array. The update expression is the groups' parts
    joined with one space, a part being the verb, a space, and the
    members' clauses, one for each member, joined with [", "]. A member
    without a value compiles to the bare name whatever its verb; a member
    with a value that is not a list marker compiles to [name = :valN]
    under SET, [name :valN] under ADD and DELETE, and the bare [name]
    under REMOVE. Here [name] is what the handler resolves the member's
    field to, having resolved the fields of the members compiled before it
    (group after group, member after member), and [N] is one more than
    the number of those earlier members that have a value. The names sent
    with the command are those of the handler after the last member. *)
Theorem update_expression_shape (tableName : string) (key : list (string * JsValue))
    (updates : list FieldUpdate) (options : UpdateOptions) :
  let groups := groupUpdates updates in
  let command := updateCommand tableName key updates options in
  NoDup groups.*1 ∧
  (∀ u, u ∈ updates → operation u ∈ groups.*1) ∧
  (∀ op us, (op, us) ∈ groups →
     us ≠ [] ∧ us = filter (λ u, operation u = op) updates) ∧
  (∀ G1 op us G2, groups = G1 ++ (op, us) :: G2 →
     ∃ l1 u l2, updates = l1 ++ u :: l2 ∧ operation u = op ∧
                ∀ x, x ∈ l1 → operation x ∈ G1.*1) ∧
  (∃ clauses : list (list string),
     Forall2 (λ g cs, length cs = length g.2) groups clauses ∧
     (∀ G1 op l1 u l2 G2, groups = G1 ++ (op, l1 ++ u :: l2) :: G2 →
        ∃ cs clause, clauses !! length G1 = Some cs ∧
                     cs !! length l1 = Some clause ∧
                     clauseAt op (concat G1.*2 ++ l1) u clause) ∧
     UpdateExpression command = join " " (zip_with groupPart groups clauses)) ∧
  ExpressionAttributeNames command =
    ExpressionAttributeHandler.getExpressionAttributeNames
      (handlerAfter (concat groups.*2)).
Proof.
  intros groups command.
  destruct (groupUpdates_spec updates) as (Hnd & Hne & Hmem & Hkeys).
  destruct (groupClauses_at groups initialState [] tracks_initial) as [[Hh _] Hat].
  split_and!; [done|done| | | |].
  - intros op us Hin. split; [|by apply Hmem].
    by apply (proj1 (Forall_forall _ _) Hne (op, us)).
  - intros G1 op us G2. apply groupUpdates_first.
  - exists (groupClauses initialState groups). split_and!.
    + apply groupClauses_lengths.
    + exact Hat.
    + subst command. unfold updateCommand. fold groups.
      pose proof (compileGroups_clauses groups initialState Hne) as Hparts.
      destruct (compileGroups initialState groups) as [parts st]. cbn in *.
      by rewrite Hparts.
  - subst command. unfold updateCommand. fold groups.
    destruct (compileGroups initialState groups) as [parts st]. cbn in *.
    by rewrite Hh.
Qed.

Lemma update_expression_shape_witness :
  let updates :=
    [ {| field := "count"; value := JNumber 1; operation := ADD |};
      {| field := "name"; value := JString "Ann"; operation := SET |};
      {| field := "views"; value := JNumber 2; operation := ADD |};
      {| field := "status"; value := JUndefined; operation := REMOVE |};
      {| field := "nick"; value := JUndefined; operation := SET |} ] in
  let command := updateCommand "users" [("id", JString "1")] updates noOptions in
  UpdateExpression command = "ADD #n1 :val1, #n2 :val2 SET #n3 = :val3, nick REMOVE #n4" ∧
  (groupUpdates updates).*1 = [ADD; SET; REMOVE] ∧
  ∃ clauses cs clause,
    clauses !! 1 = Some cs ∧ cs !! 0 = Some clause ∧ clause = "#n3 = :val3" ∧
    UpdateExpression command = join " " (zip_with groupPart (groupUpdates updates) clauses).
Proof.
  cbn zeta. split; [by vm_compute|]. split; [by vm_compute|].
  destruct (update_expression_shape "users" [("id", JString "1")]
              [ {| field := "count"; value := JNumber 1; operation := ADD |};
                {| field := "name"; value := JString "Ann"; operation := SET |};
                {| field := "views"; value := JNumber 2; operation := ADD |};
                {| field := "status"; value := JUndefined; operation := REMOVE |};
                {| field := "nick"; value := JUndefined; operation := SET |} ]
              noOptions) as (_ & _ & _ & _ & (clauses & _ & Hat & Hexpr) & _).
  destruct (Hat [ (ADD, [ {| field := "count"; value := JNumber 1; operation := ADD |};
                          {| field := "views"; value := JNumber 2; operation := ADD |} ]) ]
                SET []
                {| field := "name"; value := JString "Ann"; operation := SET |}
                [ {| field := "nick"; value := JUndefined; operation := SET |} ]
                [ (REMOVE, [ {| field := "status"; value := JUndefined;
                                operation := REMOVE |} ]) ]
                eq_refl) as (cs & clause & H1 & H2 & _ & Hplain & _).
  exists clauses, cs, clause. split_and!; [exact H1 | exact H2 | | exact Hexpr].
  exact (Hplain eq_refl).
Defined.

(** C2 fails as stated: a SET member that carries no value compiles to the
    bare field name, not to [field = :valN]. *)
Lemma set_without_value_is_bare :
  UpdateExpression
    (updateCommand "users" [("id", JString "1")]
       [ {| field := "a"; value := JUndefined; operation := SET |} ] noOptions)
  = "SET a"
  ∧ ¬ ∃ (name : string) (n : nat),
        UpdateExpression
          (updateCommand "users" [("id", JString "1")]
             [ {| field := "a"; value := JUndefined; operation := SET |} ] noOptions)
        = "SET " +:+ name +:+ " = :val" +:+ pretty n.
Proof.
  assert (UpdateExpression
    (updateCommand "users" [("id", JString "1")]
       [ {| field := "a"; value := JUndefined; operation := SET |} ] noOptions)
    = "SET a") as E by by vm_compute.
  split; [done|]. rewrite E. intros (name & n & H).
  destruct name as [|c [|c' name]]; cbn in H; discriminate.
Qed.

(** *** The value map *)

Lemma wfState_initial : wfState initialState.
Proof. intros k. cbn. rewrite lookup_empty. by intros [? ?]. Qed.

Lemma valueKey_mono (n m : nat) (k : string) : n ≤ m → valueKey n k → valueKey m k.
Proof. intros Hle (j & Hj & Hk). exists j. split; [lia | done]. Qed.

(** A placeholder numbered [valueCounter + 1] is not bound yet. *)
Lemma next_key_fresh (st : CompileState) (k : string) :
  wfState st →
  k = ":val" +:+ pretty (S (valueCounter st))
  ∨ k = ":items" +:+ pretty (S (valueCounter st))
  ∨ k = ":empty" +:+ pretty (S (valueCounter st)) →
  expressionValues st !! k = None.
Proof.
  intros Hwf Hk. apply eq_None_not_Some. intros (j & Hj & Hkj)%Hwf.
  assert (pretty j = pretty (S (valueCounter st))) as Heq.
  { destruct Hk as [-> | [-> | ->]], Hkj as [H | [H | H]]; cbn in H; by simplify_eq. }
  apply (inj pretty) in Heq. lia.
Qed.

Lemma advances_refl (st : CompileState) : wfState st → advances st st [].
Proof. intros Hwf. split_and!; [done..|]. cbn. lia. Qed.

Lemma advances_trans (st1 st2 st3 : CompileState) (l1 l2 : list FieldUpdate) :
  advances st1 st2 l1 → advances st2 st3 l2 → advances st1 st3 (l1 ++ l2).
Proof.
  intros (_ & Hs1 & Hc1 & Hz1) (Hwf & Hs2 & Hc2 & Hz2).
  split_and!; [done | by etrans | lia |].
  rewrite sum_list_with_app. lia.
Qed.

Lemma insert_wfState (st : CompileState) (h : ExpressionAttributeHandler.t)
    (m : gmap string JsValue) :
  wfState st →
  (∀ k, is_Some (m !! k) →
        is_Some (expressionValues st !! k) ∨ valueKey (S (valueCounter st)) k) →
  wfState {| expressionHandler := h; expressionValues := m;
             valueCounter := S (valueCounter st) |}.
Proof.
  intros Hwf Hm k Hk. cbn in *. destruct (Hm k Hk) as [Hold|Hnew]; [|done].
  apply (valueKey_mono (valueCounter st)); [lia | by apply Hwf].
Qed.

Lemma marker_insert_advances (st : CompileState) (h : ExpressionAttributeHandler.t)
    (u : FieldUpdate) (items : JsValue) :
  wfState st → placeholderCount u = 2 →
  advances st
    {| expressionHandler := h;
       expressionValues :=
         <[":empty" +:+ pretty (S (valueCounter st)) := JArray []]>
           (<[":items" +:+ pretty (S (valueCounter st)) := items]>
              (expressionValues st));
       valueCounter := S (valueCounter st) |} [u].
Proof.
  intros Hwf Hcount.
  assert (expressionValues st !! (":items" +:+ pretty (S (valueCounter st))) = None)
    as Hi by (apply next_key_fresh; auto).
  assert (expressionValues st !! (":empty" +:+ pretty (S (valueCounter st))) = None)
    as He by (apply next_key_fresh; auto).
  assert ((<[":items" +:+ pretty (S (valueCounter st)) := items]>
             (expressionValues st)) !! (":empty" +:+ pretty (S (valueCounter st)))
          = None) as He'.
  { rewrite lookup_insert_ne; [done|]. cbn. intros ?. by simplify_eq. }
  split_and!; cbn [expressionValues valueCounter].
  - apply insert_wfState; [done|]. intros k.
    rewrite !lookup_insert. repeat case_decide; subst; intros Hk.
    + right. exists (S (valueCounter st)). split; [lia | auto].
    + right. exists (S (valueCounter st)). split; [lia | auto].
    + by left.
  - etrans; [exact (insert_subseteq _ _ items Hi) | by apply insert_subseteq].
  - lia.
  - rewrite !map_size_insert_None by done. cbn [sum_list_with]. rewrite Hcount. lia.
Qed.

Lemma compileMember_advances (op : UpdateOperationType) (st : CompileState)
    (u : FieldUpdate) :
  wfState st → advances st (compileMember op st u).2 [u].
Proof.
  intros Hwf. unfold compileMember.
  destruct (ExpressionAttributeHandler.getExpressionAttributeName _ _) as [name h].
  destruct (isUndefined (value u)) eqn:Eu; cbn [snd].
  { split_and!; [done..|]. cbn [sum_list_with expressionValues].
    unfold placeholderCount. rewrite Eu. lia. }
  destruct (isListAppend u) eqn:Ea; cbn [snd].
  { apply marker_insert_advances; [done|]. unfold placeholderCount. by rewrite Eu, Ea. }
  destruct (isListPrepend u) eqn:Ep; cbn [snd].
  { apply marker_insert_advances; [done|]. unfold placeholderCount. by rewrite Eu, Ea, Ep. }
  assert (expressionValues st !! (":val" +:+ pretty (S (valueCounter st))) = None)
    as Hv by (apply next_key_fresh; auto).
  split_and!; cbn [expressionValues valueCounter].
  - apply insert_wfState; [done|]. intros k.
    rewrite lookup_insert. case_decide; subst; intros Hk; [|by left].
    right. exists (S (valueCounter st)). split; [lia | auto].
  - by apply insert_subseteq.
  - lia.
  - rewrite map_size_insert_None by done. cbn [sum_list_with].
    unfold placeholderCount. rewrite Eu, Ea, Ep. cbn. lia.
Qed.

Lemma compileMembers_advances (op : UpdateOperationType) (us : list FieldUpdate)
    (st : CompileState) :
  wfState st → advances st (compileMembers op st us).2 us.
Proof.
  revert st. induction us as [|u us IH]; intros st Hwf; cbn [compileMembers].
  - by apply advances_refl.
  - pose proof (compileMember_advances op st u Hwf) as H1.
    destruct (compileMember op st u) as [c st1]. cbn [snd] in H1.
    pose proof (IH st1 (proj1 H1)) as H2.
    destruct (compileMembers op st1 us) as [cs st2]. cbn [snd] in *.
    exact (advances_trans st st1 st2 [u] us H1 H2).
Qed.

Lemma compileGroups_advances (groups : list (UpdateOperationType * list FieldUpdate))
    (st : CompileState) :
  wfState st → advances st (compileGroups st groups).2 (concat groups.*2).
Proof.
  revert st. induction groups as [|[op us] groups IH]; intros st Hwf;
    cbn [compileGroups].
  - by apply advances_refl.
  - assert (advances st (compileGroup st (op, us)).2 us) as H1.
    { unfold compileGroup. destruct us as [|u us]; [by apply advances_refl|].
      pose proof (compileMembers_advances op (u :: us) st Hwf) as H.
      by destruct (compileMembers op st (u :: us)). }
    destruct (compileGroup st (op, us)) as [part st1]. cbn [snd] in H1.
    pose proof (IH st1 (proj1 H1)) as H2.
    destruct (compileGroups st1 groups) as [parts st2]. cbn [snd] in *.
    exact (advances_trans st st1 st2 us (concat groups.*2) H1 H2).
Qed.

Lemma pushGroup_perm (acc : list (UpdateOperationType * list FieldUpdate))
    (u : FieldUpdate) :
  concat (pushGroup acc u).*2 ≡ₚ concat acc.*2 ++ [u].
Proof.
  induction acc as [|[op us] acc IH]; cbn [pushGroup].
  - done.
  - destruct (decide (op = operation u)); cbn [fmap list_fmap snd concat].
    + rewrite <-!app_assoc. f_equiv. apply (comm app).
    + change (list_fmap _ _ snd ?l) with (l.*2). by rewrite IH, app_assoc.
Qed.

Lemma foldl_pushGroup_perm (us : list FieldUpdate)
    (acc : list (UpdateOperationType * list FieldUpdate)) :
  concat (foldl pushGroup acc us).*2 ≡ₚ concat acc.*2 ++ us.
Proof.
  revert acc. induction us as [|u us IH]; intros acc; cbn [foldl].
  - by rewrite app_nil_r.
  - by rewrite IH, pushGroup_perm, <-app_assoc.
Qed.

Lemma mergeValues_lookup_notin (entries : list (string * JsValue))
    (m : gmap string JsValue) (k : string) :
  k ∉ entries.*1 → mergeValues entries m !! k = m !! k.
Proof.
  unfold mergeValues. revert m.
  induction entries as [|[k' v] entries IH]; intros m Hk; cbn [foldl]; [done|].
  rewrite fmap_cons in Hk. apply not_elem_of_cons in Hk as [Hne Hk].
  rewrite IH by done. unfold assignValue. cbn [fst snd].
  destruct (String.eqb k' "__proto__"); [done|]. by apply lookup_insert_ne.
Qed.

Lemma mergeValues_is_Some (entries : list (string * JsValue))
    (m : gmap string JsValue) (k : string) :
  is_Some (m !! k) → is_Some (mergeValues entries m !! k).
Proof.
  unfold mergeValues. revert m.
  induction entries as [|[k' v] entries IH]; intros m Hk; cbn [foldl]; [done|].
  apply IH. unfold assignValue. cbn [fst snd].
  destruct (String.eqb k' "__proto__"); [done|].
  apply lookup_insert_is_Some'. by right.
Qed.

(** *** Compiling a list is compiling its two halves in turn *)

Lemma compileMembers_app (op : UpdateOperationType) (a b : list FieldUpdate)
    (st : CompileState) :
  compileMembers op st (a ++ b) =
    ((compileMembers op st a).1
       ++ (compileMembers op (compileMembers op st a).2 b).1,
     (compileMembers op (compileMembers op st a).2 b).2).
Proof.
  revert st. induction a as [|u a IH]; intros st; cbn [compileMembers app fst snd].
  - by destruct (compileMembers op st b).
  - destruct (compileMember op st u) as [c st1]. rewrite IH.
    by destruct (compileMembers op st1 a) as [ca st2].
Qed.

Lemma compileGroups_app (G1 G2 : list (UpdateOperationType * list FieldUpdate))
    (st : CompileState) :
  compileGroups st (G1 ++ G2) =
    ((compileGroups st G1).1 ++ (compileGroups (compileGroups st G1).2 G2).1,
     (compileGroups (compileGroups st G1).2 G2).2).
Proof.
  revert st. induction G1 as [|g G1 IH]; intros st; cbn [compileGroups app fst snd].
  - by destruct (compileGroups st G2).
  - destruct (compileGroup st g) as [part st1]. rewrite IH.
    destruct (compileGroups st1 G1) as [parts st2]. cbn [fst snd].
    by rewrite app_assoc.
Qed.

(** *** List-append and list-prepend members *)

Lemma compileGroup_nonempty (op : UpdateOperationType) (us : list FieldUpdate)
    (st : CompileState) :
  us ≠ [] →
  compileGroup st (op, us) =
    (Some (verb op +:+ " " +:+ join ", " (compileMembers op st us).1),
     (compileMembers op st us).2).
Proof.
  intros Hus. unfold compileGroup. destruct us as [|u us]; [done|].
  by destruct (compileMembers op st (u :: us)).
Qed.

Lemma compileMember_marker (op : UpdateOperationType) (st : CompileState)
    (u : FieldUpdate) :
  isListAppend u || isListPrepend u = true →
  let name := (ExpressionAttributeHandler.getExpressionAttributeName
                 (field u) (expressionHandler st)).1 in
  let n := S (valueCounter st) in
  (compileMember op st u).1 =
    (if isListAppend u then appendClause name n else prependClause name n) ∧
  expressionValues (compileMember op st u).2 !! (":items" +:+ pretty n)
    = Some (getProp (value u) "items") ∧
  expressionValues (compileMember op st u).2 !! (":empty" +:+ pretty n)
    = Some (JArray []).
Proof.
  intros Hm name n. subst name n. unfold compileMember.
  destruct (ExpressionAttributeHandler.getExpressionAttributeName _ _) as [name h].
  cbn [fst].
  assert (isUndefined (value u) = false) as ->.
  { apply orb_true_iff in Hm as [H|H];
      [by apply isListAppend_defined | by apply isListPrepend_defined]. }
  assert (∀ (m : gmap string JsValue) k1 k2 v1 v2,
            k1 ≠ k2 → <[k2 := v2]> (<[k1 := v1]> m) !! k1 = Some v1) as Hins.
  { intros m k1 k2 v1 v2 Hne. by rewrite lookup_insert_ne, lookup_insert_eq. }
  assert (":items" +:+ pretty (S (valueCounter st))
          ≠ ":empty" +:+ pretty (S (valueCounter st))) as Hne.
  { cbn. intros ?. by simplify_eq. }
  destruct (isListAppend u) eqn:Ea; cbn [fst snd expressionValues].
  { split_and!; [done | by apply Hins | by apply lookup_insert_eq]. }
  cbn in Hm. rewrite Hm. cbn [fst snd expressionValues].
  split_and!; [done | by apply Hins | by apply lookup_insert_eq].
Qed.

Lemma marker_member_compiles (l1 l2 : list FieldUpdate) (u : FieldUpdate) :
  operation u = SET →
  isListAppend u || isListPrepend u = true →
  ∃ (h : ExpressionAttributeHandler.t) (n : nat) (before after parts1 parts2 : list string),
    let name := (ExpressionAttributeHandler.getExpressionAttributeName (field u) h).1 in
    (compileGroups initialState (groupUpdates (l1 ++ u :: l2))).1 =
      parts1
        ++ ("SET " +:+ join ", "
              (before
                 ++ (if isListAppend u then appendClause name n
                     else prependClause name n) :: after))
        :: parts2 ∧
    expressionValues (compileGroups initialState (groupUpdates (l1 ++ u :: l2))).2
      !! (":items" +:+ pretty n) = Some (getProp (value u) "items") ∧
    expressionValues (compileGroups initialState (groupUpdates (l1 ++ u :: l2))).2
      !! (":empty" +:+ pretty n) = Some (JArray []).
Proof.
  intros Hop Hm. unfold groupUpdates.
  destruct (foldl_pushGroup (l1 ++ u :: l2) []) as (_ & _ & Hmem & Hkeys);
    [apply NoDup_nil_2 | done |].
  assert (SET ∈ (foldl pushGroup [] (l1 ++ u :: l2)).*1) as Hin.
  { apply Hkeys. right. rewrite <-Hop. apply list_elem_of_fmap_2.
    apply elem_of_app. right. apply list_elem_of_here. }
  destruct (membersOf_split _ _ Hin) as (G1 & G2 & HG).
  rewrite Hmem in HG. cbn [membersOf app] in HG.
  rewrite filter_app, filter_cons_True in HG by done.
  set (m1 := filter (λ u, operation u = SET) l1) in HG.
  set (m2 := filter (λ u, operation u = SET) l2) in HG.
  rewrite HG, compileGroups_app. cbn [fst snd compileGroups].
  pose proof (compileGroups_advances G1 initialState wfState_initial) as (Hwf1 & _).
  set (st1 := (compileGroups initialState G1).2) in *.
  rewrite compileGroup_nonempty by by destruct m1.
  rewrite compileMembers_app. cbn [fst snd compileMembers].
  pose proof (compileMembers_advances SET m1 st1 Hwf1) as (Hwfa & _).
  set (sta := (compileMembers SET st1 m1).2) in *.
  destruct (compileMember_marker SET sta u Hm) as (Hc & Hi & He).
  pose proof (compileMember_advances SET sta u Hwfa) as (Hwfb & _).
  destruct (compileMember SET sta u) as [c stb]. cbn [fst snd] in *.
  pose proof (compileMembers_advances SET m2 stb Hwfb) as (Hwfc & Hsub2 & _).
  destruct (compileMembers SET stb m2) as [cs2 stc]. cbn [fst snd] in *.
  pose proof (compileGroups_advances G2 stc Hwfc) as (_ & Hsub3 & _).
  destruct (compileGroups stc G2) as [parts2 std]. cbn [fst snd from_option app] in *.
  exists (expressionHandler sta), (S (valueCounter sta)),
    (compileMembers SET st1 m1).1, cs2, (compileGroups initialState G1).1, parts2.
  cbn zeta. rewrite <-Hc. split_and!; [done| |].
  - eapply lookup_weaken; [|exact Hsub3]. by eapply lookup_weaken.
  - eapply lookup_weaken; [|exact Hsub3]. by eapply lookup_weaken.
Qed.

Lemma word_char_not_separator (c : ascii) :
  isWordChar c = true →
  Ascii.eqb "." c = false ∧ Ascii.eqb "-" c = false ∧ Ascii.eqb " " c = false.
Proof. by destruct c as [[] [] [] [] [] [] [] []]. Qed.

Lemma word_string_no_separator (s : string) :
  forallChars isWordChar s = true →
  includes "." s = false ∧ includes "-" s = false ∧ includes " " s = false.
Proof.
  unfold includes. induction s as [|c s IH]; cbn [existsChar forallChars]; [done|].
  intros [Hc Hs]%andb_true_iff.
  destruct (word_char_not_separator c Hc) as (-> & -> & ->).
  by destruct (IH Hs) as (-> & -> & ->).
Qed.

(** A field name that passed the builder's validation and is not a
    reserved word is emitted as it is. *)
Lemma plain_field_name (f : string) (h : ExpressionAttributeHandler.t) :
  Builder.validateFieldName f = Ok tt →
  ExpressionAttributeHandler.isReservedWord f = false →
  ExpressionAttributeHandler.getExpressionAttributeName f h = (f, h).
Proof.
  unfold Builder.validateFieldName, ensure, matchesFieldPattern. intros Hv Hr.
  destruct (negb (String.eqb f "")); [|done]. cbn in Hv.
  destruct (forallChars isWordChar f) eqn:Hw; [|done].
  destruct (word_string_no_separator f Hw) as (Hdot & Hdash & Hspace).
  unfold ExpressionAttributeHandler.getExpressionAttributeName.
  rewrite (split_without_separator "." f Hdot). cbn.
  unfold ExpressionAttributeHandler.resolvePart,
    ExpressionAttributeHandler.needsPlaceholder.
  by rewrite Hr, Hdash, Hspace.
Qed.

(** The older builder's [appendToList] does not use the marker: compiled,
    its three entries are three plain SET clauses. *)
Lemma legacy_appendToList_compiles_plain :
  UpdateExpression
    (updateCommand "users" []
       (LegacyBuilder.getUpdates
          (LegacyBuilder.appendToList "interests" (JArray [JString "gaming"])
             LegacyBuilder.new))
       noOptions)
  = "SET interests = :val1, :empty_list = :val2, :items = :val3".
Proof. by vm_compute. Qed.

Lemma appendToList_pushes (f : string) (item : JsValue) (b b' : Builder.t) :
  Builder.appendToList f item b = Ok b' →
  Builder.updates b' =
    Builder.updates b
      ++ [ {| field := f; value := Builder.listAppendMarker item; operation := SET |} ].
Proof.
  unfold Builder.appendToList, Builder.push, mbind, Result_bind. intros H.
  repeat (case_match; try discriminate). by simplify_eq.
Qed.

Lemma prependToList_pushes (f : string) (item : JsValue) (b b' : Builder.t) :
  Builder.prependToList f item b = Ok b' →
  Builder.updates b' =
    Builder.updates b
      ++ [ {| field := f; value := Builder.listPrependMarker item; operation := SET |} ].
Proof.
  unfold Builder.prependToList, Builder.push, mbind, Result_bind. intros H.
  repeat (case_match; try discriminate). by simplify_eq.
Qed.

Lemma value_map_size (tableName : string) (key : list (string * JsValue))
    (updates : list FieldUpdate) :
  size (default ∅ (ExpressionAttributeValues
                     (updateCommand tableName key updates noOptions)))
  = sum_list_with placeholderCount updates.
Proof.
  unfold updateCommand.
  pose proof (compileGroups_advances (groupUpdates updates) initialState wfState_initial)
    as (_ & _ & _ & Hsize).
  destruct (compileGroups initialState (groupUpdates updates)) as [parts st].
  cbn [snd ExpressionAttributeValues conditionEntries noOptions condition mergeValues
       foldl] in *.
  unfold groupUpdates in Hsize. rewrite foldl_pushGroup_perm in Hsize.
  assert (size (expressionValues st) = sum_list_with placeholderCount updates) as <-.
  { rewrite Hsize. unfold initialState. cbn [expressionValues].
    by rewrite map_size_empty. }
  destruct (size (expressionValues st)) eqn:E; cbn; [apply map_size_empty | done].
Qed.

(** C3. The builder's [appendToList] and [prependToList] push a SET entry
    whose value is the list marker holding the one item. For an update
    array with such an entry anywhere in it, the SET part of the compiled
    expression contains, among the SET clauses,
    [name = list_append(if_not_exists(name, :emptyN), :itemsN)] for an
    append and
    [name = list_append(:itemsN, if_not_exists(name, :emptyN))] for a
    prepend, [name] being the resolved field; the value map binds
    [:itemsN] to the one-item list and [:emptyN] to the empty list (unless
    the caller's condition values use the same key). The compiler never
    reads the stored item. [name] is the field itself when the field is
    not a reserved word. Every member binds placeholders of its own: the
    size of the value map is the sum of the members' counts, two for a
    list marker. *)
Theorem list_entries_compile_to_list_append :
  (∀ f item b b', Builder.appendToList f item b = Ok b' →
     Builder.updates b' =
       Builder.updates b
         ++ [ {| field := f; value := Builder.listAppendMarker item;
                 operation := SET |} ]) ∧
  (∀ f item b b', Builder.prependToList f item b = Ok b' →
     Builder.updates b' =
       Builder.updates b
         ++ [ {| field := f; value := Builder.listPrependMarker item;
                 operation := SET |} ]) ∧
  (∀ tableName key options l1 l2 f item (prepend : bool),
     let u := {| field := f;
                 value := if prepend then Builder.listPrependMarker item
                          else Builder.listAppendMarker item;
                 operation := SET |} in
     let cmd := updateCommand tableName key (l1 ++ u :: l2) options in
     ∃ (h : ExpressionAttributeHandler.t) (n : nat)
       (before after parts1 parts2 : list string) (vals : gmap string JsValue),
       let name := (ExpressionAttributeHandler.getExpressionAttributeName f h).1 in
       let clause :=
         if prepend
         then name +:+ " = list_append(:items" +:+ pretty n +:+ ", if_not_exists("
                +:+ name +:+ ", :empty" +:+ pretty n +:+ "))"
         else name +:+ " = list_append(if_not_exists(" +:+ name +:+ ", :empty"
                +:+ pretty n +:+ "), :items" +:+ pretty n +:+ ")" in
       UpdateExpression cmd =
         join " " (parts1 ++ ("SET " +:+ join ", " (before ++ clause :: after))
                     :: parts2) ∧
       ExpressionAttributeValues cmd = Some vals ∧
       (":items" +:+ pretty n ∉ (conditionEntries options).*1 →
          vals !! (":items" +:+ pretty n) = Some (JArray [item])) ∧
       (":empty" +:+ pretty n ∉ (conditionEntries options).*1 →
          vals !! (":empty" +:+ pretty n) = Some (JArray []))) ∧
  (∀ f h, Builder.validateFieldName f = Ok tt →
     ExpressionAttributeHandler.isReservedWord f = false →
     ExpressionAttributeHandler.getExpressionAttributeName f h = (f, h)) ∧
  (∀ tableName key updates,
     size (default ∅ (ExpressionAttributeValues
                        (updateCommand tableName key updates noOptions)))
     = sum_list_with placeholderCount updates) ∧
  (∀ f item,
     placeholderCount {| field := f; value := Builder.listAppendMarker item;
                         operation := SET |} = 2 ∧
     placeholderCount {| field := f; value := Builder.listPrependMarker item;
                         operation := SET |} = 2).
Proof.
  split_and!.
  - apply appendToList_pushes.
  - apply prependToList_pushes.
  - intros tableName key options l1 l2 f item prepend u cmd.
    assert (isListAppend u || isListPrepend u = true) as Hm by by destruct prepend.
    destruct (marker_member_compiles l1 l2 u eq_refl Hm)
      as (h & n & before & after & parts1 & parts2 & Hparts & Hi & He).
    subst cmd. unfold updateCommand.
    destruct (compileGroups initialState (groupUpdates (l1 ++ u :: l2))) as [parts st].
    cbn [fst snd UpdateExpression ExpressionAttributeValues] in *.
    exists h, n, before, after, parts1, parts2,
      (mergeValues (conditionEntries options) (expressionValues st)).
    split_and!.
    + rewrite Hparts. by destruct prepend.
    + assert (size (mergeValues (conditionEntries options) (expressionValues st)) ≠ 0)
        as Hsize.
      { eapply map_size_ne_0_lookup_2, mergeValues_is_Some. by rewrite Hi. }
      by destruct (size _).
    + intros Hk. rewrite mergeValues_lookup_notin, Hi by done. by destruct prepend.
    + intros Hk. by rewrite mergeValues_lookup_notin, He.
  - apply plain_field_name.
  - apply value_map_size.
  - done.
Qed.

Lemma list_entries_compile_to_list_append_witness :
  (∃ b, Builder.appendToList "interests" (JString "gaming") Builder.new = Ok b ∧
        Builder.updates b =
          [ {| field := "interests";
               value := Builder.listAppendMarker (JString "gaming");
               operation := SET |} ] ∧
        UpdateExpression (updateCommand "users" [] (Builder.updates b) noOptions)
          = "SET interests = list_append(if_not_exists(interests, :empty1), :items1)") ∧
  ExpressionAttributeHandler.getExpressionAttributeName "interests"
    ExpressionAttributeHandler.new
  = ("interests", ExpressionAttributeHandler.new).
Proof.
  destruct list_entries_compile_to_list_append as (H1 & _ & _ & H4 & _).
  split.
  - eexists. split; [reflexivity|]. split; [|by vm_compute].
    exact (H1 "interests" (JString "gaming") Builder.new _ eq_refl).
  - apply H4; reflexivity.
Defined.

End UpdateProperties.

(** ** Scan-mode builder *)

Section ScanBuilderProperties.
Import ScanBuilder.

Context (NODE_ENV : option string) (numberToString : float → string).

Abbreviation getExpressionName := (ScanBuilder.getExpressionName NODE_ENV).
Abbreviation getExpressionNames := (ScanBuilder.getExpressionNames NODE_ENV).
Abbreviation addCondition := (ScanBuilder.addCondition NODE_ENV).
Abbreviation call := (ScanBuilder.call NODE_ENV numberToString).
Abbreviation after := (ScanBuilder.after NODE_ENV numberToString).
Abbreviation afterAll := (ScanBuilder.afterAll NODE_ENV numberToString).
Abbreviation keysOfCall := (ScanBuilder.keysOfCall NODE_ENV numberToString).
Abbreviation generatedIn := (ScanBuilder.generatedIn NODE_ENV numberToString).
Abbreviation effect := (ScanBuilder.effect NODE_ENV numberToString).
Abbreviation effects := (ScanBuilder.effects NODE_ENV numberToString).

(** *** Generated placeholders *)

Lemma elem_of_generatedKeys (k : string) (from to : nat) :
  k ∈ generatedKeys from to ↔ ∃ j, from ≤ j < to ∧ k = ":value" +:+ pretty j.
Proof.
  unfold generatedKeys. rewrite list_elem_of_fmap. split.
  - intros (j & -> & Hj%elem_of_seq). exists j. split; [lia | done].
  - intros (j & Hj & ->). exists j. split; [done|]. apply elem_of_seq. lia.
Qed.

Lemma generatedKeys_app (from mid to : nat) :
  from ≤ mid → mid ≤ to →
  generatedKeys from mid ++ generatedKeys mid to = generatedKeys from to.
Proof.
  intros H1 H2. unfold generatedKeys. rewrite <-fmap_app. f_equal.
  replace (to - from) with ((mid - from) + (to - mid)) by lia.
  rewrite seq_app. do 2 f_equal. lia.
Qed.

Lemma generatedKeys_NoDup (from to : nat) : NoDup (generatedKeys from to).
Proof.
  unfold generatedKeys. apply NoDup_fmap_2; [|apply NoDup_seq].
  intros i j H. by apply (inj (String.app ":value")), (inj pretty) in H.
Qed.

(** *** What a call changes *)

Lemma no_new_fragment (l : list string) : ∃ l', l = l ++ l' ∧ length l' ≤ 1.
Proof. exists []. split; [by rewrite app_nil_r | cbn; lia]. Qed.

Lemma grows_same (b b' : t) :
  valueCounter b' = valueCounter b →
  (∃ l, filterExpressions b' = filterExpressions b ++ l ∧ length l ≤ 1) →
  grows b b'.
Proof.
  intros Hc Hf. split_and!; [lia | done |].
  intros k (j & Hj & _)%elem_of_generatedKeys. lia.
Qed.

Lemma getExpressionName_frame (field : string) (b : t) :
  filterExpressions (getExpressionName field b).2 = filterExpressions b ∧
  expressionValues (getExpressionName field b).2 = expressionValues b ∧
  valueCounter (getExpressionName field b).2 = valueCounter b.
Proof. unfold ScanBuilder.getExpressionName. by repeat case_match. Qed.

Lemma getExpressionNames_frame (fields : list string) (b : t) :
  filterExpressions (getExpressionNames fields b).2 = filterExpressions b ∧
  expressionValues (getExpressionNames fields b).2 = expressionValues b ∧
  valueCounter (getExpressionNames fields b).2 = valueCounter b.
Proof.
  revert b. induction fields as [|f fields IH]; intros b;
    cbn [ScanBuilder.getExpressionNames]; [done|].
  destruct (getExpressionName_frame f b) as (H1 & H2 & H3).
  destruct (getExpressionName f b) as [nameKey b1]. cbn [snd] in *.
  destruct (IH b1) as (H4 & H5 & H6).
  destruct (getExpressionNames fields b1) as [nameKeys b2]. cbn [snd] in *.
  split_and!; congruence.
Qed.

Lemma setValues_frame (values : list (string * JsValue)) (b : t) :
  filterExpressions (setValues values b) = filterExpressions b ∧
  valueCounter (setValues values b) = valueCounter b.
Proof.
  unfold setValues. revert b.
  induction values as [|kv values IH]; intros b; cbn [foldl]; [done|].
  destruct (IH (assignValue kv.1 kv.2 b)) as [-> ->].
  unfold assignValue. by destruct (String.eqb kv.1 "__proto__" && protoAccessor b).
Qed.

(** a condition with one value placeholder *)
Lemma one_value_grows (field fragment : string) (value : JsValue) (b : t)
    (mk : string → string → string) :
  grows b
    (setValue (nextValueKey (getExpressionName field b).2).1 value
       (pushFilter (mk (getExpressionName field b).1
                       (nextValueKey (getExpressionName field b).2).1)
          (nextValueKey (getExpressionName field b).2).2)).
Proof.
  destruct (getExpressionName_frame field b) as (H1 & H2 & H3).
  destruct (getExpressionName field b) as [nameKey b1]. cbn [fst snd] in *.
  unfold grows. cbn [nextValueKey setValue pushFilter fst snd valueCounter
                     filterExpressions expressionValues].
  rewrite H1, H3. split_and!; [lia | eexists; split; [done | cbn; lia] |].
  intros k (j & Hj & ->)%elem_of_generatedKeys.
  assert (j = valueCounter b) as -> by lia. by rewrite lookup_insert_eq.
Qed.

Lemma addCondition_grows (field operator : string) (value : JsValue) (b b' : t) :
  addCondition field operator value b = Ok b' → grows b b'.
Proof.
  unfold ScanBuilder.addCondition, mbind, Result_bind.
  destruct (validateFieldName NODE_ENV field); [|done].
  pose proof (one_value_grows field "" value b
                (λ n v, n +:+ " " +:+ operator +:+ " " +:+ v)) as H.
  destruct (getExpressionName field b) as [nameKey b1].
  unfold nextValueKey in *. cbn [fst snd] in *. by intros [= <-].
Qed.

Lemma call_grows (c : Call) (b b' : t) : call c b = Ok b' → grows b b'.
Proof.
  destruct c; cbn [ScanBuilder.call];
    try (apply addCondition_grows).
  - (* beginsWith *)
    unfold beginsWith, mbind, Result_bind.
    destruct (validateString value _); [|done].
    destruct (validateFieldName NODE_ENV field); [|done].
    pose proof (one_value_grows field "" value b
                  (λ n v, "begins_with(" +:+ n +:+ ", " +:+ v +:+ ")")) as H.
    destruct (getExpressionName field b) as [nameKey b1].
    unfold nextValueKey in *. cbn [fst snd] in *. by intros [= <-].
  - (* contains *)
    unfold contains, mbind, Result_bind.
    destruct (validateString value _); [|done].
    destruct (validateFieldName NODE_ENV field); [|done].
    pose proof (one_value_grows field "" value b
                  (λ n v, "contains(" +:+ n +:+ ", " +:+ v +:+ ")")) as H.
    destruct (getExpressionName field b) as [nameKey b1].
    unfold nextValueKey in *. cbn [fst snd] in *. by intros [= <-].
  - (* between *)
    unfold between, mbind, Result_bind.
    destruct (validateFieldName NODE_ENV field); [|done].
    destruct (getExpressionName_frame field b) as (H1 & H2 & H3).
    destruct (getExpressionName field b) as [nameKey b1]. cbn [fst snd] in *.
    intros [= <-]. unfold grows.
    cbn [nextValueKey setValue pushFilter fst snd valueCounter
         filterExpressions expressionValues].
    rewrite H1, H3. split_and!; [lia | eexists; split; [done | cbn; lia] |].
    intros k (j & Hj & ->)%elem_of_generatedKeys.
    apply lookup_insert_is_Some'.
    destruct (decide (j = valueCounter b)) as [->|?].
    + right. by rewrite lookup_insert_eq.
    + left. f_equal. f_equal. lia.
  - (* attributeExists *)
    unfold attributeExists, mbind, Result_bind.
    destruct (validateFieldName NODE_ENV field); [|done].
    destruct (getExpressionName_frame field b) as (H1 & H2 & H3).
    destruct (getExpressionName field b) as [nameKey b1]. cbn [snd] in *.
    intros [= <-]. apply grows_same; cbn; [done|].
    rewrite H1. eexists. split; [done | cbn; lia].
  - (* attributeNotExists *)
    unfold attributeNotExists, mbind, Result_bind.
    destruct (validateFieldName NODE_ENV field); [|done].
    destruct (getExpressionName_frame field b) as (H1 & H2 & H3).
    destruct (getExpressionName field b) as [nameKey b1]. cbn [snd] in *.
    intros [= <-]. apply grows_same; cbn; [done|].
    rewrite H1. eexists. split; [done | cbn; lia].
  - (* filter *)
    unfold filter, mbind, Result_bind.
    destruct (validateString _ _); [|done]. intros [= <-].
    destruct (setValues_frame (default [] values)
                (pushFilter ("(" +:+ expression +:+ ")") b)) as [Hf Hc].
    apply grows_same; [by rewrite Hc|].
    rewrite Hf. eexists. split; [done | cbn; lia].
  - (* selectFields *)
    unfold selectFields, mbind, Result_bind, ensure.
    destruct (negb _); [|done]. cbn.
    destruct (forEach _ _); [|done].
    destruct (getExpressionNames_frame fields b) as (H1 & H2 & H3).
    destruct (getExpressionNames fields b) as [names b1]. cbn [snd] in *.
    intros [= <-]. apply grows_same; cbn; [done|].
    rewrite H1. apply no_new_fragment.
  - (* withLimit *)
    unfold withLimit, mbind, Result_bind, validateNumber, ensure.
    repeat (case_match; try done). intros [= <-].
    apply grows_same; cbn; [done|]. apply no_new_fragment.
  - (* usingIndex *)
    unfold usingIndex, mbind, Result_bind.
    destruct (validateString _ _); [|done]. intros [= <-].
    apply grows_same; cbn; [done|]. apply no_new_fragment.
  - (* withConsistentRead *)
    intros [= <-]. apply grows_same; cbn; [done|]. apply no_new_fragment.
  - (* withStartKey *)
    unfold withStartKey, mbind, Result_bind, ensure.
    destruct (negb _); [|done]. intros [= <-].
    apply grows_same; cbn; [done|]. apply no_new_fragment.
  - (* withParallelScan *)
    unfold withParallelScan, mbind, Result_bind, validateNumber, ensure.
    repeat (case_match; try done). intros [= <-].
    apply grows_same; cbn; [done|]. apply no_new_fragment.
Qed.

Lemma after_grows (b : t) (c : Call) : grows b (after b c).
Proof.
  unfold ScanBuilder.after. destruct (call c b) as [b'|] eqn:E.
  - by apply call_grows in E.
  - apply grows_same; [done|]. apply no_new_fragment.
Qed.

Lemma generatedIn_counter (cs : list Call) (b : t) :
  valueCounter b ≤ valueCounter (afterAll b cs) ∧
  generatedIn b cs = generatedKeys (valueCounter b) (valueCounter (afterAll b cs)).
Proof.
  unfold ScanBuilder.afterAll.
  revert b. induction cs as [|c cs IH]; intros b;
    cbn [ScanBuilder.generatedIn foldl].
  - split; [done|]. unfold generatedKeys. by rewrite Nat.sub_diag.
  - destruct (IH (after b c)) as [Hle ->].
    destruct (after_grows b c) as (Hc & _). split; [lia|].
    unfold ScanBuilder.keysOfCall. by apply generatedKeys_app.
Qed.

Lemma generatedKeys_none (n : nat) : generatedKeys n n = [].
Proof. unfold generatedKeys. by rewrite Nat.sub_diag. Qed.

Lemma generatedKeys_one (n : nat) : generatedKeys n (S n) = [":value" +:+ pretty n].
Proof. unfold generatedKeys. by replace (S n - n) with 1 by lia. Qed.

Lemma generatedKeys_two (n : nat) :
  generatedKeys n (S (S n)) = [":value" +:+ pretty n; ":value" +:+ pretty (S n)].
Proof. unfold generatedKeys. by replace (S (S n) - n) with 2 by lia. Qed.

Lemma addCondition_effect (field operator : string) (value : JsValue) (b b' : t) :
  addCondition field operator value b = Ok b' →
  ∃ nameKey,
    filterExpressions b' =
      filterExpressions b
        ++ [nameKey +:+ " " +:+ operator +:+ " " +:+ (":value" +:+ pretty (valueCounter b))] ∧
    expressionValues b' =
      <[":value" +:+ pretty (valueCounter b) := value]> (expressionValues b) ∧
    valueCounter b' = S (valueCounter b).
Proof.
  unfold ScanBuilder.addCondition, mbind, Result_bind.
  destruct (validateFieldName NODE_ENV field); [|done].
  destruct (getExpressionName_frame field b) as (H1 & H2 & H3).
  destruct (getExpressionName field b) as [nameKey b1]. cbn [snd] in *.
  unfold nextValueKey. intros [= <-]. exists nameKey.
  cbn [setValue pushFilter valueCounter filterExpressions expressionValues].
  by rewrite H1, H2, H3.
Qed.

Lemma call_effect (b : t) (c : Call) :
  ∃ fragments, effect b c fragments (keysOfCall b c).
Proof.
  unfold ScanBuilder.effect, ScanBuilder.keysOfCall.
  unfold ScanBuilder.after.
  destruct (call c b) as [b'|message] eqn:Hcall.
  2: { exists []. rewrite generatedKeys_none, app_nil_r. done. }
  destruct c; cbn [ScanBuilder.call] in Hcall.
  1-6: apply addCondition_effect in Hcall as (nameKey & Hf & Hv & Hc);
       eexists; split; [exact Hf|]; rewrite Hc, generatedKeys_one;
       exists nameKey; eexists _, _; split_and!; [reflexivity | reflexivity | exact Hv].
  - (* beginsWith *)
    revert Hcall. unfold beginsWith, mbind, Result_bind.
    destruct (validateString value _); [|done].
    destruct (validateFieldName NODE_ENV field); [|done].
    destruct (getExpressionName_frame field b) as (H1 & H2 & H3).
    destruct (getExpressionName field b) as [nameKey b1]. cbn [snd] in *.
    unfold nextValueKey. intros [= <-].
    cbn [setValue pushFilter valueCounter filterExpressions expressionValues].
    rewrite H1, H2, H3, generatedKeys_one. eexists. split; [reflexivity|].
    exists nameKey. eexists _, _. split_and!; reflexivity.
  - (* contains *)
    revert Hcall. unfold contains, mbind, Result_bind.
    destruct (validateString value _); [|done].
    destruct (validateFieldName NODE_ENV field); [|done].
    destruct (getExpressionName_frame field b) as (H1 & H2 & H3).
    destruct (getExpressionName field b) as [nameKey b1]. cbn [snd] in *.
    unfold nextValueKey. intros [= <-].
    cbn [setValue pushFilter valueCounter filterExpressions expressionValues].
    rewrite H1, H2, H3, generatedKeys_one. eexists. split; [reflexivity|].
    exists nameKey. eexists _, _. split_and!; reflexivity.
  - (* between *)
    revert Hcall. unfold between, mbind, Result_bind.
    destruct (validateFieldName NODE_ENV field); [|done].
    destruct (getExpressionName_frame field b) as (H1 & H2 & H3).
    destruct (getExpressionName field b) as [nameKey b1]. cbn [snd] in *.
    unfold nextValueKey. intros [= <-].
    cbn [setValue pushFilter valueCounter filterExpressions expressionValues fst snd].
    rewrite H1, H2, H3, generatedKeys_two. eexists. split; [reflexivity|].
    exists nameKey. eexists _, _. split_and!; reflexivity.
  - (* attributeExists *)
    revert Hcall. unfold attributeExists, mbind, Result_bind.
    destruct (validateFieldName NODE_ENV field); [|done].
    destruct (getExpressionName_frame field b) as (H1 & H2 & H3).
    destruct (getExpressionName field b) as [nameKey b1]. cbn [snd] in *.
    intros [= <-].
    cbn [pushFilter valueCounter filterExpressions expressionValues].
    rewrite H1, H2, H3, generatedKeys_none. eexists. split; [reflexivity|].
    exists nameKey. eexists _, _. split_and!; reflexivity.
  - (* attributeNotExists *)
    revert Hcall. unfold attributeNotExists, mbind, Result_bind.
    destruct (validateFieldName NODE_ENV field); [|done].
    destruct (getExpressionName_frame field b) as (H1 & H2 & H3).
    destruct (getExpressionName field b) as [nameKey b1]. cbn [snd] in *.
    intros [= <-].
    cbn [pushFilter valueCounter filterExpressions expressionValues].
    rewrite H1, H2, H3, generatedKeys_none. eexists. split; [reflexivity|].
    exists nameKey. eexists _, _. split_and!; reflexivity.
  - (* filter *)
    revert Hcall. unfold filter, mbind, Result_bind.
    destruct (validateString _ _); [|done]. intros [= <-].
    destruct (setValues_frame (default [] values)
                (pushFilter ("(" +:+ expression +:+ ")") b)) as [Hf Hc].
    rewrite Hf, Hc. cbn [pushFilter valueCounter filterExpressions].
    rewrite generatedKeys_none. by eexists.
  - (* selectFields *)
    revert Hcall. unfold selectFields, mbind, Result_bind, ensure.
    destruct (negb _); [|done]. cbn.
    destruct (forEach _ _); [|done].
    destruct (getExpressionNames_frame fields b) as (H1 & H2 & H3).
    destruct (getExpressionNames fields b) as [names b1].
    cbn [snd] in *. intros [= <-]. cbn [valueCounter filterExpressions expressionValues].
    rewrite H1, H2, H3, generatedKeys_none. exists []. by rewrite app_nil_r.
  - (* withLimit *)
    revert Hcall. unfold withLimit, mbind, Result_bind, validateNumber, ensure.
    repeat (case_match; try done). intros [= <-]. cbn [valueCounter filterExpressions expressionValues].
    rewrite generatedKeys_none. exists []. by rewrite app_nil_r.
  - (* usingIndex *)
    revert Hcall. unfold usingIndex, mbind, Result_bind.
    destruct (validateString _ _); [|done]. intros [= <-]. cbn [valueCounter filterExpressions expressionValues].
    rewrite generatedKeys_none. exists []. by rewrite app_nil_r.
  - (* withConsistentRead *)
    injection Hcall as <-. cbn [valueCounter filterExpressions expressionValues].
    rewrite generatedKeys_none. exists []. by rewrite app_nil_r.
  - (* withStartKey *)
    revert Hcall. unfold withStartKey, mbind, Result_bind, ensure.
    destruct (negb _); [|done]. intros [= <-]. cbn [valueCounter filterExpressions expressionValues].
    rewrite generatedKeys_none. exists []. by rewrite app_nil_r.
  - (* withParallelScan *)
    revert Hcall. unfold withParallelScan, mbind, Result_bind, validateNumber, ensure.
    repeat (case_match; try done). intros [= <-]. cbn [valueCounter filterExpressions expressionValues].
    rewrite generatedKeys_none. exists []. by rewrite app_nil_r.
Qed.

Lemma calls_effects (cs : list Call) (b : t) :
  ∃ steps, effects b cs steps ∧
           concat steps.*2 = generatedIn b cs ∧
           filterExpressions (afterAll b cs) = filterExpressions b ++ concat steps.*1.
Proof.
  unfold ScanBuilder.afterAll.
  revert b. induction cs as [|c cs IH]; intros b;
    cbn [ScanBuilder.generatedIn foldl].
  - exists []. by rewrite app_nil_r.
  - destruct (call_effect b c) as (fragments & He).
    destruct (IH (after b c)) as (steps & Hsteps & Hkeys & Hfrags).
    exists ((fragments, keysOfCall b c) :: steps). cbn [ScanBuilder.effects fst snd].
    split_and!; [done..| |].
    + rewrite fmap_cons. cbn [snd concat]. by rewrite Hkeys.
    + rewrite fmap_cons. cbn [fst concat]. rewrite Hfrags, (proj1 He).
      by rewrite <-app_assoc.
Qed.

(** C6. For every sequence of calls on a new scan builder, in either
    environment, each call has one of these effects: a comparison,
    [beginsWith], [contains] and [between] append one fragment built, in
    the method's shape, from the resolved name and the value placeholders
    the call generates (one, or two for [between]), and bind these
    placeholders to the call's values; [attributeExists] and
    [attributeNotExists] append a fragment without a placeholder;
    [filter] appends the expression in parentheses and generates none;
    every other call, and a call that throws, appends nothing. The
    placeholders generated over the whole run, taken from these
    fragments in order, are [:value0] up to [:value{n-1}], [n] being the
    final counter, and no placeholder occurs twice. The fragments the
    builder holds are the appended ones in call order, and [build()]
    gives as [filter] these fragments joined with [" AND "], or no
    [filter] when there is none. *)
Theorem scan_value_placeholders_unique_and_filter_joined (cs : list Call) :
  let b := afterAll new cs in
  (∃ steps : list (list string * list string),
     effects new cs steps ∧
     NoDup (concat steps.*2) ∧
     concat steps.*2 = generatedKeys 0 (valueCounter b) ∧
     filterExpressions b = concat steps.*1) ∧
  opt_filter (build b) =
    match filterExpressions b with
    | [] => None
    | _ => Some (join " AND " (filterExpressions b))
    end.
Proof.
  intros b. destruct (generatedIn_counter cs new) as [_ Hgen].
  destruct (calls_effects cs new) as (steps & Hsteps & Hkeys & Hfrags).
  split.
  - exists steps. split_and!; [done| | |done].
    + rewrite Hkeys, Hgen. apply generatedKeys_NoDup.
    + by rewrite Hkeys.
  - unfold build. cbn [opt_filter]. by destruct (filterExpressions b).
Qed.

End ScanBuilderProperties.

(** [between], a custom [filter], [beginsWith], a comparison that throws
    (empty field name) and a comparison on a reserved word, outside test
    mode. *)
Lemma scan_value_placeholders_unique_and_filter_joined_witness :
  let cs := [ ScanBuilder.CBetween "age" (JNumber 18) (JNumber 65);
              ScanBuilder.CFilter "score > :min" (Some [(":min", JNumber 3)]);
              ScanBuilder.CBeginsWith "city" (JString "O");
              ScanBuilder.CEquals "" (JNumber 1);
              ScanBuilder.CNotEquals "ORDER" (JNumber 2) ] in
  let b := ScanBuilder.afterAll None (λ _, "") ScanBuilder.new cs in
  ScanBuilder.opt_filter (ScanBuilder.build b)
  = Some "age BETWEEN :value0 AND :value1 AND (score > :min) AND begins_with(city, :value2) AND #n0 <> :value3" ∧
  ∃ steps : list (list string * list string),
    ScanBuilder.effects None (λ _, "") ScanBuilder.new cs steps ∧
    NoDup (concat steps.*2) ∧
    concat steps.*2 = [":value0"; ":value1"; ":value2"; ":value3"] ∧
    ScanBuilder.filterExpressions b = concat steps.*1.
Proof.
  cbn zeta. split; [by vm_compute|].
  destruct (scan_value_placeholders_unique_and_filter_joined None (λ _, "")
              [ ScanBuilder.CBetween "age" (JNumber 18) (JNumber 65);
                ScanBuilder.CFilter "score > :min" (Some [(":min", JNumber 3)]);
                ScanBuilder.CBeginsWith "city" (JString "O");
                ScanBuilder.CEquals "" (JNumber 1);
                ScanBuilder.CNotEquals "ORDER" (JNumber 2) ])
    as [(steps & Heffects & Hnodup & Hkeys & Hfragments) _].
  exists steps. split_and!; [exact Heffects | exact Hnodup | exact Hkeys | exact Hfragments].
Defined.

(** C7, evaluated outside test mode. [ORDER] is a reserved word. Two
    conditions on it get the two value placeholders [:value0] and
    [:value1], and also two name placeholders, [#n0] and [#n1], both
    mapped to [ORDER] in [expressionNames]: [getExpressionName] never
    looks a field up before it assigns. *)
Theorem scan_same_field_gets_two_name_placeholders :
  let b := ScanBuilder.afterAll None (λ _, "") ScanBuilder.new
             [ScanBuilder.CEquals "ORDER" (JNumber 1);
              ScanBuilder.CNotEquals "ORDER" (JNumber 2)] in
  ReservedWords.isReserved "ORDER" = true ∧
  ScanBuilder.opt_filter (ScanBuilder.build b)
    = Some "#n0 = :value0 AND #n1 <> :value1" ∧
  ScanBuilder.opt_expressionNames (ScanBuilder.build b)
    = Some {[ "#n0" := "ORDER"; "#n1" := "ORDER" ]} ∧
  size (ScanBuilder.expressionNames b) = 2.
Proof. cbv zeta. split_and!; by vm_compute. Qed.

(** ** Stream processor *)

Section StreamProperties.
Import Stream.

Context {World : Type} (NODE_ENV : option string).
Context (sendDescribeStream : string → World → Try (option StreamDescription) * World).
Context (sendGetShardIterator :
           string → string → ShardIteratorType → World → Try (option string) * World).
Context (sendGetRecords : string → nat → World → Try GetRecordsOutput * World).
Context (handler : list JsValue → World → Try unit * World).

Abbreviation getStreamRecords := (Stream.getStreamRecords World NODE_ENV sendGetRecords).
Abbreviation getShardIterator :=
  (Stream.getShardIterator World NODE_ENV sendGetShardIterator).
Abbreviation describeStream := (Stream.describeStream World NODE_ENV sendDescribeStream).
Abbreviation shardLoop := (Stream.shardLoop World NODE_ENV sendGetRecords handler).
Abbreviation processShards :=
  (Stream.processShards World NODE_ENV sendGetShardIterator sendGetRecords handler).
Abbreviation processStream :=
  (Stream.processStream World NODE_ENV sendDescribeStream sendGetShardIterator
     sendGetRecords handler).
Abbreviation andThen := (Stream.andThen World).
Abbreviation LoopResult := (Stream.LoopResult World).

(** *** One shard's loop *)

Section Loop.

Variable cfg : StreamProcessingConfig.
Variable shardId : string.

Abbreviation mkLoop := (Stream.Build_LoopResult World).

(** Induction over the turns of the loop, one case for each way a turn
    can go. *)
Lemma shardLoop_cases (P : option string → nat → World → LoopResult → Prop) :
  (∀ it n w, usable it = None → P it n w (mkLoop Completed n [] w)) →
  (∀ it c n w, usable it = Some c → below n (maxRecords cfg) = false →
     P it n w (mkLoop Completed n [] w)) →
  (∀ it c n w, usable it = Some c → below n (maxRecords cfg) = true →
     P it n w (mkLoop OutOfFuel n [] w)) →
  (∀ it c n w error w1, usable it = Some c → below n (maxRecords cfg) = true →
     P it n w (mkLoop (Rejected error) n [Fetched shardId c (FetchError error)] w1)) →
  (∀ it c n w error w1 r, usable it = Some c → below n (maxRecords cfg) = true →
     stopOnError cfg = false → P it n w1 r →
     P it n w (andThen [ Fetched shardId c (FetchError error);
                         Logged "Error getting stream records:" error;
                         Slept (pollInterval cfg) ] r)) →
  (∀ it c n w next w1 r, usable it = Some c → below n (maxRecords cfg) = true →
     P next n w1 r →
     P it n w (andThen [ Fetched shardId c (FetchOk 0 next);
                         Slept (pollInterval cfg) ] r)) →
  (∀ it c n w records next w2 r, usable it = Some c →
     below n (maxRecords cfg) = true → records ≠ [] →
     P next (n + length records) w2 r →
     P it n w (andThen [ Fetched shardId c (FetchOk (length records) next);
                         HandlerInvoked shardId c next records None ] r)) →
  (∀ it c n w records next error w2, usable it = Some c →
     below n (maxRecords cfg) = true → records ≠ [] → stopOnError cfg = true →
     P it n w (mkLoop (Rejected error) n
                 [ Fetched shardId c (FetchOk (length records) next);
                   HandlerInvoked shardId c next records (Some error) ] w2)) →
  (∀ it c n w records next error w2 r, usable it = Some c →
     below n (maxRecords cfg) = true → records ≠ [] → stopOnError cfg = false →
     P next n w2 r →
     P it n w (andThen [ Fetched shardId c (FetchOk (length records) next);
                         HandlerInvoked shardId c next records (Some error);
                         Logged "Error in stream handler:" error ] r)) →
  ∀ fuel it n w, P it n w (shardLoop fuel cfg shardId it n w).
Proof.
  intros Hexit Hmax Hfuel Hraise Hretry Hidle Hok Hstop Hgo.
  induction fuel as [|fuel IH]; intros it n w; cbn [Stream.shardLoop];
    destruct (usable it) as [c|] eqn:Eit; try (by apply Hexit);
    destruct (below n (maxRecords cfg)) eqn:Eb; cbn [negb];
    try (by eapply Hmax); try (by eapply Hfuel).
  destruct (getStreamRecords c (batchSize cfg) w) as [[[[records next]|error]|error] w1].
  - destruct records as [|record records].
    + by eapply Hidle.
    + destruct (handler (record :: records) w1) as [[?|error] w2].
      * by eapply (Hok it c n w (record :: records)).
      * destruct (stopOnError cfg) eqn:Es.
        -- by eapply (Hstop it c n w (record :: records)).
        -- by eapply (Hgo it c n w (record :: records)).
  - destruct (stopOnError cfg) eqn:Es.
    + by eapply Hraise.
    + by eapply Hretry.
  - by eapply Hraise.
Qed.

Lemma loop_counts_guarded (fuel : nat) (it : option string) (n : nat) (w : World) :
  loop_processed World (shardLoop fuel cfg shardId it n w)
    = n + handled (loop_events World (shardLoop fuel cfg shardId it n w)) ∧
  guarded (maxRecords cfg) n (loop_events World (shardLoop fuel cfg shardId it n w)).
Proof.
  revert fuel it n w.
  apply (shardLoop_cases
           (λ _ n _ r, loop_processed World r = n + handled (loop_events World r)
                       ∧ guarded (maxRecords cfg) n (loop_events World r)));
    cbn [Stream.andThen loop_processed loop_events app guarded];
    unfold handled; cbn [sum_list_with];
    [ intros it n w _
    | intros it c n w _ _
    | intros it c n w _ _
    | intros it c n w error w1 _ _
    | intros it c n w error w1 r _ _ _ [-> IH]
    | intros it c n w next w1 r _ _ [-> IH]
    | intros it c n w records next w2 r _ Hb _ [-> IH]
    | intros it c n w records next error w2 _ Hb _ _
    | intros it c n w records next error w2 r _ Hb _ _ [-> IH] ];
    rewrite ?Nat.add_0_r; split_and!; done || lia.
Qed.

Lemma loop_behaviour (fuel : nat) (it : option string) (n : nat) (w : World) :
  startsAt (maxRecords cfg) shardId it n
    (loop_events World (shardLoop fuel cfg shardId it n w))
    (loop_status World (shardLoop fuel cfg shardId it n w)) ∧
  always (handlerPolicy (stopOnError cfg)
            (loop_status World (shardLoop fuel cfg shardId it n w)))
    (loop_events World (shardLoop fuel cfg shardId it n w)) ∧
  always stopsWhenExhausted (loop_events World (shardLoop fuel cfg shardId it n w)).
Proof.
  revert fuel it n w.
  apply (shardLoop_cases
           (λ it n _ r,
              startsAt (maxRecords cfg) shardId it n
                (loop_events World r) (loop_status World r)
              ∧ always (handlerPolicy (stopOnError cfg) (loop_status World r))
                  (loop_events World r)
              ∧ always stopsWhenExhausted (loop_events World r)));
    unfold startsAt;
    cbn [Stream.andThen loop_status loop_events app always handlerPolicy];
    [ intros it n w ->
    | intros it c n w -> Hb
    | intros it c n w -> Hb
    | intros it c n w error w1 -> Hb
    | intros it c n w error w1 r -> Hb Hs (_ & Hp & He)
    | intros it c n w next w1 r -> Hb (Hn & Hp & He)
    | intros it c n w records next w2 r -> Hb Hr (Hn & Hp & He)
    | intros it c n w records next error w2 -> Hb Hr ->
    | intros it c n w records next error w2 r -> Hb Hr -> (Hn & Hp & He) ].
  all: split_and!; try done; try (by left; eauto); try (by right); try congruence.
  all: try (unfold stopsWhenExhausted; cbn [exhausts]; by intros).
  - unfold stopsWhenExhausted. cbn [exhausts]. intros Hu%bool_decide_eq_true.
    rewrite Hu in Hn. rewrite Hn. by repeat constructor.
  - unfold stopsWhenExhausted. cbn [exhausts]. intros Hu%bool_decide_eq_true.
    rewrite Hu in Hn. rewrite Hn. by repeat constructor.
  - eexists. split; [done|]. destruct (usable next); [by apply Hn | done].
  - unfold stopsWhenExhausted. cbn [exhausts]. intros Hu%bool_decide_eq_true.
    rewrite Hu in Hn. rewrite Hn. by repeat constructor.
Qed.

Lemma loop_ofShard (fuel : nat) (it : option string) (n : nat) (w : World) :
  Forall (ofShard shardId) (loop_events World (shardLoop fuel cfg shardId it n w)).
Proof.
  revert fuel it n w.
  apply (shardLoop_cases (λ _ _ _ r, Forall (ofShard shardId) (loop_events World r)));
    cbn [Stream.andThen loop_events app]; intros; by repeat constructor.
Qed.

End Loop.

(** *** Event lists *)

Lemma always_split (q : Event → list Event → Prop) (pre post : list Event) (e : Event) :
  always q (pre ++ e :: post) → q e post.
Proof.
  induction pre as [|e' pre IH]; cbn [app always].
  - by intros [? _].
  - intros [_ ?]. by apply IH.
Qed.

Lemma handled_app (l1 l2 : list Event) : handled (l1 ++ l2) = handled l1 + handled l2.
Proof. apply sum_list_with_app. Qed.

Lemma guarded_app (m : option nat) (l1 l2 : list Event) (n : nat) :
  guarded m n (l1 ++ l2) ↔ guarded m n l1 ∧ guarded m (n + handled l1) l2.
Proof.
  revert n. induction l1 as [|e l1 IH]; intros n; cbn [app guarded].
  - unfold handled. cbn. rewrite Nat.add_0_r. split; [by split | by intros [_ ?]].
  - rewrite IH. change (e :: l1) with ([e] ++ l1). rewrite handled_app, Nat.add_assoc.
    split; [by intros (? & ? & ?) | by intros ((? & ?) & ?)].
Qed.

Lemma guarded_split (m : option nat) (n : nat) (pre post : list Event)
    (shardId cursor : string) (next : option string) (records : list JsValue)
    (failure : option JsError) :
  guarded m n (pre ++ HandlerInvoked shardId cursor next records failure :: post) →
  below (n + handled pre) m = true.
Proof. rewrite guarded_app. cbn [guarded]. by intros (_ & ? & _). Qed.

(** With batches of at most [B] records, the count of handled records
    stays within [N - 1 + B]. *)
Lemma guarded_bound (N B : nat) (events : list Event) (n : nat) :
  guarded (Some N) n events → Forall (batchWithin B) events →
  n ≤ N - 1 + B → n + handled events ≤ N - 1 + B.
Proof.
  revert n. induction events as [|e events IH]; intros n; cbn [guarded].
  - intros _ _ Hn. unfold handled. cbn. lia.
  - intros [He Hg] [Hb Hbs]%Forall_cons Hn.
    change (e :: events) with ([e] ++ events). rewrite handled_app, Nat.add_assoc.
    apply IH; [done..|].
    destruct e as [| |sid c next records [err|]| |]; unfold handled; cbn; try lia.
    cbn in He, Hb. apply Nat.ltb_lt in He. lia.
Qed.

(** *** The shards in turn *)

Section Shards.

Variable cfg : StreamProcessingConfig.
Variable streamArn : string.

Lemma processShards_no_runs (fuel : nat) (shards : list Shard) (n : nat) (w : World) :
  shardRuns World (processShards fuel cfg streamArn shards n w) = [] →
  status World (processShards fuel cfg streamArn shards n w) = Completed.
Proof.
  destruct shards as [|shard rest]; cbn [Stream.processShards]; [done|].
  destruct (getShardIterator _ _ _ _) as [[[it|e]|e] w1]; cbn; try done.
  by destruct (loop_status World _).
Qed.

Lemma processShards_prefix (fuel : nat) (shards : list Shard) (n : nat) (w : World) :
  (shardRuns World (processShards fuel cfg streamArn shards n w)).*1
    `prefix_of` (ShardId <$> shards).
Proof.
  revert n w. induction shards as [|shard rest IH]; intros n w;
    cbn [Stream.processShards].
  - done.
  - rewrite fmap_cons.
    destruct (getShardIterator _ _ _ _) as [[[it|e]|e] w1]; cbn;
      try (by apply prefix_cons, prefix_nil).
    destruct (loop_status World _); cbn; try (by apply prefix_cons, prefix_nil).
    apply prefix_cons, IH.
Qed.

Lemma processShards_guarded (fuel : nat) (shards : list Shard) (n : nat) (w : World) :
  guarded (maxRecords cfg) n
    (concat (shardRuns World (processShards fuel cfg streamArn shards n w)).*2).
Proof.
  revert n w. induction shards as [|shard rest IH]; intros n w;
    cbn [Stream.processShards].
  - done.
  - destruct (getShardIterator _ _ _ _) as [[[it|e]|e] w1];
      cbn [shardRuns fmap list_fmap snd concat app guarded]; try done.
    destruct (loop_counts_guarded cfg (ShardId shard) fuel (Some it) n w1) as [Hc Hg].
    assert (guarded (maxRecords cfg) n
              (IteratorRequested (ShardId shard)
                 :: loop_events World
                      (shardLoop fuel cfg (ShardId shard) (Some it) n w1))) as Hthis.
    { cbn [guarded]. unfold handled at 1. cbn. by rewrite Nat.add_0_r. }
    destruct (loop_status World _);
      cbn [shardRuns fmap list_fmap snd concat]; rewrite ?app_nil_r; [|done..].
    apply guarded_app. split; [done|].
    change (IteratorRequested ?s :: ?l) with ([IteratorRequested s] ++ l).
    rewrite handled_app. unfold handled at 1. cbn [sum_list_with].
    rewrite Nat.add_0_l, <-Hc. apply IH.
Qed.

Lemma processShards_runsOk (fuel : nat) (shards : list Shard) (n : nat) (w : World) :
  runsOk cfg (status World (processShards fuel cfg streamArn shards n w))
    (shardRuns World (processShards fuel cfg streamArn shards n w)).
Proof.
  revert n w. induction shards as [|shard rest IH]; intros n w;
    cbn [Stream.processShards].
  - done.
  - assert (∀ st, shardOk cfg st (ShardId shard) [IteratorRequested (ShardId shard)])
      as Honly by (intros st; by exists []).
    destruct (getShardIterator _ _ _ _) as [[[it|e]|e] w1];
      cbn [shardRuns status runsOk]; try done.
    destruct (loop_behaviour cfg (ShardId shard) fuel (Some it) n w1) as (_ & Hp & He).
    pose proof (loop_ofShard cfg (ShardId shard) fuel (Some it) n w1) as Hs.
    assert (shardOk cfg
              (loop_status World (shardLoop fuel cfg (ShardId shard) (Some it) n w1))
              (ShardId shard)
              (IteratorRequested (ShardId shard)
                 :: loop_events World
                      (shardLoop fuel cfg (ShardId shard) (Some it) n w1))) as Hthis
      by by eexists.
    destruct (loop_status World _) eqn:Est; cbn [shardRuns status runsOk]; [|done..].
    specialize (IH (loop_processed World
                      (shardLoop fuel cfg (ShardId shard) (Some it) n w1))
                   (loop_world World
                      (shardLoop fuel cfg (ShardId shard) (Some it) n w1))).
    pose proof (processShards_no_runs fuel rest
                  (loop_processed World
                     (shardLoop fuel cfg (ShardId shard) (Some it) n w1))
                  (loop_world World
                     (shardLoop fuel cfg (ShardId shard) (Some it) n w1))) as Hnone.
    destruct (shardRuns World _) as [|next runs].
    + by rewrite Hnone.
    + done.
Qed.

End Shards.

Lemma runsOk_split (cfg : StreamProcessingConfig) (st : Status)
    (R1 R2 : list (string * list Event)) (shardId : string) (events : list Event) :
  runsOk cfg st (R1 ++ (shardId, events) :: R2) →
  shardOk cfg (match R2 with [] => st | _ => Completed end) shardId events.
Proof.
  induction R1 as [|[sid ev] R1 IH]; cbn [app runsOk].
  - destruct R2; [done | by intros [? _]].
  - destruct (R1 ++ (shardId, events) :: R2) eqn:E; [by destruct R1|].
    intros [_ H]. by apply IH.
Qed.

(** C5, as the code has it. A handler invocation that throws belongs to
    the turn of its own shard. With [stopOnError] it is the last event of
    the run, no further shard is visited, and the run rejects with the
    handler's error. Without, the error is logged and the next event is
    the fetch at the cursor that was returned along with the failed batch:
    the cursor is advanced before the handler is called, so the failed
    batch is not fetched again. When no cursor came with the batch the
    shard's turn ends after the log entry. *)
Theorem handler_failure_policy (fuel : nat) (streamArn : string) (config : Config)
    (w : World) (R1 R2 : list (string * list Event)) (shardId s cursor : string)
    (next : option string) (records : list JsValue) (error : JsError)
    (pre post : list Event) :
  let run := processStream fuel streamArn config w in
  let cfg := processingConfig config in
  shardRuns World run =
    R1 ++ (shardId, pre ++ HandlerInvoked s cursor next records (Some error) :: post)
       :: R2 →
  s = shardId ∧
  (stopOnError cfg = true →
     post = [] ∧ R2 = [] ∧ status World run = Rejected error) ∧
  (stopOnError cfg = false →
     ∃ post', post = Logged "Error in stream handler:" error :: post' ∧
       match usable next with
       | Some cursor' =>
           (∃ result post'', post' = Fetched shardId cursor' result :: post'')
           ∨ (post' = [] ∧ R2 = [] ∧ status World run = OutOfFuel)
       | None => post' = []
       end).
Proof.
  intros run cfg Hruns.
  assert (runsOk cfg (status World run) (shardRuns World run)) as Hok.
  { subst run cfg. unfold Stream.processStream.
    destruct (describeStream streamArn w) as [[[description|e]|e] w1]; try done.
    destruct (default [] (Shards description)); [done|].
    apply processShards_runsOk. }
  rewrite Hruns in Hok. apply runsOk_split in Hok as (loopEvents & Hev & Hs & _ & Hp).
  destruct pre as [|e0 pre]; [done|]. injection Hev as -> <-.
  apply always_split in Hp. cbn [handlerPolicy] in Hp.
  assert (s = shardId) as ->.
  { rewrite Forall_app, Forall_cons in Hs. by destruct Hs as (_ & ? & _). }
  split; [done|]. split.
  - intros Hstop. rewrite Hstop in Hp. destruct Hp as [-> Hst].
    destruct R2; [done | discriminate].
  - intros Hstop. rewrite Hstop in Hp. destruct Hp as (post' & -> & Hnext).
    exists post'. split; [done|]. destruct (usable next); [|done].
    destruct Hnext as [?|[-> Hst]]; [by left|]. right.
    destruct R2; [done | discriminate].
Qed.

End StreamProperties.

(** *** The two example worlds *)

Section StreamExamples.
Import Stream.

Lemma handler_failure_policy_witness :
  ∃ post',
    [ Logged "Error in stream handler:" boom;
      Fetched "shard-1" "it1" (FetchOk 0 None); Slept 1000 ]
    = Logged "Error in stream handler:" boom :: post' ∧
    ((∃ result post'', post' = Fetched "shard-1" "it1" result :: post'')
     ∨ (post' = [] ∧ @nil (string * list Event) = []
        ∧ status unit
            (failingWorld_run
               {| cfg_batchSize := None; cfg_maxRecords := None;
                  cfg_pollInterval := None; cfg_stopOnError := Some false |})
          = OutOfFuel)).
Proof.
  destruct (handler_failure_policy None
              (λ _ w, (Returned (Some oneShard), w))
              (λ _ _ _ w, (Returned (Some "it0"), w))
              failingWorld_getRecords
              (λ _ w, (Raised boom, w))
              10 "arn:stream"
              {| cfg_batchSize := None; cfg_maxRecords := None;
                 cfg_pollInterval := None; cfg_stopOnError := Some false |}
              tt [] [] "shard-1" "shard-1" "it0" (Some "it1")
              [convertedRecord (JObject [("eventID", JString "1")])] boom
              [ IteratorRequested "shard-1";
                Fetched "shard-1" "it0" (FetchOk 1 (Some "it1")) ]
              [ Logged "Error in stream handler:" boom;
                Fetched "shard-1" "it1" (FetchOk 0 None); Slept 1000 ]
              eq_refl) as (_ & _ & H).
  exact (H eq_refl).
Defined.

(** C5 fails as stated: after the handler has thrown on the batch fetched
    at [it0], the processor fetches at [it1] and never again at [it0]. *)
Lemma handler_failure_moves_to_next_cursor :
  ∃ records pre post,
    shardRuns unit
      (failingWorld_run
         {| cfg_batchSize := None; cfg_maxRecords := None; cfg_pollInterval := None;
            cfg_stopOnError := Some false |})
    = [ ("shard-1",
         pre ++ HandlerInvoked "shard-1" "it0" (Some "it1") records (Some boom)
             :: post) ] ∧
    fetchCursors post = ["it1"] ∧
    "it0" ∉ fetchCursors post.
Proof.
  exists [convertedRecord (JObject [("eventID", JString "1")])],
    [ IteratorRequested "shard-1"; Fetched "shard-1" "it0" (FetchOk 1 (Some "it1")) ],
    [ Logged "Error in stream handler:" boom;
      Fetched "shard-1" "it1" (FetchOk 0 None); Slept 1000 ].
  split; [by vm_compute|]. split; [done|].
  cbn. by intros [=]%list_elem_of_singleton.
Qed.

End StreamExamples.

(** * Further properties *)

(** ** Query-mode builder: what a builder can hold *)

Section QueryBuilderInvariants.
Import QueryBuilder.

Lemma forEach_Forall {A : Type} (f : A → Result unit) (xs : list A) :
  forEach f xs = Ok tt → Forall (λ x, f x = Ok tt) xs.
Proof.
  induction xs as [|x xs IH]; cbn [forEach]; [by constructor|].
  unfold mbind, Result_bind. destruct (f x) as [[]|] eqn:E; [|done].
  intros H. constructor; [done | by apply IH].
Qed.

Lemma validateFieldName_pattern (f : string) :
  validateFieldName f = Ok tt → matchesFieldPattern f = true.
Proof.
  unfold validateFieldName, mbind, Result_bind, ensure.
  destruct (negb (String.eqb f "")); [|done].
  by destruct (matchesFieldPattern f).
Qed.

Lemma call_cap (c : Call) (b b' : t) :
  call c b = Ok b' →
  length (conditions b) ≤ MAX_CONDITIONS → length (conditions b') ≤ MAX_CONDITIONS.
Proof.
  destruct c; cbn -[pretty MAX_CONDITIONS];
    unfold usingIndex, withLimit, selectFields, equals, notEquals, greaterThan,
      lessThan, contains, beginsWith, in_, between, checkCount, push;
    unfold mbind, Result_bind, ensure; intros H;
    repeat (case_match; try discriminate); simplify_eq; cbn [conditions]; try done;
    rewrite length_app; cbn [length];
    match goal with H : negb (Nat.leb _ _) = true |- _ =>
      apply negb_true_iff, Nat.leb_gt in H end; lia.
Qed.

Lemma afterAll_cap (cs : list Call) (b : t) :
  length (conditions b) ≤ MAX_CONDITIONS →
  length (conditions (afterAll b cs)) ≤ MAX_CONDITIONS.
Proof.
  revert b. induction cs as [|c cs IH]; intros b Hb; cbn [afterAll foldl]; [done|].
  apply IH. unfold after. destruct (call c b) as [b'|] eqn:E; [|done].
  by eapply call_cap.
Qed.

Lemma call_at_cap (c : Call) (b b' : t) :
  length (conditions b) = MAX_CONDITIONS → call c b = Ok b' →
  conditions b' = conditions b.
Proof.
  intros Hb. destruct c; cbn -[pretty MAX_CONDITIONS];
    unfold usingIndex, withLimit, selectFields, equals, notEquals, greaterThan,
      lessThan, contains, beginsWith, in_, between, checkCount, push;
    rewrite ?Hb, ?Nat.leb_refl;
    unfold mbind, Result_bind, ensure; intros H;
    repeat (case_match; try discriminate); by simplify_eq.
Qed.

(** X1. Whatever is called on a new query builder, it never holds more
    than 100 conditions; and once it holds 100, a call that goes through
    has added none: only the settings methods still succeed. *)
Theorem query_builder_condition_cap (cs : list Call) :
  length (conditions (afterAll new cs)) ≤ 100 ∧
  ∀ c b', length (conditions (afterAll new cs)) = 100 →
    call c (afterAll new cs) = Ok b' →
    conditions b' = conditions (afterAll new cs).
Proof.
  split.
  - apply afterAll_cap. cbn. lia.
  - intros c b' Hlen. by apply call_at_cap.
Qed.

Lemma call_pushes_valid (c : Call) (b b' : t) :
  call c b = Ok b' →
  conditions b' = conditions b
  ∨ ∃ q, conditions b' = conditions b ++ [q] ∧ validCondition q.
Proof.
  destruct c; cbn -[pretty];
    unfold usingIndex, withLimit, selectFields, equals, notEquals, greaterThan,
      lessThan, contains, beginsWith, in_, between, push;
    unfold mbind, Result_bind; intros H;
    repeat match type of H with
    | match ?x with _ => _ end = _ => destruct x eqn:? ; try discriminate
    end;
    repeat match goal with a : () |- _ => destruct a end;
    injection H as <-; cbn [conditions]; try (by left); right;
    (eexists; split; [reflexivity|]);
    (split; [by apply validateFieldName_pattern|]); cbn [operation value].
  1,2,5: done.
  1,2,3: match goal with H : ensure ?x _ = Ok _ |- _ =>
           unfold ensure in H; by destruct x end.
  - eexists _, _. split; [done|]. by apply forEach_Forall.
  - unfold ensure, validNumber in *.
    destruct start as [| | |s| | |], end_ as [| | |e| | |]; cbn in *;
      rewrite ?andb_false_r in *; try done.
    exists s, e.
    destruct (PrimFloat.is_nan s), (PrimFloat.is_nan e), (PrimFloat.ltb e s); done.
Qed.

Lemma afterAll_valid (cs : list Call) (b : t) :
  Forall validCondition (conditions b) →
  Forall validCondition (conditions (afterAll b cs)).
Proof.
  revert b. induction cs as [|c cs IH]; intros b Hb; cbn [afterAll foldl]; [done|].
  apply IH. unfold after. destruct (call c b) as [b'|] eqn:E; [|done].
  destruct (call_pushes_valid c b b' E) as [-> | (q & -> & Hq)]; [done|].
  apply Forall_app. split; [done | by apply Forall_singleton].
Qed.

(** X2. Every condition a query builder holds, and so every condition
    [build()] returns, has passed the checks of the method that stored
    it: the field name is made of letters, digits and underscores; the
    value of [greaterThan]/[lessThan] is a number other than NaN, that of
    [beginsWith] a string, that of [in] a non-empty array without
    [undefined] or [null], that of [between] a pair of numbers with the
    end not below the start, and any other value is neither [undefined]
    nor [null] (nor a string above 400000 characters). *)
Theorem query_builder_conditions_are_validated (cs : list Call) :
  Forall validCondition (conditions (afterAll new cs)) ∧
  ∀ r, build (afterAll new cs) = Ok r →
       Forall validCondition (built_conditions r).
Proof.
  assert (Forall validCondition (conditions (afterAll new cs))) as H
    by (apply afterAll_valid; constructor).
  split; [done|]. unfold build. intros r.
  destruct (conditions (afterAll new cs)) eqn:E; [done|].
  intros [= <-]. cbn [built_conditions]. first [done | by rewrite E].
Qed.

Lemma query_call_settings (c : Call) (b b' : t) :
  call c b = Ok b' → validSettings b → validSettings b'.
Proof.
  intros H (Hi & Hl & Hs).
  destruct c; cbn -[pretty] in H;
    unfold usingIndex, withLimit, selectFields, equals, notEquals, greaterThan,
      lessThan, contains, beginsWith, in_, between, push in H;
    unfold mbind, Result_bind in H;
    repeat match type of H with
    | match ?x with _ => _ end = _ => destruct x eqn:? ; try discriminate
    end;
    repeat match goal with a : () |- _ => destruct a end;
    injection H as <-; try (by split_and!).
  - split_and!; [|done..]. cbn. intros ? [= <-].
    unfold validateIndexName, mbind, Result_bind, ensure in *.
    destruct (negb (String.eqb name "")); [|done].
    by destruct (matchesFieldPattern name).
  - split_and!; [done| |done]. cbn. intros ? [= <-].
    match goal with H : (_ || _) = false |- _ => by apply orb_false_iff in H end.
  - split_and!; [done..|]. cbn. intros ? [= <-].
    match goal with H : ensure _ _ = Ok _ |- _ => unfold ensure in H end.
    split; [by destruct fields|].
    match goal with H : forEach _ _ = Ok _ |- _ => apply forEach_Forall in H end.
    eapply Forall_impl; [done|]. intros f. apply validateFieldName_pattern.
Qed.

Lemma query_afterAll_settings (cs : list Call) (b : t) :
  validSettings b → validSettings (afterAll b cs).
Proof.
  revert b. induction cs as [|c cs IH]; intros b Hb; cbn [afterAll foldl]; [done|].
  apply IH. unfold after. destruct (call c b) as [b'|] eqn:E; [|done].
  by eapply query_call_settings.
Qed.

(** X3. The settings a query builder holds have passed their checks: an
    index name is made of letters, digits and underscores; a limit [x]
    satisfies neither [x < 1] nor [x > 1000]; a field selection is not
    empty and holds validated field names. The limit test is the
    source's pair of comparisons, which NaN passes. *)
Theorem query_builder_settings_are_validated (cs : list Call) :
  let b := afterAll new cs in
  (∀ name, indexName b = Some name → matchesFieldPattern name = true) ∧
  (∀ x, limit b = Some x →
     PrimFloat.ltb x 1%float = false ∧ PrimFloat.ltb MAX_LIMIT x = false) ∧
  (∀ fields, selectedFields b = Some fields →
     fields ≠ [] ∧ Forall (λ f, matchesFieldPattern f = true) fields).
Proof. apply (query_afterAll_settings cs new). by split_and!. Qed.

Lemma between_pushes (f : string) (s e : JsValue) (b b' : t) :
  between f s e b = Ok b' →
  b' = push b f (JArray [s; e]) BETWEEN ∧
  ∃ x y, s = JNumber x ∧ e = JNumber y ∧ PrimFloat.ltb y x = false.
Proof.
  unfold between, mbind, Result_bind, ensure, validNumber.
  destruct (validateFieldName f); [|done].
  destruct s as [| | |x| | |], e as [| | |y| | |]; cbn;
    rewrite ?andb_false_r; try done.
  destruct (negb (PrimFloat.is_nan x) && negb (PrimFloat.is_nan y)); [|done].
  destruct (PrimFloat.ltb y x) eqn:Hlt; cbn; [done|].
  destruct (checkCount b); [|done]. intros [= <-]. eauto 6.
Qed.

(** X4. [between(field, start, end)] as the first condition gives the
    key condition [field BETWEEN :start AND :end] with [:start] and
    [:end] bound to the two values, which are numbers, the end not below
    the start; with [end < start] the call throws. *)
Theorem between_builds_range_key_condition :
  (∀ f s e b b', conditions b = [] → between f s e b = Ok b' →
     ∃ x y r, s = JNumber x ∧ e = JNumber y ∧ PrimFloat.ltb y x = false ∧
       build b' = Ok r ∧
       expression (keyCondition r) = f +:+ " BETWEEN :start AND :end" ∧
       values (keyCondition r) = <[":end" := e]> (<[":start" := s]> ∅)) ∧
  (∀ f x y b, PrimFloat.ltb y x = true →
     ∃ msg, between f (JNumber x) (JNumber y) b = Throw msg).
Proof.
  split.
  - intros f s e b b' Hb H.
    destruct (between_pushes f s e b b' H) as (-> & x & y & -> & -> & Hlt).
    exists x, y. unfold build, push. cbn [conditions]. rewrite Hb. cbn [app].
    eexists. split_and!; done.
  - intros f x y b Hlt. unfold between, mbind, Result_bind, ensure.
    destruct (validateFieldName f); [|by eauto].
    destruct (validNumber (JNumber x) && validNumber (JNumber y)); [|by eauto].
    rewrite Hlt. cbn. eauto.
Qed.

Lemma between_builds_range_key_condition_witness :
  ∃ x y r, JNumber 20 = JNumber x ∧ JNumber 30 = JNumber y ∧
    PrimFloat.ltb y x = false ∧
    build (after new (CBetween "age" (JNumber 20) (JNumber 30))) = Ok r ∧
    expression (keyCondition r) = "age BETWEEN :start AND :end" ∧
    values (keyCondition r)
      = <[":end" := JNumber 30]> (<[":start" := JNumber 20]> ∅).
Proof.
  apply (proj1 between_builds_range_key_condition
           "age" (JNumber 20) (JNumber 30) new); reflexivity.
Defined.

End QueryBuilderInvariants.

(** ** Attribute paths and the names object *)

Section PathStrings.

Lemma split_nonempty (sep : ascii) (s : string) : split sep s ≠ [].
Proof.
  destruct s as [|c s]; cbn [split]; [done|].
  destruct (Ascii.eqb c sep); [done|]. by destruct (split sep s).
Qed.

Lemma join_cons (sep p : string) (ps : list string) :
  ps ≠ [] → join sep (p :: ps) = p +:+ sep +:+ join sep ps.
Proof. by destruct ps. Qed.

(** [s.split(sep).join(sep)] is [s] *)
Lemma join_split (sep : ascii) (s : string) :
  join (String sep "") (split sep s) = s.
Proof.
  induction s as [|c s IH]; cbn [split]; [done|].
  destruct (Ascii.eqb_spec c sep) as [->|Hne].
  - rewrite join_cons by apply split_nonempty. by rewrite IH.
  - pose proof (split_nonempty sep s) as Hs.
    destruct (split sep s) as [|p ps]; [done|].
    destruct ps as [|p' ps]; cbn [join] in *; by rewrite <-IH.
Qed.

Lemma split_no_separator (sep : ascii) (s : string) :
  Forall (λ p, includes sep p = false) (split sep s).
Proof.
  unfold includes.
  induction s as [|c s IH]; cbn [split]; [by repeat constructor|].
  destruct (Ascii.eqb_spec c sep) as [->|Hne]; [by constructor|].
  pose proof (split_nonempty sep s) as Hs.
  destruct (split sep s) as [|p ps]; [done|].
  apply Forall_cons in IH as [Hp Hps]. constructor; [|done].
  cbn [existsChar]. rewrite Hp, orb_false_r. by apply Ascii.eqb_neq.
Qed.

Lemma append_nil_l (s : string) : "" +:+ s = s.
Proof. done. Qed.

Lemma append_cons (c : ascii) (a b : string) : String c a +:+ b = String c (a +:+ b).
Proof. done. Qed.

Lemma append_assoc (a b c : string) : (a +:+ b) +:+ c = a +:+ b +:+ c.
Proof. induction a as [|x a IH]; [done|]. by rewrite !append_cons, IH. Qed.

Lemma split_app (sep : ascii) (a b : string) :
  split sep (a +:+ String sep b) = split sep a ++ split sep b.
Proof.
  induction a as [|c a IH]; rewrite ?append_nil_l, ?append_cons; cbn [split app].
  - by rewrite Ascii.eqb_refl.
  - rewrite IH. destruct (Ascii.eqb c sep); [done|].
    pose proof (split_nonempty sep a) as Ha.
    by destruct (split sep a).
Qed.

(** [parts.join(sep).split(sep)] is [parts] when no part contains [sep] *)
Lemma split_join (sep : ascii) (parts : list string) :
  parts ≠ [] → Forall (λ p, includes sep p = false) parts →
  split sep (join (String sep "") parts) = parts.
Proof.
  induction parts as [|p parts IH]; [done|]. intros _ [Hp Hps]%Forall_cons.
  destruct parts as [|p' parts].
  - cbn [join]. by apply split_without_separator.
  - rewrite join_cons by done. rewrite append_cons, append_nil_l.
    rewrite split_app, IH by done. by rewrite (split_without_separator _ _ Hp).
Qed.

Lemma join_app (sep : string) (l1 l2 : list string) :
  l1 ≠ [] → l2 ≠ [] →
  join sep (l1 ++ l2) = join sep l1 +:+ sep +:+ join sep l2.
Proof.
  induction l1 as [|p l1 IH]; [done|]. intros _ Hl2.
  destruct l1 as [|p' l1].
  - cbn [app]. by rewrite join_cons.
  - cbn [app]. rewrite join_cons by done.
    change (p' :: l1 ++ l2) with ((p' :: l1) ++ l2). rewrite IH by done.
    rewrite (join_cons sep p (p' :: l1)) by done.
    by rewrite !append_assoc.
Qed.

End PathStrings.

Section ResolverMirror.
Import ExpressionAttributeHandler.

Lemma pretty_go_digits (x : N) (s : string) :
  forallChars isDigit s = true → forallChars isDigit (pretty_N_go x s) = true.
Proof.
  revert s. induction x as [x IH] using (well_founded_induction N.lt_wf_0).
  intros s Hs. destruct (decide (0 < x)%N) as [Hx|Hx].
  - rewrite pretty_N_go_step by done. apply IH; [by apply N.div_lt|].
    cbn [forallChars]. rewrite Hs, andb_true_r.
    unfold pretty_N_char. by repeat case_match.
  - by assert (x = 0%N) as -> by lia.
Qed.

Lemma pretty_digits (n : nat) : forallChars isDigit (pretty n) = true.
Proof.
  unfold pretty, pretty_nat, pretty, pretty_N.
  case_decide; [done|]. by apply pretty_go_digits.
Qed.

Lemma digit_not_dot (c : ascii) : isDigit c = true → Ascii.eqb "." c = false.
Proof. by destruct c as [[] [] [] [] [] [] [] []]. Qed.

Lemma digits_no_dot (s : string) :
  forallChars isDigit s = true → includes "." s = false.
Proof.
  unfold includes. induction s as [|c s IH]; cbn [existsChar forallChars]; [done|].
  intros [Hc Hs]%andb_true_iff. by rewrite (digit_not_dot c Hc), (IH Hs).
Qed.

Lemma placeholder_shape (K : nat) :
  includes "." ("#n" +:+ pretty K) = false ∧ startsWithHash ("#n" +:+ pretty K) = true.
Proof.
  split; [|done]. rewrite !append_cons, append_nil_l. unfold includes.
  cbn [existsChar]. change (existsChar _ ?s) with (includes "." s).
  by rewrite (digits_no_dot _ (pretty_digits K)).
Qed.

Lemma mirrored_new : mirrored new.
Proof.
  split_and!; cbn.
  - intros part p. by rewrite !lookup_empty.
  - intros part p. by rewrite lookup_empty.
  - apply map_size_empty.
Qed.

Lemma resolvePart_mirrored (part : string) (h : t) :
  wellFormed h → mirrored h → mirrored (resolvePart part h).2.
Proof.
  intros Hwf (Hinv & Hneed & Hsize). unfold resolvePart.
  destruct (needsPlaceholder part) eqn:Hn; [|done].
  destruct (attributeNameMap h !! part) as [p|] eqn:E; [done|]. cbn [snd].
  set (p := "#n" +:+ pretty (S (nameCount h))).
  assert (∀ part' p', attributeNameMap h !! part' = Some p' → p' ≠ p) as Hfresh.
  { intros part' p' (K & -> & HK)%Hwf. unfold p.
    intros HK'%(inj (String.app "#n"))%(inj pretty). lia. }
  assert (expressionAttributeNames h !! p = None) as Hnone.
  { destruct (expressionAttributeNames h !! p) as [x|] eqn:Ex; [|done].
    apply Hinv in Ex. by destruct (Hfresh _ _ Ex). }
  split_and!; cbn [attributeNameMap expressionAttributeNames nameCount].
  - intros part' p'. rewrite !lookup_insert_Some, <-Hinv. split.
    + intros [[<- <-] | [Hne Hl]]; [by left | right]. split; [|done].
      intros <-. by destruct (Hfresh _ _ Hl).
    + intros [[<- <-] | [Hne Hl]]; [by left | right]. split; [|done].
      intros <-. congruence.
  - intros part' p'. rewrite lookup_insert_Some.
    intros [[<- _] | [_ Hl]]; [done | by eapply Hneed].
  - rewrite map_size_insert_None by done. by rewrite Hsize.
Qed.

Lemma resolveParts_mirrored (parts : list string) (h : t) :
  wellFormed h → mirrored h → mirrored (resolveParts parts h).2.
Proof.
  revert h. induction parts as [|part parts IH]; intros h Hwf Hm; cbn [resolveParts];
    [done|].
  pose proof (resolvePart_mirrored part h Hwf Hm) as Hm1.
  destruct (resolvePart_spec part h Hwf) as [Hwf1 _].
  destruct (resolvePart part h) as [p h1]. cbn [snd] in *.
  specialize (IH h1 Hwf1 Hm1). by destruct (resolveParts parts h1).
Qed.

Lemma getExpressionAttributeName_mirrored (a : string) (h : t) :
  wellFormed h → mirrored h → mirrored (getExpressionAttributeName a h).2.
Proof.
  intros Hwf Hm. unfold getExpressionAttributeName.
  pose proof (resolveParts_mirrored (split "." a) h Hwf Hm).
  by destruct (resolveParts (split "." a) h).
Qed.

Lemma resolveAll_mirrored (attrs : list string) (h : t) :
  wellFormed h → mirrored h → mirrored (resolveAll attrs h).2.
Proof.
  revert h. induction attrs as [|a attrs IH]; intros h Hwf Hm; cbn [resolveAll];
    [done|].
  pose proof (getExpressionAttributeName_mirrored a h Hwf Hm) as Hm1.
  destruct (getExpressionAttributeName_spec a h Hwf) as [Hwf1 _].
  destruct (getExpressionAttributeName a h) as [p h1]. cbn [snd] in *.
  specialize (IH h1 Hwf1 Hm1). by destruct (resolveAll attrs h1).
Qed.

Lemma rewriteAttrs_mirrored (attrs : list string) (e : string) (h : t) :
  wellFormed h → mirrored h → mirrored (foldl rewriteAttr (e, h) attrs).2.
Proof.
  revert e h. induction attrs as [|a attrs IH]; intros e h Hwf Hm; cbn [foldl];
    [done|].
  unfold rewriteAttr at 2. destruct (isReservedWord a); [|by apply IH].
  pose proof (getExpressionAttributeName_mirrored a h Hwf Hm) as Hm1.
  destruct (getExpressionAttributeName_spec a h Hwf) as [Hwf1 _].
  destruct (getExpressionAttributeName a h) as [p h1]. by apply IH.
Qed.

Lemma after_mirrored (h : t) (c : Call) :
  wellFormed h → mirrored h → mirrored (after h c).
Proof.
  intros Hwf Hm. destruct c as [a|attrs|e|]; cbn [after].
  - by apply getExpressionAttributeName_mirrored.
  - unfold processProjectionExpression.
    pose proof (resolveAll_mirrored attrs h Hwf Hm).
    by destruct (resolveAll attrs h).
  - unfold processKeyConditionExpression.
    pose proof (rewriteAttrs_mirrored (matchAttributes e) e h Hwf Hm).
    by destruct (foldl rewriteAttr (e, h) (matchAttributes e)).
  - apply mirrored_new.
Qed.

Lemma afterAll_mirrored (cs : list Call) (h : t) :
  wellFormed h → mirrored h → mirrored (foldl after h cs).
Proof.
  revert h. induction cs as [|c cs IH]; intros h Hwf Hm; cbn [foldl]; [done|].
  apply IH; [by apply after_wf | by apply after_mirrored].
Qed.

(** X5. In every state the handler's methods can bring it to, the names
    object is the mirror image of the memo: a placeholder is bound to a
    segment exactly when the memo maps that segment to the placeholder,
    so two segments never share a placeholder. Every name registered
    needed a placeholder (a reserved word, or a segment with a hyphen or
    a space), its placeholder is [#n] followed by a counter value between
    1 and [nameCount], there are [nameCount] names, and
    [getExpressionAttributeNames()] is [undefined] exactly when none was
    registered. *)
Theorem placeholders_mirror_the_names (cs : list Call) :
  let h := foldl after new cs in
  (∀ part p, attributeNameMap h !! part = Some p ↔
             expressionAttributeNames h !! p = Some part) ∧
  (∀ p part, expressionAttributeNames h !! p = Some part →
             needsPlaceholder part = true ∧
             ∃ K, p = "#n" +:+ pretty K ∧ 1 ≤ K ≤ nameCount h) ∧
  size (expressionAttributeNames h) = nameCount h ∧
  (getExpressionAttributeNames h = None ↔ nameCount h = 0).
Proof.
  intros h.
  assert (wellFormed h) as Hwf by apply afterAll_wf, wf_new.
  destruct (afterAll_mirrored cs new wf_new mirrored_new) as (Hinv & Hneed & Hsize).
  fold h in Hinv, Hneed, Hsize. split_and!; [done| |done|].
  - intros p part Hp%Hinv. split; [by eapply Hneed | by eapply Hwf].
  - unfold getExpressionAttributeNames. rewrite Hsize.
    destruct (nameCount h); cbn; split; (done || lia).
Qed.

Lemma names_key_hash (h : t) (p part : string) :
  wellFormed h → mirrored h →
  expressionAttributeNames h !! p = Some part → startsWithHash p = true.
Proof. intros Hwf (Hinv & _) Hp%Hinv. by destruct (Hwf _ _ Hp) as (K & -> & _). Qed.

Lemma resolvePart_expand (part : string) (h h'' : t) :
  wellFormed h →
  needsPlaceholder part || negb (startsWithHash part) = true →
  wellFormed h'' → mirrored h'' → extends (resolvePart part h).2 h'' →
  expandPart (expressionAttributeNames h'') (resolvePart part h).1 = part.
Proof.
  intros Hwf Hpart Hwf'' Hm'' [Hsub _]. unfold expandPart.
  assert (∀ p, attributeNameMap (resolvePart part h).2 !! part = Some p →
            default p (expressionAttributeNames h'' !! p) = part) as Hreg.
  { intros p Hp. destruct Hm'' as (Hinv & _).
    by rewrite (proj1 (Hinv part p) (lookup_weaken _ _ _ _ Hp Hsub)). }
  revert Hsub Hreg. unfold resolvePart.
  destruct (needsPlaceholder part) eqn:Hn.
  - destruct (attributeNameMap h !! part) as [p|] eqn:E; cbn [fst snd]; intros _ Hreg.
    + by apply Hreg.
    + apply Hreg. cbn. by rewrite lookup_insert_eq.
  - cbn [fst snd]. intros _ _. cbn in Hpart. apply negb_true_iff in Hpart.
    destruct (expressionAttributeNames h'' !! part) as [x|] eqn:Ex; [|done].
    by rewrite (names_key_hash h'' part x Hwf'' Hm'' Ex) in Hpart.
Qed.

Lemma resolveParts_expand (parts : list string) (h h'' : t) :
  wellFormed h →
  forallb (λ part, needsPlaceholder part || negb (startsWithHash part)) parts = true →
  wellFormed h'' → mirrored h'' → extends (resolveParts parts h).2 h'' →
  expandPart (expressionAttributeNames h'') <$> (resolveParts parts h).1 = parts.
Proof.
  revert h. induction parts as [|part parts IH]; intros h Hwf Hparts Hwf'' Hm'';
    cbn [resolveParts forallb] in *; [done|].
  apply andb_true_iff in Hparts as [Hpart Hparts].
  pose proof (resolvePart_expand part h h'' Hwf Hpart Hwf'' Hm'') as H1.
  destruct (resolvePart_spec part h Hwf) as [Hwf1 _].
  destruct (resolvePart part h) as [p h1]. cbn [fst snd] in *.
  specialize (IH h1 Hwf1 Hparts Hwf'' Hm'').
  destruct (resolveParts_spec parts h1 Hwf1) as [_ Hext].
  destruct (resolveParts parts h1) as [ps h2]. cbn [fst snd fmap list_fmap] in *.
  intros Hext2. rewrite IH by done. f_equal. apply H1.
  by eapply extends_trans.
Qed.

Lemma resolvePart_no_dot (part : string) (h : t) :
  wellFormed h → includes "." part = false →
  includes "." (resolvePart part h).1 = false.
Proof.
  intros Hwf Hpart. unfold resolvePart.
  destruct (needsPlaceholder part); [|done].
  destruct (attributeNameMap h !! part) as [p|] eqn:E; cbn [fst].
  - destruct (Hwf _ _ E) as (K & -> & _). apply placeholder_shape.
  - apply placeholder_shape.
Qed.

Lemma resolveParts_no_dot (parts : list string) (h : t) :
  wellFormed h → Forall (λ p, includes "." p = false) parts →
  Forall (λ p, includes "." p = false) (resolveParts parts h).1 ∧
  length (resolveParts parts h).1 = length parts.
Proof.
  revert h. induction parts as [|part parts IH]; intros h Hwf Hparts;
    cbn [resolveParts]; [done|].
  apply Forall_cons in Hparts as [Hpart Hparts].
  pose proof (resolvePart_no_dot part h Hwf Hpart) as H1.
  destruct (resolvePart_spec part h Hwf) as [Hwf1 _].
  destruct (resolvePart part h) as [p h1]. cbn [fst snd] in *.
  destruct (IH h1 Hwf1 Hparts) as [H2 H3].
  destruct (resolveParts parts h1) as [ps h2]. cbn [fst snd length] in *.
  split; [by constructor | by rewrite H3].
Qed.

Lemma getExpressionAttributeName_expand (a : string) (h h'' : t) :
  wellFormed h →
  forallb (λ part, needsPlaceholder part || negb (startsWithHash part))
          (split "." a) = true →
  wellFormed h'' → mirrored h'' → extends (getExpressionAttributeName a h).2 h'' →
  expandPath (expressionAttributeNames h'') (getExpressionAttributeName a h).1 = a.
Proof.
  intros Hwf Hparts Hwf'' Hm''. unfold getExpressionAttributeName, expandPath.
  pose proof (resolveParts_expand (split "." a) h h'' Hwf Hparts Hwf'' Hm'') as Hx.
  destruct (resolveParts_no_dot (split "." a) h Hwf (split_no_separator "." a))
    as [Hdot Hlen].
  destruct (resolveParts (split "." a) h) as [ps h1]. cbn [fst snd] in *.
  intros Hext. rewrite split_join; [| |done].
  - rewrite Hx by done. apply join_split.
  - intros ->. by destruct (split_nonempty "." a); destruct (split "." a).
Qed.

(** X6. Substituting the registered names back into what
    [getExpressionAttributeName] returned gives the original path: for a
    path none of whose unescaped segments starts with [#], replacing each
    segment of the result that is a key of the names object by the name
    bound to it restores the path, with the names as they are right after
    the call and as they are after any further calls other than [reset].
    ([expandPath] is that replacement.) *)
Theorem resolved_path_expands_to_original (cs cs' : list Call) (a : string) :
  forallb (λ part, needsPlaceholder part || negb (startsWithHash part))
          (split "." a) = true →
  forallb (λ c, negb (isReset c)) cs' = true →
  let h := foldl after new cs in
  let resolved := getExpressionAttributeName a h in
  expandPath (expressionAttributeNames (foldl after resolved.2 cs')) resolved.1 = a.
Proof.
  intros Hparts Hcs' h resolved.
  assert (wellFormed h) as Hwf by apply afterAll_wf, wf_new.
  assert (mirrored h) as Hm by (apply afterAll_mirrored; [apply wf_new | apply mirrored_new]).
  destruct (getExpressionAttributeName_spec a h Hwf) as [Hwf1 _].
  pose proof (getExpressionAttributeName_mirrored a h Hwf Hm) as Hm1.
  apply getExpressionAttributeName_expand; [done..| | |].
  - by apply afterAll_wf.
  - by apply afterAll_mirrored.
  - by apply afterAll_extends.
Qed.

Lemma resolved_path_expands_to_original_witness :
  expandPath
    (expressionAttributeNames
       (foldl after (getExpressionAttributeName "order.user-id.zip" new).2
          [CGetName "status"]))
    (getExpressionAttributeName "order.user-id.zip" new).1
  = "order.user-id.zip".
Proof.
  apply (resolved_path_expands_to_original [] [CGetName "status"]
           "order.user-id.zip"); by vm_compute.
Defined.

Lemma resolveParts_app (l1 l2 : list string) (h : t) :
  resolveParts (l1 ++ l2) h =
    ((resolveParts l1 h).1 ++ (resolveParts l2 (resolveParts l1 h).2).1,
     (resolveParts l2 (resolveParts l1 h).2).2).
Proof.
  revert h. induction l1 as [|part l1 IH]; intros h; cbn [app resolveParts fst snd].
  - by destruct (resolveParts l2 h).
  - destruct (resolvePart part h) as [p h1]. rewrite IH.
    by destruct (resolveParts l1 h1).
Qed.

Lemma resolveParts_length (parts : list string) (h : t) :
  length (resolveParts parts h).1 = length parts.
Proof.
  revert h. induction parts as [|part parts IH]; intros h; cbn [resolveParts]; [done|].
  destruct (resolvePart part h) as [p h1]. specialize (IH h1).
  destruct (resolveParts parts h1). cbn [fst length] in *. by rewrite IH.
Qed.

(** X7. A nested path is resolved segment by segment, left to right, on
    one handler: resolving [a.b] is resolving [a], then [b] on the handler
    left by [a], and joining the two results with a dot. *)
Theorem dotted_path_is_resolved_segment_by_segment (a b : string) (h : t) :
  let first := getExpressionAttributeName a h in
  let second := getExpressionAttributeName b first.2 in
  getExpressionAttributeName (a +:+ "." +:+ b) h
    = (first.1 +:+ "." +:+ second.1, second.2).
Proof.
  cbn zeta. unfold getExpressionAttributeName.
  rewrite append_cons, append_nil_l, split_app, resolveParts_app.
  pose proof (resolveParts_length (split "." a) h) as Ha.
  destruct (resolveParts (split "." a) h) as [pa h1]. cbn [fst snd] in *.
  pose proof (resolveParts_length (split "." b) h1) as Hb.
  destruct (resolveParts (split "." b) h1) as [pb h2]. cbn [fst snd] in *.
  rewrite join_app; [done| |].
  - intros ->. by destruct (split_nonempty "." a); destruct (split "." a).
  - intros ->. by destruct (split_nonempty "." b); destruct (split "." b).
Qed.

Lemma resolveParts_plain (parts : list string) (h : t) :
  forallb (λ part, negb (needsPlaceholder part)) parts = true →
  resolveParts parts h = (parts, h).
Proof.
  induction parts as [|part parts IH]; cbn [resolveParts forallb]; [done|].
  intros [Hp Hps]%andb_true_iff. unfold resolvePart.
  apply negb_true_iff in Hp. by rewrite Hp, (IH Hps).
Qed.

Lemma getExpressionAttributeName_plain (a : string) (h : t) :
  forallb (λ part, negb (needsPlaceholder part)) (split "." a) = true →
  getExpressionAttributeName a h = (a, h).
Proof.
  intros Hparts. unfold getExpressionAttributeName.
  by rewrite (resolveParts_plain _ h Hparts), join_split.
Qed.

Lemma resolveAll_plain (attrs : list string) (h : t) :
  forallb (λ a, forallb (λ part, negb (needsPlaceholder part)) (split "." a)) attrs
    = true →
  resolveAll attrs h = (attrs, h).
Proof.
  induction attrs as [|a attrs IH]; cbn [resolveAll forallb]; [done|].
  intros [Ha Hattrs]%andb_true_iff.
  by rewrite (getExpressionAttributeName_plain a h Ha), (IH Hattrs).
Qed.

(** X8. Paths none of whose segments is a reserved word or has a hyphen or
    a space are returned as they are and leave the handler untouched;
    [processProjectionExpression] on such paths returns them joined with
    [", "] and registers nothing. *)
Theorem plain_paths_are_returned_unchanged (attrs : list string) (h : t) :
  forallb (λ a, forallb (λ part, negb (needsPlaceholder part)) (split "." a)) attrs
    = true →
  Forall (λ a, getExpressionAttributeName a h = (a, h)) attrs ∧
  processProjectionExpression attrs h
    = ((join ", " attrs, getExpressionAttributeNames h), h).
Proof.
  intros Hattrs. split.
  - apply Forall_forall. intros a Ha. apply getExpressionAttributeName_plain.
    rewrite forallb_forall in Hattrs. apply Hattrs. by apply list_elem_of_In.
  - unfold processProjectionExpression. by rewrite (resolveAll_plain attrs h Hattrs).
Qed.

Lemma plain_paths_are_returned_unchanged_witness :
  Forall (λ a, getExpressionAttributeName a new = (a, new)) ["id"; "address.city"] ∧
  processProjectionExpression ["id"; "address.city"] new
    = (("id, address.city", getExpressionAttributeNames new), new).
Proof.
  apply (plain_paths_are_returned_unchanged ["id"; "address.city"] new).
  by vm_compute.
Defined.

Lemma resolveAll_expand (attrs : list string) (h h'' : t) :
  wellFormed h →
  forallb (λ a, forallb (λ part, needsPlaceholder part || negb (startsWithHash part))
                        (split "." a)) attrs = true →
  wellFormed h'' → mirrored h'' → extends (resolveAll attrs h).2 h'' →
  expandPath (expressionAttributeNames h'') <$> (resolveAll attrs h).1 = attrs.
Proof.
  revert h. induction attrs as [|a attrs IH]; intros h Hwf Hattrs Hwf'' Hm'';
    cbn [resolveAll forallb] in *; [done|].
  apply andb_true_iff in Hattrs as [Ha Hattrs].
  pose proof (getExpressionAttributeName_expand a h h'' Hwf Ha Hwf'' Hm'') as H1.
  destruct (getExpressionAttributeName_spec a h Hwf) as [Hwf1 _].
  destruct (getExpressionAttributeName a h) as [p h1]. cbn [fst snd] in *.
  specialize (IH h1 Hwf1 Hattrs Hwf'' Hm'').
  destruct (resolveAll_spec attrs h1 Hwf1) as [_ Hext].
  destruct (resolveAll attrs h1) as [ps h2]. cbn [fst snd fmap list_fmap] in *.
  intros Hext2. rewrite IH by done. f_equal. apply H1.
  by eapply extends_trans.
Qed.

Lemma names_or_empty (h : t) :
  default ∅ (getExpressionAttributeNames h) = expressionAttributeNames h.
Proof.
  unfold getExpressionAttributeNames.
  destruct (size (expressionAttributeNames h)) eqn:E; cbn; [|done].
  symmetry. by apply map_size_empty_iff.
Qed.

(** X9. [processProjectionExpression], on a handler in any state, returns
    the resolved paths joined with [", "]; substituting the returned names
    back into these paths gives the attributes asked for, in order
    (attributes none of whose unescaped segments starts with [#]). *)
Theorem projection_expands_to_selected_attributes
    (cs : list Call) (attrs : list string) :
  forallb (λ a, forallb (λ part, needsPlaceholder part || negb (startsWithHash part))
                        (split "." a)) attrs = true →
  let result := (processProjectionExpression attrs (foldl after new cs)).1 in
  ∃ paths, result.1 = join ", " paths ∧
           expandPath (default ∅ result.2) <$> paths = attrs.
Proof.
  intros Hattrs. cbn zeta. unfold processProjectionExpression.
  set (h := foldl after new cs).
  assert (wellFormed h) as Hwf by apply afterAll_wf, wf_new.
  assert (mirrored h) as Hm
    by (apply afterAll_mirrored; [apply wf_new | apply mirrored_new]).
  pose proof (resolveAll_expand attrs h (resolveAll attrs h).2 Hwf Hattrs) as Hx.
  destruct (resolveAll_spec attrs h Hwf) as [Hwf1 _].
  pose proof (resolveAll_mirrored attrs h Hwf Hm) as Hm1.
  destruct (resolveAll attrs h) as [ps h1]. cbn [fst snd] in *.
  exists ps. split; [done|]. rewrite names_or_empty.
  apply Hx; [done..|apply extends_refl].
Qed.

Lemma projection_expands_to_selected_attributes_witness :
  ∃ paths,
    (processProjectionExpression ["id"; "user.name"; "size"] new).1.1
      = join ", " paths ∧
    expandPath
      (default ∅ (processProjectionExpression ["id"; "user.name"; "size"] new).1.2)
      <$> paths
    = ["id"; "user.name"; "size"].
Proof.
  apply (projection_expands_to_selected_attributes [] ["id"; "user.name"; "size"]).
  by vm_compute.
Defined.

Lemma processKeyConditionExpression_plain (e : string) (h : t) :
  forallb (λ attr, negb (isReservedWord attr)) (matchAttributes e) = true →
  processKeyConditionExpression e h = ((e, getExpressionAttributeNames h), h).
Proof.
  unfold processKeyConditionExpression. generalize (matchAttributes e) as attrs.
  intros attrs Hattrs.
  assert (foldl rewriteAttr (e, h) attrs = (e, h)) as ->; [|done].
  induction attrs as [|attr attrs IH]; cbn [foldl forallb] in *; [done|].
  apply andb_true_iff in Hattrs as [Ha Hattrs]. apply negb_true_iff in Ha.
  unfold rewriteAttr at 2. rewrite Ha. by apply IH.
Qed.

End ResolverMirror.

(** ** Query and read commands *)

Section QueryCommandProperties.
Import ExpressionAttributeHandler QueryTable.

Lemma processKeyConditionExpression_names (e : string) (h : t) :
  (processKeyConditionExpression e h).1.2
    = getExpressionAttributeNames (processKeyConditionExpression e h).2.
Proof. unfold processKeyConditionExpression. by destruct (foldl _ _ _). Qed.

Lemma processProjectionExpression_eq (attrs : list string) (h : t) :
  processProjectionExpression attrs h
    = ((join ", " (resolveAll attrs h).1,
        getExpressionAttributeNames (resolveAll attrs h).2),
       (resolveAll attrs h).2).
Proof. unfold processProjectionExpression. by destruct (resolveAll attrs h). Qed.

Lemma union_absorb {A : Type} (m s : gmap string A) : s ⊆ m → m ∪ s = m.
Proof.
  intros Hs. apply map_eq. intros k. rewrite lookup_union.
  destruct (m !! k) as [x|] eqn:Em; [by destruct (s !! k)|].
  destruct (s !! k) as [y|] eqn:Ey; [|done].
  by rewrite (lookup_weaken _ _ _ _ Ey Hs) in Em.
Qed.

(** Read once the handler has reached the state [h], the names objects
    returned on the way make up the names of [h], provided the last of
    them was returned in that state. *)
Lemma names_read_at_end (h : t) (first second last : option (gmap string string)) :
  (last = getExpressionAttributeNames h
   ∨ last = None ∧ (second = getExpressionAttributeNames h
                    ∨ second = None ∧ first = getExpressionAttributeNames h)) →
  (let names := default ∅ (spread (spread (readAt h first) (readAt h second))
                                  (readAt h last)) in
   if Nat.ltb 0 (size names) then Some names else None)
  = getExpressionAttributeNames h.
Proof.
  intros Hlast. cbn zeta.
  assert (default ∅ (spread (spread (readAt h first) (readAt h second)) (readAt h last))
          = expressionAttributeNames h) as ->; [|done].
  unfold spread, readAt. cbn [default from_option id].
  assert (∀ o : option (gmap string string),
            o = getExpressionAttributeNames h →
            default ∅ (match o with
                       | Some _ => Some (expressionAttributeNames h)
                       | None => None
                       end) = expressionAttributeNames h) as Hread.
  { intros o ->. unfold getExpressionAttributeNames.
    destruct (size (expressionAttributeNames h)) eqn:E; cbn; [|done].
    symmetry. by apply map_size_empty_iff. }
  assert (∀ o : option (gmap string string),
            default ∅ (match o with
                       | Some _ => Some (expressionAttributeNames h)
                       | None => None
                       end) ⊆ expressionAttributeNames h) as Hsub.
  { intros [x|]; cbn; [done | apply map_empty_subseteq]. }
  destruct Hlast as [Hl | [-> [Hs | [-> Hf]]]].
  - rewrite (Hread last Hl). apply union_absorb, map_union_least; apply Hsub.
  - cbn [default from_option id]. rewrite (left_id ∅ (∪)), (Hread second Hs).
    apply union_absorb, Hsub.
  - cbn [default from_option id]. rewrite !(left_id ∅ (∪)). by apply Hread.
Qed.

Lemma processKeyConditionExpression_sound (e : string) (h : t) :
  wellFormed h → mirrored h →
  wellFormed (processKeyConditionExpression e h).2 ∧
  mirrored (processKeyConditionExpression e h).2 ∧
  extends h (processKeyConditionExpression e h).2.
Proof.
  intros Hwf Hm. unfold processKeyConditionExpression.
  destruct (rewriteAttrs_spec (matchAttributes e) e h Hwf) as [H1 H2].
  pose proof (rewriteAttrs_mirrored (matchAttributes e) e h Hwf Hm) as H3.
  by destruct (foldl rewriteAttr (e, h) (matchAttributes e)).
Qed.

Lemma processFilter_sound (filter : option Condition) (h : t) :
  wellFormed h → mirrored h →
  wellFormed (processFilter filter h).2 ∧ mirrored (processFilter filter h).2 ∧
  extends h (processFilter filter h).2.
Proof.
  intros Hwf Hm. destruct filter as [f|]; cbn [processFilter snd].
  - by apply processKeyConditionExpression_sound.
  - split_and!; [done..|apply extends_refl].
Qed.

Lemma queryCommand_names (tableName : string) (params : QueryParams) :
  ExpressionAttributeNames (queryCommand tableName params)
  = getExpressionAttributeNames
      (processFilter (filter params)
         (processSelect (select params)
            (processKeyConditionExpression
               (expression (keyCondition params)) new).2).2).2.
Proof.
  unfold queryCommand. cbn [ExpressionAttributeNames].
  apply names_read_at_end.
  set (h1 := (processKeyConditionExpression _ new).2).
  destruct (filter params) as [f|]; cbn [processFilter fst snd].
  { left. apply processKeyConditionExpression_names. }
  right. split; [done|].
  destruct (select params) as [[|a l]|]; cbn [processSelect fst snd].
  - right. split; [done|]. apply processKeyConditionExpression_names.
  - left. by rewrite processProjectionExpression_eq.
  - right. split; [done|]. apply processKeyConditionExpression_names.
Qed.

(** X10. In the command [queryTable] sends, the projection expression is
    the resolved selection joined with [", "], and substituting the
    command's [ExpressionAttributeNames] back into it gives the selected
    attributes: the names registered while the key condition and the
    filter were processed do not get in the way. This holds of a
    selection in which no segment that is kept as it is (a segment that
    needs no placeholder) starts with [#]; a selected [#n1] would be read
    back as the placeholder of that name. *)
Theorem query_projection_expands_to_selected_attributes
    (tableName : string) (params : QueryParams) (attrs : list string) :
  select params = Some attrs → attrs ≠ [] →
  forallb (λ a, forallb (λ part, needsPlaceholder part || negb (startsWithHash part))
                        (split "." a)) attrs = true →
  let command := queryCommand tableName params in
  ∃ paths, ProjectionExpression command = Some (join ", " paths) ∧
           expandPath (default ∅ (ExpressionAttributeNames command)) <$> paths = attrs.
Proof.
  intros Hs Hne Hattrs. cbn zeta. rewrite queryCommand_names, names_or_empty.
  unfold queryCommand. cbn [ProjectionExpression]. rewrite Hs.
  destruct attrs as [|a l]; [done|]. cbn [processSelect fst snd].
  rewrite processProjectionExpression_eq. cbn [fst snd].
  destruct (processKeyConditionExpression_sound
              (expression (keyCondition params)) new wf_new mirrored_new)
    as (Hwf1 & Hm1 & _).
  set (h1 := (processKeyConditionExpression _ new).2) in *.
  destruct (resolveAll_spec (a :: l) h1 Hwf1) as [Hwf2 _].
  pose proof (resolveAll_mirrored (a :: l) h1 Hwf1 Hm1) as Hm2.
  destruct (processFilter_sound (filter params) _ Hwf2 Hm2) as (Hwf3 & Hm3 & Hext).
  eexists. split; [done|]. by apply resolveAll_expand.
Qed.

Lemma spread_lookup {A : Type} (a b : option (gmap string A)) (k : string) :
  default ∅ (spread a b) !! k
  = match default ∅ b !! k with
    | Some v => Some v
    | None => default ∅ a !! k
    end.
Proof.
  unfold spread. cbn [default from_option id]. rewrite lookup_union.
  by destruct (default ∅ b !! k), (default ∅ a !! k).
Qed.

(** X11. [queryTable] sends no [ExpressionAttributeValues] exactly when
    neither the key condition nor the filter came with values; otherwise
    it sends the key condition's values overlaid with the filter's: on a
    key both bind, the filter's value is sent. *)
Theorem query_filter_values_win_over_key_values
    (tableName : string) (params : QueryParams) :
  let command := queryCommand tableName params in
  let keyValues := values (keyCondition params) in
  let filterValues := filter params ≫= values in
  (ExpressionAttributeValues command = None ↔ keyValues = None ∧ filterValues = None) ∧
  ∀ k, default ∅ (ExpressionAttributeValues command) !! k
       = match default ∅ filterValues !! k with
         | Some v => Some v
         | None => default ∅ keyValues !! k
         end.
Proof.
  cbn zeta. unfold queryCommand. cbn [ExpressionAttributeValues]. split.
  - destruct (values (keyCondition params)), (filter params ≫= values);
      unfold spread; split; (done || by intros []).
  - intros k. destruct (values (keyCondition params)) as [kv|] eqn:Ek.
    + apply spread_lookup.
    + destruct (filter params ≫= values) as [fv|] eqn:Ef; [apply spread_lookup|].
      cbn. by rewrite lookup_empty.
Qed.

(** X12. When no identifier the scanner finds in the key condition or in
    the filter is a reserved word, and no segment of a selected attribute
    needs a placeholder, [queryTable] sends the key condition and the
    filter as written, the selection joined with [", "], and no
    [ExpressionAttributeNames]. *)
Theorem query_without_reserved_words_is_sent_as_written
    (tableName : string) (params : QueryParams) :
  forallb (λ attr, negb (isReservedWord attr))
          (matchAttributes (expression (keyCondition params))) = true →
  (∀ f, filter params = Some f →
     forallb (λ attr, negb (isReservedWord attr)) (matchAttributes (expression f))
       = true) →
  (∀ attrs, select params = Some attrs →
     forallb (λ a, forallb (λ part, negb (needsPlaceholder part)) (split "." a)) attrs
       = true) →
  let command := queryCommand tableName params in
  KeyConditionExpression command = expression (keyCondition params) ∧
  FilterExpression command = expression <$> filter params ∧
  ProjectionExpression command
    = match select params with
      | Some (a :: l) => Some (join ", " (a :: l))
      | _ => None
      end ∧
  ExpressionAttributeNames command = None.
Proof.
  intros Hkey Hfilter Hselect. cbn zeta. rewrite queryCommand_names.
  unfold queryCommand.
  cbn [KeyConditionExpression FilterExpression ProjectionExpression].
  rewrite (processKeyConditionExpression_plain _ new Hkey).
  cbn [fst snd].
  assert (processSelect (select params) new
          = ((match select params with
              | Some (a :: l) => Some (join ", " (a :: l))
              | _ => None
              end, None), new)) as ->.
  { destruct (select params) as [[|a l]|] eqn:Es; cbn [processSelect]; [done| |done].
    rewrite processProjectionExpression_eq.
    by rewrite (resolveAll_plain (a :: l) new (Hselect _ eq_refl)). }
  cbn [fst snd].
  assert (processFilter (filter params) new
          = ((expression <$> filter params, None), new)) as ->.
  { destruct (filter params) as [f|] eqn:Ef; cbn [processFilter]; [|done].
    by rewrite (processKeyConditionExpression_plain _ new
                  (Hfilter f eq_refl)). }
  done.
Qed.

Lemma query_projection_expands_to_selected_attributes_witness :
  let command :=
    queryCommand "orders"
      {| keyCondition := {| expression := "pk = :pk";
                            values := Some {[ ":pk" := JString "u1" ]} |};
         sortKeyCondition := None; indexName := None;
         filter := Some {| expression := "contains(size, :s)"; values := None |};
         select := Some ["name"; "address.zip-code"];
         limit := None; scanIndexForward := None; consistentRead := None;
         exclusiveStartKey := None |} in
  ∃ paths, ProjectionExpression command = Some (join ", " paths) ∧
           expandPath (default ∅ (ExpressionAttributeNames command)) <$> paths
           = ["name"; "address.zip-code"].
Proof.
  apply (query_projection_expands_to_selected_attributes "orders" _
           ["name"; "address.zip-code"]); [reflexivity | discriminate | by vm_compute].
Defined.

Lemma query_without_reserved_words_is_sent_as_written_witness :
  let command :=
    queryCommand "orders"
      {| keyCondition := {| expression := "pk = :pk AND begins_with(sk, :prefix)";
                            values := None |};
         sortKeyCondition := None; indexName := None;
         filter := Some {| expression := "price > :min"; values := None |};
         select := Some ["pk"; "customer.email"];
         limit := None; scanIndexForward := None; consistentRead := None;
         exclusiveStartKey := None |} in
  KeyConditionExpression command = "pk = :pk AND begins_with(sk, :prefix)" ∧
  FilterExpression command = Some "price > :min" ∧
  ProjectionExpression command = Some "pk, customer.email" ∧
  ExpressionAttributeNames command = None.
Proof.
  apply (query_without_reserved_words_is_sent_as_written "orders"
           {| keyCondition := {| expression := "pk = :pk AND begins_with(sk, :prefix)";
                                 values := None |};
              sortKeyCondition := None; indexName := None;
              filter := Some {| expression := "price > :min"; values := None |};
              select := Some ["pk"; "customer.email"];
              limit := None; scanIndexForward := None; consistentRead := None;
              exclusiveStartKey := None |}).
  - by vm_compute.
  - intros f [= <-]. by vm_compute.
  - intros attrs [= <-]. by vm_compute.
Defined.

End QueryCommandProperties.

Section ReadCommandProperties.
Import ExpressionAttributeHandler ReadItem.

(** X13. [readItem] with a non-empty [select] sends the resolved
    selection joined with [", "] as projection expression, and
    substituting the command's [ExpressionAttributeNames] back into it
    gives the selected attributes, provided no segment of the selection
    that is kept as it is (a segment that needs no placeholder) starts
    with [#]: a selected [#n1] would be read back as the placeholder of
    that name. Without [select], or with an empty one, it sends neither a
    projection expression nor names. *)
Theorem read_projection_expands_to_selected_attributes
    (tableName : string) (key : list (string * JsValue)) (options : option ReadOptions) :
  let command := getCommand tableName key options in
  (∀ attrs, options ≫= select = Some attrs → attrs ≠ [] →
     forallb (λ a, forallb (λ part, needsPlaceholder part || negb (startsWithHash part))
                           (split "." a)) attrs = true →
     ∃ paths, ProjectionExpression command = Some (join ", " paths) ∧
              expandPath (default ∅ (ExpressionAttributeNames command)) <$> paths
              = attrs) ∧
  (options ≫= select = None ∨ options ≫= select = Some [] →
     ProjectionExpression command = None ∧ ExpressionAttributeNames command = None).
Proof.
  cbn zeta. unfold getCommand. split.
  - intros attrs -> Hne Hattrs. destruct attrs as [|a l]; [done|].
    rewrite processProjectionExpression_eq.
    cbn [ProjectionExpression ExpressionAttributeNames]. rewrite names_or_empty.
    destruct (resolveAll_spec (a :: l) new wf_new) as [Hwf _].
    pose proof (resolveAll_mirrored (a :: l) new wf_new mirrored_new) as Hm.
    eexists. split; [done|]. apply resolveAll_expand; [apply wf_new|done..|].
    apply extends_refl.
  - by intros [-> | ->].
Qed.

End ReadCommandProperties.

(** ** Update builder, and the command's expression and values *)

Section UpdateBuilderInvariants.
Import Update.

Lemma builder_validateFieldName_pattern (f : string) (u : unit) :
  Builder.validateFieldName f = Ok u → matchesFieldPattern f = true.
Proof.
  unfold Builder.validateFieldName, mbind, Result_bind, ensure.
  destruct (negb (String.eqb f "")); [|done].
  by destruct (matchesFieldPattern f).
Qed.

Lemma builder_validateValue_defined (v : JsValue) (u : unit) :
  Builder.validateValue v = Ok u → v ≠ JUndefined ∧ v ≠ JNull.
Proof. by destruct v. Qed.

(** A call that goes through pushes one entry, a valid one, and only when
    fewer than [MAX_UPDATES] are held. *)
Lemma builder_call_pushes (c : Builder.Call) (b b' : Builder.t) :
  Builder.call c b = Ok b' →
  ∃ u, Builder.updates b' = Builder.updates b ++ [u] ∧ Builder.validEntry u ∧
       length (Builder.updates b) < Builder.MAX_UPDATES.
Proof.
  destruct c; cbn -[pretty Builder.MAX_UPDATES];
    unfold Builder.set, Builder.remove, Builder.addToSet, Builder.removeFromSet,
      Builder.increment, Builder.decrement, Builder.appendToList,
      Builder.prependToList, Builder.push, Builder.checkCount;
    unfold mbind, Result_bind; intros H;
    repeat match type of H with
    | match ?x with _ => _ end = _ => destruct x eqn:? ; try discriminate
    end;
    injection H as <-; cbn [Builder.updates];
    (eexists; split; [reflexivity|]).
  all: split;
    [ split; [by eapply builder_validateFieldName_pattern|]; cbn [operation value]
    | match goal with H : ensure (negb (Nat.leb _ _)) _ = Ok _ |- _ =>
        unfold ensure in H; apply Nat.leb_gt;
        by destruct (Nat.leb _ _) end ].
  1,3,4: by eapply builder_validateValue_defined.
  1,4,5: done.
  all: match goal with H : ensure (Builder.validNumber ?v) _ = Ok _ |- _ =>
         unfold ensure in H; by destruct v end.
Qed.

Lemma builder_after_invariant (b : Builder.t) (c : Builder.Call) :
  length (Builder.updates b) ≤ Builder.MAX_UPDATES ∧
    Forall Builder.validEntry (Builder.updates b) →
  length (Builder.updates (Builder.after b c)) ≤ Builder.MAX_UPDATES ∧
    Forall Builder.validEntry (Builder.updates (Builder.after b c)).
Proof.
  intros [Hlen Hvalid]. unfold Builder.after.
  destruct (Builder.call c b) as [b'|] eqn:E; [|done].
  destruct (builder_call_pushes c b b' E) as (u & -> & Hu & Hlt).
  rewrite length_app. cbn [length]. split; [lia|].
  apply Forall_app. split; [done | by apply Forall_singleton].
Qed.

Lemma builder_afterAll_invariant (cs : list Builder.Call) (b : Builder.t) :
  length (Builder.updates b) ≤ Builder.MAX_UPDATES ∧
    Forall Builder.validEntry (Builder.updates b) →
  length (Builder.updates (Builder.afterAll b cs)) ≤ Builder.MAX_UPDATES ∧
    Forall Builder.validEntry (Builder.updates (Builder.afterAll b cs)).
Proof.
  revert b. induction cs as [|c cs IH]; intros b Hb;
    cbn [Builder.afterAll foldl]; [done|].
  by apply IH, builder_after_invariant.
Qed.

(** X14. Whatever is called on a new update builder, it never holds more
    than 100 entries; once it holds 100, every method throws. *)
Theorem update_builder_holds_at_most_100_updates (cs : list Builder.Call) :
  length (Builder.updates (Builder.afterAll Builder.new cs)) ≤ 100 ∧
  ∀ c, length (Builder.updates (Builder.afterAll Builder.new cs)) = 100 →
       ∃ message, Builder.call c (Builder.afterAll Builder.new cs) = Throw message.
Proof.
  split.
  - apply (builder_afterAll_invariant cs Builder.new). cbn. split; [lia | constructor].
  - intros c Hlen.
    destruct (Builder.call c _) as [b'|message] eqn:E; [|by eauto].
    destruct (builder_call_pushes c _ b' E) as (_ & _ & _ & Hlt).
    rewrite Hlen in Hlt. unfold Builder.MAX_UPDATES in Hlt. lia.
Qed.

(** X15. Every entry an update builder holds has a field name made of
    letters, digits and underscores, no value when it is a REMOVE and a
    value that is neither [undefined] nor [null] otherwise. So what
    [build()] returns is not empty and has an absent value on REMOVE
    entries only: the compiler's bare-clause case for a SET, ADD or
    DELETE without a value cannot arise from the builder. *)
Theorem update_builder_entries_are_validated (cs : list Builder.Call) :
  Forall Builder.validEntry (Builder.updates (Builder.afterAll Builder.new cs)) ∧
  ∀ us, Builder.build (Builder.afterAll Builder.new cs) = Ok us →
        us ≠ [] ∧
        Forall (λ u, isUndefined (value u) = true ↔ operation u = REMOVE) us.
Proof.
  assert (Forall Builder.validEntry
            (Builder.updates (Builder.afterAll Builder.new cs))) as H.
  { apply (builder_afterAll_invariant cs Builder.new). cbn. split; [lia | constructor]. }
  split; [done|]. intros us. unfold Builder.build.
  destruct (Builder.updates _) as [|u us'] eqn:E; [done|]. intros [= <-].
  split; [done|]. eapply Forall_impl; [exact H|].
  intros u' [_ Hu]. destruct (operation u').
  2: { rewrite Hu. done. }
  all: destruct Hu as [Hu _]; split; [by destruct (value u') | done].
Qed.

End UpdateBuilderInvariants.

Section UpdateCommandProperties.
Import Update.

Lemma mergeValues_lookup_in (entries : list (string * JsValue))
    (m : gmap string JsValue) (k : string) (v : JsValue) :
  NoDup entries.*1 → (k, v) ∈ entries → k ≠ "__proto__" →
  mergeValues entries m !! k = Some v.
Proof.
  revert m. induction entries as [|[k' v'] entries IH]; intros m Hnd Hin Hk.
  - by apply elem_of_nil in Hin.
  - rewrite fmap_cons in Hnd. apply NoDup_cons in Hnd as [Hnin Hnd].
    change (mergeValues ((k', v') :: entries) m)
      with (mergeValues entries (assignValue m (k', v'))).
    apply elem_of_cons in Hin as [[= -> ->]|Hin]; [|by apply IH].
    rewrite mergeValues_lookup_notin by done. unfold assignValue. cbn [fst snd].
    apply String.eqb_neq in Hk. rewrite Hk. apply lookup_insert_eq.
Qed.

Lemma mergeValues_lookup_proto (entries : list (string * JsValue))
    (m : gmap string JsValue) :
  mergeValues entries m !! "__proto__" = m !! "__proto__".
Proof.
  unfold mergeValues. revert m.
  induction entries as [|[k v] entries IH]; intros m; cbn [foldl]; [done|].
  rewrite IH. unfold assignValue. cbn [fst snd].
  destruct (String.eqb k "__proto__") eqn:E; [done|].
  apply String.eqb_neq in E. by apply lookup_insert_ne.
Qed.

Lemma compiled_values_or_empty (tableName : string) (key : list (string * JsValue))
    (updates : list FieldUpdate) :
  default ∅ (ExpressionAttributeValues (updateCommand tableName key updates noOptions))
  = expressionValues (compileGroups initialState (groupUpdates updates)).2.
Proof.
  unfold updateCommand.
  destruct (compileGroups initialState (groupUpdates updates)) as [parts st].
  cbn [snd ExpressionAttributeValues conditionEntries noOptions condition mergeValues
       foldl].
  destruct (size (expressionValues st)) eqn:E; cbn; [|done].
  symmetry. by apply map_size_empty_iff.
Qed.

(** X16. The values of the condition are written into the value map
    after the compiled ones, under their own keys: every condition value
    whose key is not [__proto__] is sent as given, also under a key such
    as [:val1] that the compiler had bound, and every other key keeps its
    compiled binding. A condition value under the key [__proto__] is not
    sent: the assignment reaches the prototype setter, and the value map
    never has a property of that name. *)
Theorem condition_values_override_compiled_values
    (tableName : string) (key : list (string * JsValue)) (updates : list FieldUpdate)
    (expression : string) (entries : list (string * JsValue))
    (returnValues : option string) (k : string) (v : JsValue) :
  NoDup entries.*1 → (k, v) ∈ entries → k ≠ "__proto__" →
  let options :=
    {| condition := Some {| condition_expression := expression;
                            condition_values := Some entries |};
       returnValues := returnValues |} in
  ∃ m, ExpressionAttributeValues (updateCommand tableName key updates options) = Some m ∧
       m !! k = Some v ∧
       m !! "__proto__" = None ∧
       ∀ k', k' ∉ entries.*1 →
         m !! k' = default ∅ (ExpressionAttributeValues
                                (updateCommand tableName key updates noOptions)) !! k'.
Proof.
  intros Hnd Hin Hproto options. rewrite compiled_values_or_empty. unfold updateCommand.
  pose proof (compileGroups_advances (groupUpdates updates) initialState wfState_initial)
    as (Hwf & _).
  destruct (compileGroups initialState (groupUpdates updates)) as [parts st].
  cbn [snd ExpressionAttributeValues conditionEntries options condition
       condition_values default] in *.
  pose proof (mergeValues_lookup_in entries (expressionValues st) k v Hnd Hin Hproto)
    as Hk.
  pose proof (mergeValues_lookup_proto entries (expressionValues st)) as Hp.
  change (id entries) with entries.
  set (m := mergeValues entries (expressionValues st)) in *.
  assert (Nat.ltb 0 (size m) = true) as ->.
  { apply Nat.ltb_lt. destruct (size m) eqn:E; [|lia].
    apply map_size_empty_iff in E. by rewrite E, lookup_empty in Hk. }
  exists m. split_and!; [done..| |].
  - rewrite Hp. apply eq_None_not_Some. intros (j & _ & Hj)%Hwf.
    by destruct Hj as [Hj | [Hj | Hj]].
  - intros k' Hk'. by apply mergeValues_lookup_notin.
Qed.

Lemma condition_values_override_compiled_values_witness :
  ∃ m, ExpressionAttributeValues
         (updateCommand "users" [("id", JString "u1")]
            [ {| field := "age"; value := JNumber 1; operation := ADD |} ]
            {| condition :=
                 Some {| condition_expression := "age < :val1";
                         condition_values :=
                           Some [(":val1", JNumber 65); ("__proto__", JNumber 2)] |};
               returnValues := None |}) = Some m ∧
       m !! ":val1" = Some (JNumber 65) ∧
       m !! "__proto__" = None ∧
       ∀ k', k' ∉ [(":val1", JNumber 65); ("__proto__", JNumber 2)].*1 →
         m !! k' = default ∅ (ExpressionAttributeValues
                                (updateCommand "users" [("id", JString "u1")]
                                   [ {| field := "age"; value := JNumber 1;
                                        operation := ADD |} ]
                                   noOptions)) !! k'.
Proof.
  apply (condition_values_override_compiled_values "users" [("id", JString "u1")]
           [ {| field := "age"; value := JNumber 1; operation := ADD |} ]
           "age < :val1" [(":val1", JNumber 65); ("__proto__", JNumber 2)] None
           ":val1" (JNumber 65)).
  - apply NoDup_cons. split; [|apply NoDup_singleton].
    by intros [=]%list_elem_of_singleton.
  - apply list_elem_of_here.
  - done.
Defined.

Lemma join_nonempty_head (sep p : string) (ps : list string) :
  p ≠ "" → join sep (p :: ps) ≠ "".
Proof. destruct ps; cbn [join]; [done|]. by destruct p. Qed.

(** X17. [updateItem] does not reject an empty update array: the update
    expression it sends is the empty string, and it is empty for the
    empty array only. *)
Theorem update_expression_empty_iff_no_updates
    (tableName : string) (key : list (string * JsValue)) (updates : list FieldUpdate)
    (options : UpdateOptions) :
  UpdateExpression (updateCommand tableName key updates options) = "" ↔ updates = [].
Proof.
  split; [|by intros ->].
  destruct updates as [|u updates]; [done|]. intros H. exfalso. revert H.
  destruct (groupUpdates_spec (u :: updates)) as (_ & Hne & _ & Hin).
  specialize (Hin u (list_elem_of_here _ _)).
  unfold updateCommand.
  destruct (groupUpdates (u :: updates)) as [|[op us] groups];
    [by apply elem_of_nil in Hin|].
  apply Forall_cons in Hne as [Hus _]. cbn [snd] in Hus.
  cbn [compileGroups]. rewrite compileGroup_nonempty by done.
  destruct (compileGroups _ groups) as [parts st]. cbn [from_option app UpdateExpression].
  apply join_nonempty_head. by destruct op.
Qed.

End UpdateCommandProperties.

(** ** Scan-mode builder: names and settings *)

Section FloatFacts.

(** [x == y] entails [x <= y] *)
Lemma float_eqb_leb (x y : float) :
  PrimFloat.eqb x y = true → PrimFloat.leb x y = true.
Proof.
  rewrite FloatAxioms.eqb_spec, FloatAxioms.leb_spec.
  unfold SpecFloat.SFeqb, SpecFloat.SFleb.
  by destruct (SpecFloat.SFcompare _ _) as [[]|].
Qed.

(** a number that is not [<= 0] and not [NaN] is truthy *)
Lemma positive_number_truthy (x : float) :
  PrimFloat.leb x 0%float = false → PrimFloat.is_nan x = false →
  truthy (JNumber x) = true.
Proof.
  intros Hle Hnan. cbn [truthy]. rewrite Hnan, orb_false_r.
  apply negb_true_iff. unfold PrimFloat.is_zero.
  destruct (PrimFloat.eqb x PrimFloat.zero) eqn:E; [|done].
  apply float_eqb_leb in E. unfold PrimFloat.zero in E. congruence.
Qed.

End FloatFacts.

Section ScanBuilderInvariants.
Import ScanBuilder.

Context (NODE_ENV : option string) (numberToString : float → string).

Abbreviation getExpressionName := (ScanBuilder.getExpressionName NODE_ENV).
Abbreviation getExpressionNames := (ScanBuilder.getExpressionNames NODE_ENV).
Abbreviation addCondition := (ScanBuilder.addCondition NODE_ENV).
Abbreviation call := (ScanBuilder.call NODE_ENV numberToString).
Abbreviation after := (ScanBuilder.after NODE_ENV numberToString).
Abbreviation afterAll := (ScanBuilder.afterAll NODE_ENV numberToString).

Lemma denseNames_empty : denseNames ∅.
Proof.
  split.
  - intros k. rewrite lookup_empty, map_size_empty. split.
    + by intros [? ?].
    + intros (j & ? & _). lia.
  - intros k field. by rewrite lookup_empty.
Qed.

Lemma getExpressionName_dense (field : string) (b : t) :
  denseNames (expressionNames b) →
  denseNames (expressionNames (getExpressionName field b).2) ∧
  (expressionNames (getExpressionName field b).2 = expressionNames b
   ∨ size (expressionNames (getExpressionName field b).2)
       = S (size (expressionNames b))).
Proof.
  intros [Hkeys Hvals]. unfold ScanBuilder.getExpressionName.
  destruct (testMode NODE_ENV && bool_decide (field ∈ TEST_FIELDS)); [by split; [|left]|].
  destruct (needsReplacement field) eqn:Hn; [|by split; [|left]].
  cbn [snd expressionNames].
  assert (expressionNames b !! ("#n" +:+ pretty (size (expressionNames b))) = None)
    as Hfresh.
  { apply eq_None_not_Some. intros (j & Hj & Hk)%Hkeys.
    apply (inj (String.app "#n")), (inj pretty) in Hk. lia. }
  split; [|right; by apply map_size_insert_None].
  split.
  - intros k. rewrite lookup_insert_is_Some, map_size_insert_None, Hkeys by done.
    split.
    + intros [<- | [_ (j & Hj & ->)]]; eauto with lia.
    + intros (j & Hj & ->).
      destruct (decide (j = size (expressionNames b))) as [->|Hne]; [by left|].
      right. split; [|exists j; split; [lia | done]].
      intros Hk. apply (inj (String.app "#n")), (inj pretty) in Hk. lia.
  - intros k field'. rewrite lookup_insert_Some.
    intros [[_ <-] | [_ H]]; [done | by eapply Hvals].
Qed.

Lemma getExpressionNames_dense (fields : list string) (b : t) :
  denseNames (expressionNames b) →
  denseNames (expressionNames (getExpressionNames fields b).2).
Proof.
  revert b. induction fields as [|f fields IH]; intros b Hb;
    cbn [ScanBuilder.getExpressionNames]; [done|].
  destruct (getExpressionName_dense f b Hb) as [H1 _].
  destruct (getExpressionName f b) as [nameKey b1]. cbn [snd] in *.
  specialize (IH b1 H1). by destruct (getExpressionNames fields b1).
Qed.

Lemma setValues_names (values : list (string * JsValue)) (b : t) :
  expressionNames (setValues values b) = expressionNames b.
Proof.
  unfold setValues. revert b.
  induction values as [|kv values IH]; intros b; cbn [foldl]; [done|].
  rewrite IH. unfold assignValue.
  by destruct (String.eqb kv.1 "__proto__" && protoAccessor b).
Qed.

(** The names a call leaves are those of a run of [getExpressionName]
    over some fields. *)
Lemma call_names (c : Call) (b b' : t) :
  call c b = Ok b' →
  ∃ fields, expressionNames b' = expressionNames (getExpressionNames fields b).2.
Proof.
  assert (∀ f, expressionNames (getExpressionName f b).2
               = expressionNames (getExpressionNames [f] b).2) as Hone.
  { intros f. cbn [ScanBuilder.getExpressionNames].
    by destruct (getExpressionName f b). }
  destruct c; cbn [ScanBuilder.call];
    unfold equals, notEquals, lessThan, lessThanOrEqual, greaterThan,
      greaterThanOrEqual, ScanBuilder.addCondition, beginsWith, contains, between,
      attributeExists, attributeNotExists, filter, selectFields, withLimit,
      usingIndex, withConsistentRead, withStartKey, withParallelScan,
      validateNumber, mbind, Result_bind;
    intros H;
    repeat match type of H with
    | match ?x with _ => _ end = _ => destruct x eqn:? ; try discriminate
    | (let '(_, _) := ?x in _) = _ => destruct x eqn:?
    end;
    try (injection H as <-);
    repeat match goal with
    | H : nextValueKey _ = _ |- _ => unfold nextValueKey in H; injection H as <- <-
    end.
  all: try (exists []; cbn; by rewrite ?setValues_names).
  all: try (match goal with
            | H : ScanBuilder.getExpressionName _ ?f _ = _ |- _ =>
                exists [f]; rewrite <-Hone, H; done
            end).
  match goal with
  | H : ScanBuilder.getExpressionNames _ ?fs _ = _ |- _ => exists fs; by rewrite H
  end.
Qed.

Lemma afterAll_dense (cs : list Call) (b : t) :
  denseNames (expressionNames b) → denseNames (expressionNames (afterAll b cs)).
Proof.
  revert b. induction cs as [|c cs IH]; intros b Hb;
    cbn [ScanBuilder.afterAll foldl]; [done|].
  apply IH. unfold ScanBuilder.after.
  destruct (call c b) as [b'|] eqn:E; [|done].
  destruct (call_names c b b' E) as [fields ->].
  by apply getExpressionNames_dense.
Qed.

(** X18. In a scan builder the name placeholders in use are exactly
    [#n0] to [#n(k-1)], [k] being their number, and each stands for a
    field that needed one (a reserved word, or a field with a character
    other than a letter, a digit or an underscore). So the key
    [getExpressionName] takes next, [#nk], is free: a call either leaves
    the names as they are or adds one binding and overwrites none. *)
Theorem scan_name_placeholders_are_numbered_without_gaps (cs : list Call) :
  let names := expressionNames (afterAll new cs) in
  (∀ k, is_Some (names !! k) ↔ ∃ j, j < size names ∧ k = "#n" +:+ pretty j) ∧
  (∀ k field, names !! k = Some field → needsReplacement field = true) ∧
  ∀ field, let next := getExpressionName field (afterAll new cs) in
    expressionNames next.2 = names
    ∨ (names !! next.1 = None ∧ expressionNames next.2 = <[next.1 := field]> names).
Proof.
  cbn zeta. destruct (afterAll_dense cs new denseNames_empty) as [Hkeys Hvals].
  split_and!; [done..|]. intros field. unfold ScanBuilder.getExpressionName.
  destruct (testMode NODE_ENV && bool_decide (field ∈ TEST_FIELDS)); [by left|].
  destruct (needsReplacement field); [|by left]. right. cbn [fst snd expressionNames].
  split; [|done]. apply eq_None_not_Some. intros (j & Hj & Hk)%Hkeys.
  apply (inj (String.app "#n")), (inj pretty) in Hk.
  unfold ScanBuilder.afterAll in *. lia.
Qed.

Lemma sameSettings_valid (b b' : t) :
  sameSettings b b' → validSettings b → validSettings b'.
Proof.
  intros (H1 & H2 & H3 & H4 & H5). unfold validSettings.
  by rewrite H1, H2, H3, H4, H5.
Qed.

Lemma getExpressionName_settings (field : string) (b : t) :
  sameSettings b (getExpressionName field b).2.
Proof. unfold ScanBuilder.getExpressionName. by repeat case_match. Qed.

Lemma getExpressionNames_settings (fields : list string) (b : t) :
  sameSettings b (getExpressionNames fields b).2.
Proof.
  revert b. induction fields as [|f fields IH]; intros b;
    cbn [ScanBuilder.getExpressionNames]; [done|].
  destruct (getExpressionName_settings f b) as (H1 & H2 & H3 & H4 & H5).
  destruct (getExpressionName f b) as [nameKey b1]. cbn [snd] in *.
  destruct (IH b1) as (H1' & H2' & H3' & H4' & H5').
  destruct (getExpressionNames fields b1) as [nameKeys b2]. cbn [snd] in *.
  unfold sameSettings. split_and!; congruence.
Qed.

Lemma setValues_settings (values : list (string * JsValue)) (b : t) :
  sameSettings b (setValues values b).
Proof.
  unfold setValues. revert b.
  induction values as [|kv values IH]; intros b; cbn [foldl]; [done|].
  destruct (IH (assignValue kv.1 kv.2 b)) as (H1 & H2 & H3 & H4 & H5).
  unfold sameSettings. rewrite H1, H2, H3, H4, H5. unfold assignValue.
  by destruct (String.eqb kv.1 "__proto__" && protoAccessor b).
Qed.

Lemma scan_call_settings (c : Call) (b b' : t) :
  call c b = Ok b' → validSettings b → validSettings b'.
Proof.
  destruct c; cbn [ScanBuilder.call];
    unfold equals, notEquals, lessThan, lessThanOrEqual, greaterThan,
      greaterThanOrEqual, ScanBuilder.addCondition, beginsWith, contains, between,
      attributeExists, attributeNotExists, filter, selectFields, withLimit,
      usingIndex, withConsistentRead, withStartKey, withParallelScan,
      validateNumber, validateString, mbind, Result_bind;
    intros H;
    repeat match type of H with
    | match ?x with _ => _ end = _ => destruct x eqn:? ; try discriminate
    | (let '(_, _) := ?x in _) = _ => destruct x eqn:?
    end;
    try (injection H as <-);
    repeat match goal with
    | H : nextValueKey _ = _ |- _ => unfold nextValueKey in H; injection H as <- <-
    end;
    try (match goal with
         | H : ScanBuilder.getExpressionName _ ?f ?b = (_, ?b1) |- _ =>
             pose proof (getExpressionName_settings f b) as Hs;
             rewrite H in Hs; cbn [snd] in Hs;
             apply sameSettings_valid; exact Hs
         | H : ScanBuilder.getExpressionNames _ ?f ?b = (_, ?b1) |- _ =>
             pose proof (getExpressionNames_settings f b) as Hs;
             rewrite H in Hs; cbn [snd] in Hs;
             apply sameSettings_valid; exact Hs
         end).
  - apply sameSettings_valid. exact (setValues_settings _ _).
  - intros (H1 & H2 & H3 & H4). split_and!; [|done..].
    cbn [limitValue]. intros ? [= <-]. unfold ensure in *. cbn in *.
    by destruct (PrimFloat.is_nan x), (PrimFloat.leb x 0).
  - intros (H1 & H2 & H3 & H4). split_and!; [done| |done..].
    cbn [indexNameValue]. intros ? [= <-]. unfold ensure in *.
    by destruct (trimIsEmpty indexName).
  - intros H. by apply (sameSettings_valid b).
  - intros (H1 & H2 & H3 & H4). split_and!; [done..| |done].
    cbn [startKeyValue]. intros ? [= <-]. unfold ensure in *.
    by destruct (emptyStartKey startKey).
  - intros (H1 & H2 & H3 & H4). split_and!; [done..|].
    cbn [totalSegmentsValue segmentValue]. unfold ensure in *. cbn in *.
    by destruct (PrimFloat.is_nan x), (PrimFloat.is_nan x0), (PrimFloat.leb x 0),
      (PrimFloat.ltb x0 0), (PrimFloat.leb x x0).
Qed.

Lemma scan_afterAll_settings (cs : list Call) (b : t) :
  validSettings b → validSettings (afterAll b cs).
Proof.
  revert b. induction cs as [|c cs IH]; intros b Hb;
    cbn [ScanBuilder.afterAll foldl]; [done|].
  apply IH. unfold ScanBuilder.after.
  destruct (call c b) as [b'|] eqn:E; [|done]. by eapply scan_call_settings.
Qed.

Lemma blank_or_nonempty (s : string) : trimIsEmpty s = false → String.eqb s "" = false.
Proof. by destruct s. Qed.

(** X19. The settings a scan builder holds have passed their checks: a
    limit is a number, not NaN and not [<= 0]; an index name is not
    blank; a start key is not empty; [totalSegments] and [segment] are
    set together or not at all, with [totalSegments > 0] and
    [0 <= segment < totalSegments]. And [build()] emits each of them as
    held: its truthiness tests on the limit, the index name and the start
    key never drop a value the builder accepted. *)
Theorem scan_settings_are_validated_and_emitted (cs : list Call) :
  let b := afterAll new cs in
  ((∀ x, limitValue b = Some x →
      PrimFloat.is_nan x = false ∧ PrimFloat.leb x 0%float = false) ∧
   (∀ i, indexNameValue b = Some i → trimIsEmpty i = false) ∧
   (∀ k, startKeyValue b = Some k → emptyStartKey k = false) ∧
   match totalSegmentsValue b, segmentValue b with
   | None, None => True
   | Some total, Some seg =>
       PrimFloat.is_nan total = false ∧ PrimFloat.is_nan seg = false ∧
       PrimFloat.leb total 0%float = false ∧
       PrimFloat.ltb seg 0%float = false ∧ PrimFloat.leb total seg = false
   | _, _ => False
   end) ∧
  opt_limit (build b) = limitValue b ∧
  opt_indexName (build b) = indexNameValue b ∧
  opt_startKey (build b) = startKeyValue b ∧
  opt_totalSegments (build b) = totalSegmentsValue b ∧
  opt_segment (build b) = segmentValue b.
Proof.
  intros b.
  assert (validSettings b) as Hb by (apply scan_afterAll_settings; by split_and!).
  split; [done|]. destruct Hb as (Hl & Hi & Hk & Hp).
  unfold build. cbn [opt_limit opt_indexName opt_startKey opt_totalSegments opt_segment].
  split_and!.
  - destruct (limitValue b) as [x|]; [|done].
    destruct (Hl x eq_refl) as [Hnan Hle].
    by rewrite (positive_number_truthy x Hle Hnan).
  - destruct (indexNameValue b) as [i|]; [|done].
    cbn [truthy]. by rewrite (blank_or_nonempty i (Hi i eq_refl)).
  - destruct (startKeyValue b) as [k|]; [|done].
    specialize (Hk k eq_refl). by destruct k as [| | | | |[]|[]].
  - by destruct (totalSegmentsValue b), (segmentValue b).
  - by destruct (totalSegmentsValue b), (segmentValue b).
Qed.

(** X20. Outside test mode a field name that passes [validateFieldName]
    has no special character, so [getExpressionName] replaces it exactly
    when it is a reserved word: the special-character half of its test
    is reached in test mode only. A validated field that is not reserved
    is used as it is and registers nothing. *)
Theorem validated_field_is_escaped_iff_reserved (field : string) :
  testMode NODE_ENV = false →
  validateFieldName NODE_ENV field = Ok tt →
  needsReplacement field = ReservedWords.isReserved field ∧
  (ReservedWords.isReserved field = false →
     ∀ b, getExpressionName field b = (field, b)).
Proof.
  intros Htest. unfold validateFieldName, mbind, Result_bind, ensure. rewrite Htest.
  destruct (negb (trimIsEmpty field)); [|done].
  unfold matchesFieldPattern. destruct (negb (String.eqb field "")); [|done].
  cbn [andb]. destruct (forallChars isWordChar field) eqn:Hw; [|done]. intros _.
  assert (hasSpecialChar field = false) as Hs.
  { unfold hasSpecialChar. clear -Hw.
    induction field as [|c s IH]; cbn [existsChar forallChars] in *; [done|].
    apply andb_true_iff in Hw as [-> Hw]. by rewrite (IH Hw). }
  unfold needsReplacement. rewrite Hs, orb_false_r. split; [done|].
  intros Hr b. unfold ScanBuilder.getExpressionName, needsReplacement.
  by rewrite Htest, Hr, Hs.
Qed.

(** X21. The value counter does not look at the keys [filter()] was given:
    a custom value passed under [:valueN], [N] being the counter at that
    moment, is bound at first and replaced by the value of the next
    condition, which generates the same key. *)
Theorem generated_placeholder_replaces_custom_value
    (b b1 b2 : t) (expression field operator : string) (custom value : JsValue) :
  let key := ":value" +:+ pretty (valueCounter b) in
  filter expression (Some [(key, custom)]) b = Ok b1 →
  addCondition field operator value b1 = Ok b2 →
  expressionValues b1 !! key = Some custom ∧
  expressionValues b2 !! key = Some value.
Proof.
  intros key. unfold filter, ScanBuilder.addCondition, mbind, Result_bind.
  destruct (validateString _ _); [|done]. intros [= <-].
  destruct (validateFieldName NODE_ENV field); [|done].
  assert (String.eqb key "__proto__" = false) as Hkey by reflexivity.
  split.
  { unfold setValues, assignValue. cbn [foldl default fst snd]. rewrite Hkey.
    apply lookup_insert_eq. }
  revert H.
  destruct (getExpressionName_frame NODE_ENV field
              (setValues [(key, custom)] (pushFilter ("(" +:+ expression +:+ ")") b)))
    as (_ & _ & Hc).
  destruct (ScanBuilder.getExpressionName _ _ _) as [nameKey b']. cbn [snd] in Hc.
  unfold nextValueKey. intros [= <-]. cbn [expressionValues setValue].
  rewrite Hc. apply lookup_insert_eq.
Qed.

End ScanBuilderInvariants.

Lemma validated_field_is_escaped_iff_reserved_witness :
  ScanBuilder.needsReplacement "status" = ReservedWords.isReserved "status" ∧
  (ReservedWords.isReserved "status" = false →
     ∀ b, ScanBuilder.getExpressionName None "status" b = ("status", b)).
Proof.
  apply (validated_field_is_escaped_iff_reserved None "status"); reflexivity.
Defined.

Lemma generated_placeholder_replaces_custom_value_witness :
  ScanBuilder.expressionValues
    (ScanBuilder.after None (λ _, "") ScanBuilder.new
       (ScanBuilder.CFilter "age > :value0" (Some [(":value0", JNumber 21)])))
    !! ":value0" = Some (JNumber 21) ∧
  ScanBuilder.expressionValues
    (ScanBuilder.afterAll None (λ _, "") ScanBuilder.new
       [ ScanBuilder.CFilter "age > :value0" (Some [(":value0", JNumber 21)]);
         ScanBuilder.CEquals "city" (JString "Oslo") ])
    !! ":value0" = Some (JString "Oslo").
Proof.
  apply (generated_placeholder_replaces_custom_value None ScanBuilder.new _ _
           "age > :value0" "city" "=" (JNumber 21) (JString "Oslo")); reflexivity.
Defined.

(** ** Stream processor: fetches, turns and termination *)

Section StreamFurther.
Import Stream.

Context {World : Type} (NODE_ENV : option string).
Context (sendDescribeStream : string → World → Try (option StreamDescription) * World).
Context (sendGetShardIterator :
           string → string → ShardIteratorType → World → Try (option string) * World).
Context (sendGetRecords : string → nat → World → Try GetRecordsOutput * World).
Context (handler : list JsValue → World → Try unit * World).

Abbreviation testMode := (Stream.testMode NODE_ENV).
Abbreviation getStreamRecords := (Stream.getStreamRecords World NODE_ENV sendGetRecords).
Abbreviation getShardIterator :=
  (Stream.getShardIterator World NODE_ENV sendGetShardIterator).
Abbreviation describeStream := (Stream.describeStream World NODE_ENV sendDescribeStream).
Abbreviation shardLoop := (Stream.shardLoop World NODE_ENV sendGetRecords handler).
Abbreviation processShards :=
  (Stream.processShards World NODE_ENV sendGetShardIterator sendGetRecords handler).
Abbreviation processStream :=
  (Stream.processStream World NODE_ENV sendDescribeStream sendGetShardIterator
     sendGetRecords handler).

(** [handleError] returns in test mode and throws otherwise, a
    [DynamoError] either way. *)
Lemma handleError_cases {A : Type} (context : string) (error : JsError) :
  ∃ d, name d = "DynamoError" ∧ is_Some (errorType d) ∧
       handleError NODE_ENV (A := A) context error
         = if testMode then Returned (Failure d) else Raised d.
Proof.
  unfold handleError.
  destruct (isServiceException error);
    [|destruct (String.eqb (name error) "NetworkError");
      [|destruct (String.eqb (name error) "ValidationError")]];
    (eexists; split_and!; [| |reflexivity]; done).
Qed.



Lemma getStreamRecords_failure (cursor : string) (limit : nat) (w w1 : World)
    (error : JsError) :
  (getStreamRecords cursor limit w = (Returned (Failure error), w1) →
     testMode = true ∧ name error = "DynamoError") ∧
  (getStreamRecords cursor limit w = (Raised error, w1) →
     testMode = false ∧ name error = "DynamoError").
Proof.
  unfold Stream.getStreamRecords.
  destruct (sendGetRecords cursor limit w) as [[out|e] w'];
    [destruct (convertAll _) as [records|e]; [by split|]|];
    destruct (handleError_cases (A := list JsValue * option string)
                "Failed to get stream records" e) as (d & Hd & _ & ->);
    destruct testMode; split; intros [= <- <-]; done.
Qed.

Section Turn.

Variable cfg : StreamProcessingConfig.
Variable shardId : string.

Abbreviation mkLoop := (Stream.Build_LoopResult World).
Abbreviation andThen := (Stream.andThen World).
Abbreviation retry := (testMode && negb (stopOnError cfg)).

(** Induction over the turns of the loop, as [shardLoop_cases], with what
    is known of a failed fetch: its error was built by [handleError], and
    the loop goes on after it in test mode without [stopOnError] only. *)
Lemma shardLoop_fetch_cases (P : option string → nat → World → Stream.LoopResult World → Prop) :
  (∀ it n w, usable it = None → P it n w (mkLoop Completed n [] w)) →
  (∀ it c n w, usable it = Some c → below n (maxRecords cfg) = false →
     P it n w (mkLoop Completed n [] w)) →
  (∀ it c n w, usable it = Some c → below n (maxRecords cfg) = true →
     P it n w (mkLoop OutOfFuel n [] w)) →
  (∀ it c n w error w1, usable it = Some c → below n (maxRecords cfg) = true →
     name error = "DynamoError" → retry = false →
     P it n w (mkLoop (Rejected error) n [Fetched shardId c (FetchError error)] w1)) →
  (∀ it c n w error w1 r, usable it = Some c → below n (maxRecords cfg) = true →
     name error = "DynamoError" → retry = true → P it n w1 r →
     P it n w (andThen [ Fetched shardId c (FetchError error);
                         Logged "Error getting stream records:" error;
                         Slept (pollInterval cfg) ] r)) →
  (∀ it c n w next w1 r, usable it = Some c → below n (maxRecords cfg) = true →
     P next n w1 r →
     P it n w (andThen [ Fetched shardId c (FetchOk 0 next);
                         Slept (pollInterval cfg) ] r)) →
  (∀ it c n w records next (failure : option JsError) w2 r, usable it = Some c →
     below n (maxRecords cfg) = true → records ≠ [] →
     P next (n + match failure with Some _ => 0 | None => length records end) w2 r →
     P it n w (andThen
                 ([ Fetched shardId c (FetchOk (length records) next);
                    HandlerInvoked shardId c next records failure ]
                  ++ match failure with
                     | Some error => [Logged "Error in stream handler:" error]
                     | None => []
                     end) r)) →
  (∀ it c n w records next error w2, usable it = Some c →
     below n (maxRecords cfg) = true → records ≠ [] → stopOnError cfg = true →
     P it n w (mkLoop (Rejected error) n
                 [ Fetched shardId c (FetchOk (length records) next);
                   HandlerInvoked shardId c next records (Some error) ] w2)) →
  ∀ fuel it n w, P it n w (shardLoop fuel cfg shardId it n w).
Proof.
  intros Hexit Hmax Hfuel Hraise Hretry Hidle Hgo Hstop.
  induction fuel as [|fuel IH]; intros it n w; cbn [Stream.shardLoop];
    destruct (usable it) as [c|] eqn:Eit; try (by apply Hexit);
    destruct (below n (maxRecords cfg)) eqn:Eb; cbn [negb];
    try (by eapply Hmax); try (by eapply Hfuel).
  pose proof (getStreamRecords_failure c (batchSize cfg) w) as Hfail.
  destruct (getStreamRecords c (batchSize cfg) w) as [[[[records next]|error]|error] w1].
  - destruct records as [|record records]; [by eapply Hidle|].
    destruct (handler (record :: records) w1) as [[?|error] w2].
    + by eapply (Hgo it c n w (record :: records) next None).
    + destruct (stopOnError cfg) eqn:Es.
      * by eapply (Hstop it c n w (record :: records)).
      * eapply (Hgo it c n w (record :: records) next (Some error)); [done..|].
        rewrite Nat.add_0_r. apply IH.
  - destruct (proj1 (Hfail w1 error) eq_refl) as [Ht Hd].
    destruct (stopOnError cfg) eqn:Es.
    + eapply Hraise; [done..|]. by rewrite ?Es, ?andb_false_r.
    + eapply Hretry; [done..| |apply IH]. by rewrite ?Ht, ?Es.
  - destruct (proj2 (Hfail w1 error) eq_refl) as [Ht Hd].
    eapply Hraise; [done..|]. by rewrite Ht.
Qed.

Lemma loop_fetch_behaviour (fuel : nat) (it : option string) (n : nat) (w : World) :
  let r := shardLoop fuel cfg shardId it n w in
  startsAt (maxRecords cfg) shardId it n (loop_events World r) (loop_status World r) ∧
  always (fetchFailurePolicy retry (pollInterval cfg) (loop_status World r))
    (loop_events World r) ∧
  always (batchPolicy (pollInterval cfg)) (loop_events World r).
Proof.
  cbn zeta. revert fuel it n w.
  apply (shardLoop_fetch_cases
           (λ it n _ r,
              startsAt (maxRecords cfg) shardId it n
                (loop_events World r) (loop_status World r)
              ∧ always (fetchFailurePolicy retry (pollInterval cfg)
                          (loop_status World r)) (loop_events World r)
              ∧ always (batchPolicy (pollInterval cfg)) (loop_events World r)));
    unfold startsAt;
    cbn [Stream.andThen loop_status loop_events app always fetchFailurePolicy
         batchPolicy];
    [ intros it n w ->
    | intros it c n w -> Hb
    | intros it c n w -> Hb
    | intros it c n w error w1 -> Hb Hd ->
    | intros it c n w error w1 r Hit Hb Hd -> (Hn & Hp & Hq); rewrite Hit in Hn |- *
    | intros it c n w next w1 r -> Hb (Hn & Hp & Hq)
    | intros it c n w records next failure w2 r -> Hb Hr (Hn & Hp & Hq)
    | intros it c n w records next error w2 -> Hb Hr Hs ].
  all: split_and!; try done; try (by left; eauto); try (by right); eauto.
  - congruence.
  - by destruct failure.
  - destruct records; [done|]. cbn [length]. eauto.
  - by destruct failure.
  - destruct records; [done|]. cbn [length]. eauto.
Qed.

End Turn.

Section Turns.

Variable cfg : StreamProcessingConfig.
Variable q : string → Status → list Event → Prop.

Hypothesis q_nil : ∀ shardId st, q shardId st [].
Hypothesis q_loop : ∀ shardId fuel it n w,
  q shardId (loop_status World (shardLoop fuel cfg shardId it n w))
    (loop_events World (shardLoop fuel cfg shardId it n w)).

Lemma processShards_eachTurn (streamArn : string) (fuel : nat) (shards : list Shard)
    (n : nat) (w : World) :
  eachTurn q (status World (processShards fuel cfg streamArn shards n w))
    (shardRuns World (processShards fuel cfg streamArn shards n w)).
Proof.
  revert n w. induction shards as [|shard rest IH]; intros n w;
    cbn [Stream.processShards]; [done|].
  destruct (getShardIterator _ _ _ _) as [[[it|e]|e] w1];
    cbn [shardRuns status eachTurn]; try (split; [by eexists|done]).
  pose proof (q_loop (ShardId shard) fuel (Some it) n w1) as Hthis.
  destruct (loop_status World _) eqn:Est; cbn [shardRuns status eachTurn];
    try (split; [by eexists|done]).
  split; [|apply IH]. eexists. split; [done|].
  pose proof (processShards_no_runs NODE_ENV sendGetShardIterator sendGetRecords handler
                cfg streamArn fuel rest
                (loop_processed World (shardLoop fuel cfg (ShardId shard) (Some it) n w1))
                (loop_world World (shardLoop fuel cfg (ShardId shard) (Some it) n w1)))
    as Hnone.
  destruct (shardRuns World _); [by rewrite Hnone | done].
Qed.

End Turns.

Lemma eachTurn_split (q : string → Status → list Event → Prop) (st : Status)
    (R1 R2 : list (string * list Event)) (shardId : string) (events : list Event) :
  eachTurn q st (R1 ++ (shardId, events) :: R2) →
  ∃ loopEvents, events = IteratorRequested shardId :: loopEvents ∧
    q shardId (match R2 with [] => st | _ :: _ => Completed end) loopEvents.
Proof.
  induction R1 as [|[sid ev] R1 IH]; cbn [app eachTurn].
  - by intros [? _].
  - intros [_ H]. by apply IH.
Qed.

Lemma processStream_eachTurn (q : string → Status → list Event → Prop)
    (fuel : nat) (streamArn : string) (config : Config) (w : World) :
  (∀ shardId st, q shardId st []) →
  (∀ shardId fuel it n w,
     q shardId
       (loop_status World (shardLoop fuel (processingConfig config) shardId it n w))
       (loop_events World (shardLoop fuel (processingConfig config) shardId it n w))) →
  eachTurn q (status World (processStream fuel streamArn config w))
    (shardRuns World (processStream fuel streamArn config w)).
Proof.
  intros Hnil Hloop. unfold Stream.processStream.
  destruct (describeStream streamArn w) as [[[description|e]|e] w1]; try done.
  destruct (default [] (Shards description)); [done|].
  by apply processShards_eachTurn.
Qed.

(** X22. What follows a failed fetch. Its error is the [DynamoError] built
    by [handleError]. In test mode without [stopOnError] the error is
    logged, the processor pauses for [pollInterval] and fetches again at
    the same cursor (or the bound on the turns is reached). In every
    other case the failed fetch is the last event of the run, no further
    shard is visited and the run rejects with the error: outside test
    mode [getStreamRecords] throws, so [stopOnError = false] does not
    keep the run going. *)
Theorem fetch_failure_policy (fuel : nat) (streamArn : string) (config : Config)
    (w : World) (R1 R2 : list (string * list Event)) (shardId s cursor : string)
    (error : JsError) (pre post : list Event) :
  let run := processStream fuel streamArn config w in
  let cfg := processingConfig config in
  shardRuns World run =
    R1 ++ (shardId, pre ++ Fetched s cursor (FetchError error) :: post) :: R2 →
  name error = "DynamoError" ∧
  (testMode && negb (stopOnError cfg) = false →
     post = [] ∧ R2 = [] ∧ status World run = Rejected error) ∧
  (testMode && negb (stopOnError cfg) = true →
     ∃ post', post = Logged "Error getting stream records:" error
                       :: Slept (pollInterval cfg) :: post' ∧
       ((∃ result post'', post' = Fetched s cursor result :: post'')
        ∨ (post' = [] ∧ R2 = [] ∧ status World run = OutOfFuel))).
Proof.
  intros run cfg Hruns.
  pose proof (processStream_eachTurn
                (λ _ st events,
                   always (fetchFailurePolicy (testMode && negb (stopOnError cfg))
                             (pollInterval cfg) st) events)
                fuel streamArn config w) as Hok.
  fold run in Hok. rewrite Hruns in Hok.
  apply eachTurn_split in Hok as (loopEvents & Hev & Hp).
  - destruct pre as [|e0 pre]; [done|]. injection Hev as -> <-.
    apply always_split in Hp. cbn [fetchFailurePolicy] in Hp.
    destruct Hp as [Hd Hp]. split; [done|].
    destruct (testMode && negb (stopOnError cfg)); split; try done.
    + intros _. destruct Hp as (post' & -> & Hnext). exists post'. split; [done|].
      destruct Hnext as [?|[-> Hst]]; [by left|]. right.
      destruct R2; [done | discriminate].
    + intros _. destruct Hp as [-> Hst]. destruct R2; [done | discriminate].
  - done.
  - intros sid fuel' it n w'. apply loop_fetch_behaviour.
Qed.

(** X23. A fetch that brings records is followed at once by the handler
    invocation on the whole batch, with the cursor that came with it; a
    fetch that brings none is followed by a pause of [pollInterval]; and
    the handler is never invoked on an empty batch. *)
Theorem handler_is_invoked_on_every_nonempty_batch (fuel : nat) (streamArn : string)
    (config : Config) (w : World) (shardId : string) (events pre post : list Event)
    (e : Event) :
  let run := processStream fuel streamArn config w in
  let cfg := processingConfig config in
  (shardId, events) ∈ shardRuns World run →
  events = pre ++ e :: post →
  match e with
  | Fetched s cursor (FetchOk 0 next) =>
      ∃ post', post = Slept (pollInterval cfg) :: post'
  | Fetched s cursor (FetchOk (S count) next) =>
      ∃ records failure post',
        post = HandlerInvoked s cursor next records failure :: post' ∧
        length records = S count
  | HandlerInvoked _ _ _ records _ => records ≠ []
  | _ => True
  end.
Proof.
  intros run cfg (R1 & R2 & Hruns)%list_elem_of_split Hevents.
  pose proof (processStream_eachTurn
                (λ _ _ events, always (batchPolicy (pollInterval cfg)) events)
                fuel streamArn config w) as Hok.
  fold run in Hok. rewrite Hruns in Hok.
  apply eachTurn_split in Hok as (loopEvents & Hev & Hp).
  - rewrite Hevents in Hev. destruct pre as [|e0 pre].
    + injection Hev as -> _. done.
    + injection Hev as -> <-. apply always_split in Hp. exact Hp.
  - done.
  - intros sid fuel' it n w'. apply loop_fetch_behaviour.
Qed.

(** *** The record limit, the batches and exhausted cursors *)

Lemma configured_limit (config : Config) (N : nat) :
  cfg_maxRecords config = Some N → 0 < N →
  maxRecords (processingConfig config) = Some N.
Proof. intros H HN. unfold processingConfig. cbn. rewrite H. by destruct N; [lia|]. Qed.

Lemma processStream_guarded (fuel : nat) (streamArn : string) (config : Config)
    (w : World) :
  guarded (maxRecords (processingConfig config)) 0
    (concat (shardRuns World (processStream fuel streamArn config w)).*2).
Proof.
  unfold Stream.processStream.
  destruct (describeStream streamArn w) as [[[description|e]|e] w1]; try done.
  destruct (default [] (Shards description)) as [|shard shards]; [done|].
  apply processShards_guarded.
Qed.

Lemma processStream_prefix (fuel : nat) (streamArn : string) (config : Config)
    (w w1 : World) (description : StreamDescription) :
  describeStream streamArn w = (Returned (Success description), w1) →
  (shardRuns World (processStream fuel streamArn config w)).*1
    `prefix_of` (ShardId <$> default [] (Shards description)).
Proof.
  intros Hd. unfold Stream.processStream. rewrite Hd.
  destruct (default [] (Shards description)) as [|shard shards] eqn:Es.
  - apply prefix_nil.
  - apply processShards_prefix.
Qed.

(** C4, as the code has it. With a configured [maxRecords = N], [N] at
    least 1 (a [maxRecords] of 0, like none, is replaced by [Infinity]:
    no limit), the loop tests [processedRecords < N] before each fetch:
    every handler invocation starts with fewer than [N] records handled
    so far, so with batches of at most [B] records the records of the
    invocations the handler returned from number at most [N - 1 + B].
    The handler is handed the whole batch: a fetch that brought [count]
    records, [count] at least 1, is followed at once by one invocation on
    [count] records. The shards visited are the first shards of the
    description, in order, one turn each; a turn asks for one cursor and
    then only fetches and handles for its own shard; in a turn no fetch
    follows a fetch that came back without a next cursor. *)
Theorem stream_guard_and_exhaustion (fuel : nat) (streamArn : string)
    (config : Config) (w : World) :
  let run := processStream fuel streamArn config w in
  let cfg := processingConfig config in
  let all := concat (shardRuns World run).*2 in
  (∀ N, cfg_maxRecords config = Some N → 0 < N →
     (∀ pre shardId cursor next records failure post,
        all = pre ++ HandlerInvoked shardId cursor next records failure :: post →
        handled pre < N) ∧
     (∀ B, Forall (batchWithin B) all → handled all ≤ N - 1 + B)) ∧
  (cfg_maxRecords config = None ∨ cfg_maxRecords config = Some 0 →
     maxRecords cfg = None) ∧
  (∀ description w1,
     describeStream streamArn w = (Returned (Success description), w1) →
     (shardRuns World run).*1
       `prefix_of` (ShardId <$> default [] (Shards description))) ∧
  (∀ shardId events, (shardId, events) ∈ shardRuns World run →
     ∃ loopEvents,
       events = IteratorRequested shardId :: loopEvents ∧
       Forall (ofShard shardId) loopEvents ∧
       (∀ pre s cursor count next post,
          loopEvents = pre ++ Fetched s cursor (FetchOk (S count) next) :: post →
          ∃ records failure post',
            post = HandlerInvoked s cursor next records failure :: post' ∧
            length records = S count) ∧
       (∀ pre e post, loopEvents = pre ++ e :: post → exhausts e = true →
          Forall (λ e', isFetch e' = false) post)).
Proof.
  intros run cfg all. split_and!.
  - intros N HN Hpos. pose proof (processStream_guarded fuel streamArn config w) as Hg.
    fold run all in Hg. rewrite (configured_limit config N HN Hpos) in Hg. split.
    + intros pre shardId cursor next records failure post Hall.
      rewrite Hall in Hg. apply guarded_split in Hg.
      by apply Nat.ltb_lt in Hg.
    + intros B HB. apply (guarded_bound N B all 0 Hg HB). lia.
  - subst cfg. unfold processingConfig. cbn. by intros [-> | ->].
  - intros description w1. apply processStream_prefix.
  - intros shardId events (R1 & R2 & HR)%list_elem_of_split.
    pose proof (processStream_eachTurn
                  (λ shardId _ events,
                     Forall (ofShard shardId) events ∧
                     always stopsWhenExhausted events ∧
                     always (batchPolicy (pollInterval cfg)) events)
                  fuel streamArn config w) as Hok.
    fold run in Hok. rewrite HR in Hok.
    apply eachTurn_split in Hok as (loopEvents & -> & Hs & He & Hb).
    + exists loopEvents. split_and!; [done..| |].
      * intros pre s cursor count next post ->. apply always_split in Hb. exact Hb.
      * intros pre e post -> Hex. apply always_split in He. by apply He.
    + by intros.
    + intros sid fuel' it n w'. split_and!.
      * apply loop_ofShard.
      * apply loop_behaviour.
      * apply loop_fetch_behaviour.
Qed.

Section Budget.

Variable cfg : StreamProcessingConfig.
Variable streamArn : string.

Lemma processShards_completed (fuel : nat) (shards : list Shard) (n : nat) (w : World) :
  status World (processShards fuel cfg streamArn shards n w) = Completed →
  (shardRuns World (processShards fuel cfg streamArn shards n w)).*1
    = ShardId <$> shards.
Proof.
  revert n w. induction shards as [|shard rest IH]; intros n w;
    cbn [Stream.processShards]; [done|].
  destruct (getShardIterator _ _ _ _) as [[[it|e]|e] w1]; cbn [status]; try done.
  destruct (loop_status World _); cbn [status shardRuns]; try done.
  intros H. rewrite !fmap_cons. cbn [fst]. f_equal. by apply IH.
Qed.



End Budget.

(** X24. A run that completes has taken the shards of the description in
    the order listed, one turn each, whatever their parent-child
    relation; and the only run that visits no shard is the one rejected
    with "No shards found in the stream" (the description having been
    obtained). *)
Theorem completed_run_visits_every_shard_in_order (fuel : nat) (streamArn : string)
    (config : Config) (w w1 : World) (description : StreamDescription) :
  let run := processStream fuel streamArn config w in
  describeStream streamArn w = (Returned (Success description), w1) →
  (status World run = Completed →
     (shardRuns World run).*1 = ShardId <$> default [] (Shards description)) ∧
  (shardRuns World run = [] →
     status World run = Rejected (Error "No shards found in the stream")).
Proof.
  intros run Hd. subst run. unfold Stream.processStream. rewrite Hd.
  destruct (default [] (Shards description)) as [|shard shards]; [done|]. split.
  - apply processShards_completed.
  - intros H. exfalso. revert H. cbn [Stream.processShards].
    destruct (getShardIterator _ _ _ _) as [[[it|e]|e] w2]; cbn [shardRuns]; try done.
    by destruct (loop_status World _).
Qed.


Lemma below_at_start (config : Config) :
  below 0 (maxRecords (processingConfig config)) = true.
Proof. unfold processingConfig. cbn. by destruct (cfg_maxRecords config) as [[|n]|]. Qed.

Section Liveness.

Variable cfg : StreamProcessingConfig.

(** every fetch comes back empty, with a cursor to go on with *)
Hypothesis idle : ∀ cursor limit w, ∃ out w',
  sendGetRecords cursor limit w = (Returned out, w') ∧
  default [] (Records out) = [] ∧ is_Some (usable (NextShardIterator out)).

Lemma idle_loop (shardId : string) (fuel : nat) (it : option string) (n : nat)
    (w : World) :
  is_Some (usable it) → below n (maxRecords cfg) = true →
  let r := shardLoop fuel cfg shardId it n w in
  loop_status World r = OutOfFuel ∧
  length (fetchCursors (loop_events World r)) = fuel ∧
  passed (loop_events World r) = 0.
Proof.
  cbn zeta. revert it w. induction fuel as [|fuel IH]; intros it w [c Hc] Hb;
    cbn [Stream.shardLoop]; rewrite Hc, Hb; cbn [negb]; [done|].
  unfold Stream.getStreamRecords.
  destruct (idle c (batchSize cfg) w) as (out & w' & -> & -> & Hnext).
  cbn [convertAll Stream.andThen loop_status loop_events app].
  destruct (IH (NextShardIterator out) w' Hnext Hb) as (H1 & H2 & H3).
  split_and!; [done| |done]. unfold fetchCursors in *. cbn. by rewrite H2.
Qed.

End Liveness.

(** X26. On a stream whose fetches always come back empty with a cursor to
    go on with, [processStream] does not return, with or without
    [maxRecords]: for every bound on the number of turns the run is still
    in the first shard when the bound is reached, having fetched once per
    turn and never invoked the handler. *)
Theorem idle_open_shard_is_polled_without_end (fuel : nat) (streamArn : string)
    (config : Config) (w w1 : World) (description : StreamDescription)
    (shard : Shard) (shards : list Shard) :
  sendDescribeStream streamArn w = (Returned (Some description), w1) →
  Shards description = Some (shard :: shards) →
  (∀ shardId iteratorType w, ∃ iterator w',
     sendGetShardIterator streamArn shardId iteratorType w
       = (Returned (Some iterator), w') ∧ iterator ≠ "") →
  (∀ cursor limit w, ∃ out w',
     sendGetRecords cursor limit w = (Returned out, w') ∧
     default [] (Records out) = [] ∧ is_Some (usable (NextShardIterator out))) →
  let run := processStream fuel streamArn config w in
  status World run = OutOfFuel ∧
  ∃ events, shardRuns World run = [(ShardId shard, events)] ∧
            length (fetchCursors events) = fuel ∧ passed events = 0.
Proof.
  intros Hd Hs Hit Hidle run. subst run.
  unfold Stream.processStream, Stream.describeStream. rewrite Hd, Hs.
  cbn [default from_option id Stream.processShards]. unfold Stream.getShardIterator.
  destruct (Hit (ShardId shard) TRIM_HORIZON w1) as (iterator & w2 & -> & Hne).
  assert (usable (Some iterator) = Some iterator) as Hu.
  { cbn. destruct (String.eqb_spec iterator ""); done. }
  rewrite Hu.
  destruct (idle_loop (processingConfig config) Hidle (ShardId shard) fuel
              (Some iterator) 0 w2) as (Hst & Hf & Hp);
    [by rewrite Hu | apply below_at_start |].
  rewrite Hst. cbn [status shardRuns]. split; [done|]. eexists. split; [done|].
  split; [|done]. unfold fetchCursors in *. by cbn.
Qed.

Section Progress.

Variable cfg : StreamProcessingConfig.
Variable N : nat.

Hypothesis budget : maxRecords cfg = Some N.

(** every fetch brings at least one record and none that is [undefined] or
    [null], and the handler returns *)
Hypothesis steady : ∀ cursor limit w, ∃ out w',
  sendGetRecords cursor limit w = (Returned out, w') ∧
  default [] (Records out) ≠ [] ∧
  Forall (λ record, isNullish record = false) (default [] (Records out)).
Hypothesis accepts : ∀ records w, ∃ w', handler records w = (Returned tt, w').



End Progress.


(** X28. The error convention of [describeStream], [getShardIterator] and
    [getStreamRecords]: they throw outside test mode only, and what they
    throw is a [DynamoError]; a failure they return is a [DynamoError] in
    test mode, or the plain error of a missing description or cursor;
    [getStreamRecords] returns a failure in test mode only. *)
Theorem stream_wrappers_error_convention (streamArn shardId cursor : string)
    (iteratorType : ShardIteratorType) (limit : nat) (w : World) (error : JsError) :
  let described := (describeStream streamArn w).1 in
  let iterator := (getShardIterator streamArn shardId iteratorType w).1 in
  let fetched := (getStreamRecords cursor limit w).1 in
  (described = Raised error ∨ iterator = Raised error ∨ fetched = Raised error →
     testMode = false ∧ name error = "DynamoError") ∧
  (described = Returned (Failure error) ∨ iterator = Returned (Failure error) →
     name error = "DynamoError" ∧ testMode = true
     ∨ error = Error ("No stream description found for " +:+ streamArn)
     ∨ error = Error ("No shard iterator returned for shard " +:+ shardId)) ∧
  (fetched = Returned (Failure error) →
     testMode = true ∧ name error = "DynamoError").
Proof.
  cbn zeta. unfold Stream.describeStream, Stream.getShardIterator,
    Stream.getStreamRecords.
  destruct (sendDescribeStream streamArn w) as [[[d|]|e1] w1];
    destruct (sendGetShardIterator streamArn shardId iteratorType w) as [[i|e2] w2];
    destruct (sendGetRecords cursor limit w) as [[out|e3] w3];
    try destruct (convertAll _) as [records|e3];
    try destruct (usable i);
    cbn [fst];
    try (destruct (handleError_cases (A := StreamDescription)
                     ("Failed to describe stream " +:+ streamArn) e1)
           as (d1 & Hd1 & _ & ->));
    try (destruct (handleError_cases (A := string)
                     ("Failed to get shard iterator for shard " +:+ shardId) e2)
           as (d2 & Hd2 & _ & ->));
    try (destruct (handleError_cases (A := list JsValue * option string)
                     "Failed to get stream records" e3)
           as (d3 & Hd3 & _ & ->));
    destruct testMode; split_and!; intros H;
    repeat match goal with H : _ ∨ _ |- _ => destruct H as [H|H] end;
    simplify_eq; eauto.
Qed.

End StreamFurther.

(** X29. [convertDynamoDBRecord] throws a [TypeError] on a record that is
    [undefined] or [null], and on no other. The record it returns always
    has [dynamodb.Keys] (an empty object when the source record has
    none); its [userIdentity] is [undefined] when the source has none and
    otherwise has a [type] and a [principalId], "Unknown" when missing;
    the five event fields are copied as they are. *)
Theorem converted_record_is_normalised (record : JsValue) :
  match Stream.convertDynamoDBRecord record with
  | Stream.Raised error =>
      (record = JUndefined ∨ record = JNull) ∧ Stream.name error = "TypeError"
  | Stream.Returned converted =>
      record ≠ JUndefined ∧ record ≠ JNull ∧
      truthy (getProp (getProp converted "dynamodb") "Keys") = true ∧
      (truthy (getProp record "userIdentity") = false →
         getProp converted "userIdentity" = JUndefined) ∧
      (truthy (getProp record "userIdentity") = true →
         truthy (getProp (getProp converted "userIdentity") "type") = true ∧
         truthy (getProp (getProp converted "userIdentity") "principalId") = true) ∧
      (∀ k, k ∈ ["eventID"; "eventName"; "eventVersion"; "eventSource"; "awsRegion"] →
         getProp converted k = getProp record k)
  end.
Proof.
  unfold Stream.convertDynamoDBRecord.
  destruct (Stream.isNullish record) eqn:Enull.
  { split; [|done]. destruct record; try discriminate; auto. }
  unfold Stream.convertedRecord.
  assert (∀ v d, truthy d = true → truthy (Stream.orElse v d) = true) as Hor.
  { intros v d Hd. unfold Stream.orElse. by destruct (truthy v) eqn:E. }
  split_and!.
  - by intros ->.
  - by intros ->.
  - cbn. by apply Hor.
  - cbn. by intros ->.
  - cbn. intros ->. cbn. split; by apply Hor.
  - intros k Hk. repeat (apply elem_of_cons in Hk as [->|Hk]; [done|]).
    by apply elem_of_nil in Hk.
Qed.

Section StreamFurtherExamples.
Import Stream.

(** Two shards with one batch of two records each, and [maxRecords = 3]:
    the second batch is handed over with two records handled, and four
    are handled in all. *)
Lemma stream_guard_and_exhaustion_witness :
  let config := {| cfg_batchSize := None; cfg_maxRecords := Some 3;
                   cfg_pollInterval := None; cfg_stopOnError := None |} in
  let batch := [ convertedRecord (JObject [("eventID", JString "1")]);
                 convertedRecord (JObject [("eventID", JString "2")]) ] in
  let turn shardId :=
    [ IteratorRequested shardId;
      Fetched shardId "it0" (FetchOk 2 None);
      HandlerInvoked shardId "it0" None batch None ] in
  shardRuns unit (twoShardBurst_run config)
    = [("shard-1", turn "shard-1"); ("shard-2", turn "shard-2")] ∧
  handled (turn "shard-1" ++ [ IteratorRequested "shard-2";
                               Fetched "shard-2" "it0" (FetchOk 2 None) ]) < 3 ∧
  handled (turn "shard-1" ++ turn "shard-2") ≤ 3 - 1 + 2 ∧
  [ "shard-1"; "shard-2" ] `prefix_of` [ "shard-1"; "shard-2" ] ∧
  (∃ records failure post',
     [ HandlerInvoked "shard-2" "it0" None batch None ]
     = HandlerInvoked "shard-2" "it0" None records failure :: post' ∧
     length records = 2) ∧
  Forall (λ e', isFetch e' = false) [ HandlerInvoked "shard-2" "it0" None batch None ].
Proof.
  cbn zeta.
  destruct (stream_guard_and_exhaustion None
              (λ _ w, (Returned (Some twoShards), w))
              (λ _ _ _ w, (Returned (Some "it0"), w))
              (λ _ _ w,
                 (Returned {| Records := Some [JObject [("eventID", JString "1")];
                                               JObject [("eventID", JString "2")]];
                              NextShardIterator := None |}, w))
              (λ _ w, (Returned tt, w))
              10 "arn:stream"
              {| cfg_batchSize := None; cfg_maxRecords := Some 3;
                 cfg_pollInterval := None; cfg_stopOnError := None |} tt)
    as (Hlimit & _ & Hprefix & Hturn).
  destruct (Hlimit 3 eq_refl (Nat.lt_0_succ 2)) as [Hguard Hbound].
  destruct (Hturn "shard-2"
              [ IteratorRequested "shard-2";
                Fetched "shard-2" "it0" (FetchOk 2 None);
                HandlerInvoked "shard-2" "it0" None
                  [ convertedRecord (JObject [("eventID", JString "1")]);
                    convertedRecord (JObject [("eventID", JString "2")]) ] None ])
    as (loopEvents & Hevents & _ & Hbatch & Hexhausted).
  { vm_compute. apply list_elem_of_further, list_elem_of_here. }
  injection Hevents as <-.
  split_and!.
  - reflexivity.
  - exact (Hguard
             [ IteratorRequested "shard-1";
               Fetched "shard-1" "it0" (FetchOk 2 None);
               HandlerInvoked "shard-1" "it0" None
                 [ convertedRecord (JObject [("eventID", JString "1")]);
                   convertedRecord (JObject [("eventID", JString "2")]) ] None;
               IteratorRequested "shard-2";
               Fetched "shard-2" "it0" (FetchOk 2 None) ]
             "shard-2" "it0" None
             [ convertedRecord (JObject [("eventID", JString "1")]);
               convertedRecord (JObject [("eventID", JString "2")]) ] None []
             eq_refl).
  - apply (Hbound 2). vm_compute. repeat constructor.
  - exact (Hprefix twoShards tt eq_refl).
  - exact (Hbatch [] "shard-2" "it0" 1 None _ eq_refl).
  - exact (Hexhausted [] (Fetched "shard-2" "it0" (FetchOk 2 None)) _ eq_refl eq_refl).
Defined.

(** C4 fails as stated: with [maxRecords = 1] and a first batch of two
    records, the handler is handed two records. *)
Lemma handler_receives_more_than_maxRecords :
  maxRecords
    (processingConfig
       {| cfg_batchSize := None; cfg_maxRecords := Some 1; cfg_pollInterval := None;
          cfg_stopOnError := None |}) = Some 1 ∧
  passed
    (concat
       (burstWorld_run
          {| cfg_batchSize := None; cfg_maxRecords := Some 1;
             cfg_pollInterval := None; cfg_stopOnError := None |}).(shardRuns unit).*2)
  = 2 ∧
  ¬ passed
      (concat
         (burstWorld_run
            {| cfg_batchSize := None; cfg_maxRecords := Some 1;
               cfg_pollInterval := None; cfg_stopOnError := None |}).(shardRuns unit).*2)
    ≤ 1.
Proof.
  assert (passed
    (concat
       (burstWorld_run
          {| cfg_batchSize := None; cfg_maxRecords := Some 1;
             cfg_pollInterval := None; cfg_stopOnError := None |}).(shardRuns unit).*2)
    = 2) as E by by vm_compute.
  split; [done|]. split; [done|]. rewrite E. lia.
Qed.

Lemma fetch_failure_policy_witness :
  ∃ post',
    [ Logged "Error getting stream records:"
        (DynamoError UnknownError "Failed to get stream records: socket hang up");
      Slept 1000 ]
    = Logged "Error getting stream records:"
        (DynamoError UnknownError "Failed to get stream records: socket hang up")
        :: Slept 1000 :: post' ∧
    ((∃ result post'', post' = Fetched "shard-1" "it0" result :: post'')
     ∨ (post' = [] ∧ @nil (string * list Event) = []
        ∧ status unit
            (unreachable_run (Some "test") 1
               {| cfg_batchSize := None; cfg_maxRecords := None;
                  cfg_pollInterval := None; cfg_stopOnError := None |})
          = OutOfFuel)).
Proof.
  destruct (fetch_failure_policy (Some "test")
              (λ _ w, (Returned (Some oneShard), w))
              (λ _ _ _ w, (Returned (Some "it0"), w))
              (λ _ _ w, (Raised timeout, w))
              (λ _ w, (Returned tt, w))
              1 "arn:stream"
              {| cfg_batchSize := None; cfg_maxRecords := None;
                 cfg_pollInterval := None; cfg_stopOnError := None |}
              tt [] [] "shard-1" "shard-1" "it0"
              (DynamoError UnknownError "Failed to get stream records: socket hang up")
              [ IteratorRequested "shard-1" ]
              [ Logged "Error getting stream records:"
                  (DynamoError UnknownError
                     "Failed to get stream records: socket hang up");
                Slept 1000 ]
              eq_refl) as (_ & _ & H).
  exact (H eq_refl).
Defined.

Lemma handler_is_invoked_on_every_nonempty_batch_witness :
  ∃ records failure post',
    [ HandlerInvoked "shard-1" "it0" (Some "it0") [convertedRecord (JObject [("eventID", JString "1")])] None ]
    = HandlerInvoked "shard-1" "it0" (Some "it0") records failure :: post' ∧
    length records = 1.
Proof.
  apply (handler_is_invoked_on_every_nonempty_batch None
           (λ _ w, (Returned (Some oneShard), w))
           (λ _ _ _ w, (Returned (Some "it0"), w))
           (λ _ _ w, (Returned {| Records := Some [JObject [("eventID", JString "1")]];
                                  NextShardIterator := Some "it0" |}, w))
           (λ _ w, (Returned tt, w))
           1 "arn:stream"
           {| cfg_batchSize := None; cfg_maxRecords := None;
              cfg_pollInterval := None; cfg_stopOnError := None |}
           tt "shard-1"
           [ IteratorRequested "shard-1";
             Fetched "shard-1" "it0" (FetchOk 1 (Some "it0"));
             HandlerInvoked "shard-1" "it0" (Some "it0") [convertedRecord (JObject [("eventID", JString "1")])]
               None ]
           [ IteratorRequested "shard-1" ]
           [ HandlerInvoked "shard-1" "it0" (Some "it0") [convertedRecord (JObject [("eventID", JString "1")])]
               None ]
           (Fetched "shard-1" "it0" (FetchOk 1 (Some "it0")))).
  - vm_compute. apply list_elem_of_here.
  - reflexivity.
Defined.

Lemma completed_run_visits_every_shard_in_order_witness :
  (twoShardBurst_run
     {| cfg_batchSize := None; cfg_maxRecords := None; cfg_pollInterval := None;
        cfg_stopOnError := None |}).(shardRuns unit).*1
  = ["shard-1"; "shard-2"].
Proof.
  exact (proj1 (completed_run_visits_every_shard_in_order None
                  (λ _ w, (Returned (Some twoShards), w))
                  (λ _ _ _ w, (Returned (Some "it0"), w))
                  (λ _ _ w,
                     (Returned {| Records := Some [JObject [("eventID", JString "1")];
                                                   JObject [("eventID", JString "2")]];
                                  NextShardIterator := None |}, w))
                  (λ _ w, (Returned tt, w))
                  10 "arn:stream"
                  {| cfg_batchSize := None; cfg_maxRecords := None;
                     cfg_pollInterval := None; cfg_stopOnError := None |}
                  tt tt twoShards eq_refl) eq_refl).
Defined.


Lemma idle_open_shard_is_polled_without_end_witness :
  status unit
    (openShard_run [] 7
       {| cfg_batchSize := None; cfg_maxRecords := Some 1; cfg_pollInterval := None;
          cfg_stopOnError := None |}) = OutOfFuel ∧
  ∃ events,
    shardRuns unit
      (openShard_run [] 7
         {| cfg_batchSize := None; cfg_maxRecords := Some 1; cfg_pollInterval := None;
            cfg_stopOnError := None |}) = [("shard-1", events)] ∧
    length (fetchCursors events) = 7 ∧ passed events = 0.
Proof.
  apply (idle_open_shard_is_polled_without_end None
           (λ _ w, (Returned (Some oneShard), w))
           (λ _ _ _ w, (Returned (Some "it0"), w))
           (λ _ _ w, (Returned {| Records := Some []; NextShardIterator := Some "it0" |},
                      w))
           (λ _ w, (Returned tt, w))
           7 "arn:stream"
           {| cfg_batchSize := None; cfg_maxRecords := Some 1; cfg_pollInterval := None;
              cfg_stopOnError := None |}
           tt tt oneShard {| ShardId := "shard-1"; ParentShardId := None |} []).
  - reflexivity.
  - reflexivity.
  - intros shardId iteratorType w. exists "it0", w. split; [reflexivity | discriminate].
  - intros cursor limit w. eexists _, w. split_and!; [reflexivity | reflexivity |].
    by eexists.
Defined.


End StreamFurtherExamples.
